(** * Verification of the [vector] diagram library

    A shallow embedding of the geometry helpers ([util/math.ts] and
    [CoordinateSystem.findLineEndpoints]), of the typeset-label matcher
    ([elements/tex.ts]) and of the SVG export pipeline ([util/svg.ts]),
    followed by the properties established about them. *)

From Stdlib Require Import QArith Qabs Qround Qpower Bool List String Ascii ZArith Lia Lqa DecimalString.
Import ListNotations.

Local Open Scope Q_scope.

(** ** JavaScript numbers

    Numbers are the binary64 values of IEEE 754 as JavaScript exposes
    them: the two infinities, NaN, signed zeros and the finite values.  A
    finite value is kept as the rational it stands for; in [Fin q negz] the
    flag [negz] is the sign bit of the value when [q] is zero.  The
    arithmetic operations round the exact result to the nearest binary64
    value, a tie going to the even significand ([round64]): they overflow
    to an infinity and underflow through the subnormal values to a zero.
    Negation, comparison and the remainder do not round.  The type has room
    for every rational; the numbers of a program are those that literals
    ([binary64]), integers of at most 53 bits ([num_of_Z]) and the
    operations give. *)

Inductive num : Type :=
| NaN
| Inf (neg : bool)
| Fin (q : Q) (negz : bool).

Definition Qneg_bool (q : Q) : bool := negb (Qle_bool 0 q).

Definition signbit (a : num) : bool :=
  match a with
  | NaN => false
  | Inf s => s
  | Fin q z => if Qeq_bool q 0 then z else Qneg_bool q
  end.

(** A finite result [q]; [zsign] is the sign IEEE gives it when it is zero. *)
Definition fin (q : Q) (zsign : bool) : num :=
  Fin q (if Qeq_bool q 0 then zsign else Qneg_bool q).

(** The integer [k] with [2 ^ k <= a < 2 ^ (k + 1)], for a positive [a]. *)
Definition Qlog2 (a : Q) : Z :=
  let k := (Z.log2 (Qnum a) - Z.log2 (Zpos (Qden a)))%Z in
  if Qle_bool (2 ^ k) a then k else (k - 1)%Z.

(** The nearest integer, a tie going to the even one. *)
Definition round_half_even (x : Q) : Z :=
  let f := Qfloor x in
  match Qcompare (x - inject_Z f) (1 # 2) with
  | Lt => f
  | Gt => (f + 1)%Z
  | Eq => if Z.even f then f else (f + 1)%Z
  end.

(** The binary64 magnitude nearest to a positive [a]: a significand of 53
    bits at the exponent of [a], which is not below that of the subnormal
    values. *)
Definition nearest (a : Q) : Q :=
  let e := Z.max (Qlog2 a - 52) (-1074) in
  Qred (inject_Z (round_half_even (a / 2 ^ e)) * 2 ^ e).

(** The binary64 value nearest to the exact result [q] of an operation;
    2^1024 and beyond is an infinity.  [zsign] is the sign IEEE gives the
    result when [q] is zero; a result that underflows to zero keeps the
    sign of [q]. *)
Definition round64 (q : Q) (zsign : bool) : num :=
  if Qeq_bool q 0 then Fin 0 zsign
  else
    let v := nearest (Qabs q) in
    if Qle_bool (2 ^ 1024) v then Inf (Qneg_bool q)
    else Fin (if Qneg_bool q then - v else v) (Qneg_bool q).

(** The number that a decimal literal denotes: the binary64 value nearest
    to it. *)
Definition binary64 (q : Q) : num := round64 q false.

(** A number given by the rational it stands for, which is taken as it
    is, and the integers among them. *)
Definition num_of_Q (q : Q) : num := fin q false.
Definition num_of_Z (z : Z) : num := num_of_Q (inject_Z z).

Definition Infinity : num := Inf false.
Definition zero : num := num_of_Z 0.
Definition one : num := num_of_Z 1.

Definition num_opp (a : num) : num :=
  match a with
  | NaN => NaN
  | Inf s => Inf (negb s)
  | Fin q _ => fin (- q) (negb (signbit a))
  end.

Definition num_add (a b : num) : num :=
  match a, b with
  | NaN, _ | _, NaN => NaN
  | Inf s, Inf t => if Bool.eqb s t then Inf s else NaN
  | Inf s, Fin _ _ => Inf s
  | Fin _ _, Inf t => Inf t
  | Fin p _, Fin q _ => round64 (p + q) (signbit a && signbit b)
  end.

Definition num_sub (a b : num) : num := num_add a (num_opp b).

Definition num_mul (a b : num) : num :=
  match a, b with
  | NaN, _ | _, NaN => NaN
  | Inf s, Inf t => Inf (xorb s t)
  | Inf s, Fin q _ => if Qeq_bool q 0 then NaN else Inf (xorb s (signbit b))
  | Fin p _, Inf t => if Qeq_bool p 0 then NaN else Inf (xorb (signbit a) t)
  | Fin p _, Fin q _ => round64 (p * q) (xorb (signbit a) (signbit b))
  end.

Definition num_div (a b : num) : num :=
  match a, b with
  | NaN, _ | _, NaN => NaN
  | Inf _, Inf _ => NaN
  | Inf s, Fin _ _ => Inf (xorb s (signbit b))
  | Fin _ _, Inf t => fin 0 (xorb (signbit a) t)
  | Fin p _, Fin q _ =>
      if Qeq_bool q 0
      then (if Qeq_bool p 0 then NaN else Inf (xorb (signbit a) (signbit b)))
      else round64 (p / q) (xorb (signbit a) (signbit b))
  end.

(** [a <= b] *)
Definition num_le (a b : num) : bool :=
  match a, b with
  | NaN, _ | _, NaN => false
  | Inf true, _ => true
  | Inf false, Inf false => true
  | Inf false, _ => false
  | Fin _ _, Inf t => negb t
  | Fin p _, Fin q _ => Qle_bool p q
  end.

(** [a < b] *)
Definition num_lt (a b : num) : bool :=
  match a, b with
  | NaN, _ | _, NaN => false
  | _, _ => negb (num_le b a)
  end.

(** [a === b] on numbers *)
Definition strict_eq (a b : num) : bool :=
  match a, b with
  | Inf s, Inf t => Bool.eqb s t
  | Fin p _, Fin q _ => Qeq_bool p q
  | _, _ => false
  end.

Definition isFinite (a : num) : bool :=
  match a with Fin _ _ => true | _ => false end.

(** ToBoolean on a number: zero (of either sign) and NaN are falsy. *)
Definition truthy (a : num) : bool :=
  match a with
  | NaN => false
  | Inf _ => true
  | Fin q _ => negb (Qeq_bool q 0)
  end.

(** [a || b] on numbers *)
Definition num_or (a b : num) : num := if truthy a then a else b.

Declare Scope num_scope.
Delimit Scope num_scope with num.
Infix "+" := num_add : num_scope.
Infix "-" := num_sub : num_scope.
Infix "*" := num_mul : num_scope.
Infix "/" := num_div : num_scope.
Infix "<=?" := num_le : num_scope.
Infix "<?" := num_lt : num_scope.
Infix "===" := strict_eq (at level 70, no associativity) : num_scope.

(** ** Points ([model/Point]) *)

Record Point : Type := mkPoint { x : num; y : num }.

(** ** Outcomes of calls that may throw *)

Inductive exn : Type :=
| Error (message : string)
| TypeError
| SyntaxError.

Inductive result (A : Type) : Type :=
| Ok (a : A)
| Throw (e : exn).
Arguments Ok {A} a.
Arguments Throw {A} e.

Definition bind {A B : Type} (c : result A) (k : A -> result B) : result B :=
  match c with
  | Ok a => k a
  | Throw e => Throw e
  end.

Notation "x <- c ;; k" := (bind c (fun x => k))
  (at level 61, c at next level, right associativity).

(** ** util/math.ts *)

(** The receiver of a call.  A plain call [factorial(n)] of the exported
    function runs with [this] undefined (module code is strict); a call
    through an object that has a [factorial] member runs with that object
    as [this]. *)
Record receiver : Type := { member_factorial : num -> result num }.

Definition factorial (this : option receiver) (n : num) : result num :=
  if (n <? one)%num then Ok one
  else
    match this with
    | None => Throw TypeError
    | Some obj =>
        r <- member_factorial obj (n - one)%num ;;
        Ok (n * r)%num
    end.

(** The module namespace object as a receiver, unfolded [fuel] calls deep. *)
Fixpoint namespace (fuel : nat) : receiver :=
  match fuel with
  | O => {| member_factorial := fun _ => Throw (Error "Maximum call stack size exceeded") |}
  | S k => {| member_factorial := factorial (Some (namespace k)) |}
  end.

(** Returns the point where two lines intersect. *)
Definition pointWhereTwoLinesIntersect (p1 p2 p3 p4 : Point) : Point :=
  let slope1 := ((y p2 - y p1) / (x p2 - x p1))%num in
  let slope2 := ((y p4 - y p3) / (x p4 - x p3))%num in
  let b1 := (y p2 - x p2 * slope1)%num in
  let b2 := (y p4 - x p4 * slope2)%num in
  let x0 := ((b2 - b1) / (slope1 - slope2))%num in
  if negb (isFinite slope1) then
    let x1 := x p1 in
    mkPoint x1 (y p3 + slope2 * (x1 - x p3))%num
  else if negb (isFinite slope2) then
    let x1 := x p3 in
    mkPoint x1 (y p1 + slope1 * (x1 - x p1))%num
  else
    mkPoint x0 (y p1 + slope1 * (x0 - x p1))%num.

(** ** CoordinateSystem.findLineEndpoints *)

Definition PointTuple : Type := (num * num)%type.

(** [Array.prototype.sort] with a comparison function: a stable sort in
    which [b] goes before [a] exactly when [compare a b] is positive (a NaN
    result counts as zero). *)
Definition positive (a : num) : bool := (zero <? a)%num.

Fixpoint sort_insert {A : Type} (compare : A -> A -> num) (a : A) (l : list A) : list A :=
  match l with
  | [] => [a]
  | b :: l' => if positive (compare a b) then b :: sort_insert compare a l' else a :: l
  end.

Definition sort {A : Type} (compare : A -> A -> num) (l : list A) : list A :=
  fold_right (sort_insert compare) [] l.

Definition by_x_then_y (a b : PointTuple) : num :=
  num_or (fst a - fst b)%num (snd a - snd b)%num.

Definition push_if {A : Type} (c : bool) (l : list A) (a : A) : list A :=
  if c then l ++ [a] else l.

Definition findLineEndpoints (v : Point) (minX minY width height : num) : list PointTuple :=
  let x := x v in
  let y := y v in
  let potentialEndpoints : list PointTuple := [] in
  let slope := if negb (x === zero)%num then (y / x)%num else Infinity in
  let leftIntersectionY := (slope * minX)%num in
  let rightIntersectionY := (slope * (minX + width))%num in
  let potentialEndpoints :=
    push_if ((minY <=? leftIntersectionY)%num && (leftIntersectionY <=? minY + height)%num)
      potentialEndpoints (minX, leftIntersectionY) in
  let potentialEndpoints :=
    push_if ((minY <=? rightIntersectionY)%num && (rightIntersectionY <=? minY + height)%num)
      potentialEndpoints ((minX + width)%num, rightIntersectionY) in
  let potentialEndpoints :=
    if negb (slope === Infinity)%num then
      let bottomIntersectionX := (minY / slope)%num in
      let topIntersectionX := ((minY + height) / slope)%num in
      let potentialEndpoints :=
        push_if ((minX <=? bottomIntersectionX)%num && (bottomIntersectionX <=? minX + width)%num)
          potentialEndpoints (bottomIntersectionX, minY) in
      push_if ((minX <=? topIntersectionX)%num && (topIntersectionX <=? minX + width)%num)
        potentialEndpoints (topIntersectionX, (minY + height)%num)
    else potentialEndpoints in
  let potentialEndpoints :=
    if (x === zero)%num
    then potentialEndpoints ++ [(zero, minY); (zero, (minY + height)%num)]
    else potentialEndpoints in
  let potentialEndpoints :=
    if (y === zero)%num
    then potentialEndpoints ++ [(minX, zero); ((minX + width)%num, zero)]
    else potentialEndpoints in
  if Nat.ltb 2 (List.length potentialEndpoints) then
    let sorted := sort by_x_then_y potentialEndpoints in
    [nth 0 sorted (NaN, NaN); nth (List.length sorted - 1) sorted (NaN, NaN)]
  else potentialEndpoints.


(** ** Predicates on points *)

Definition value (a : num) : option Q :=
  match a with Fin q _ => Some q | _ => None end.

Definition coords (p : Point) : option (Q * Q) :=
  match value (x p), value (y p) with
  | Some a, Some b => Some (a, b)
  | _, _ => None
  end.





(** Two coordinate pairs that [===] identifies componentwise. *)
Definition tuple_eq (a b : PointTuple) : bool :=
  (fst a === fst b)%num && (snd a === snd b)%num.

(** The right-hand boundary [minX + width] lies left of [minX] (the
    difference that the sort computes, [minX - (minX + width)], is
    positive) and the x axis crosses the viewport: the one configuration in
    which the sort of [findLineEndpoints] puts the right-hand boundary
    first. *)
Definition mirrored (minX minY width height : num) : bool :=
  positive (minX - (minX + width))%num
  && (minY <=? zero)%num && (zero <=? minY + height)%num.

(** The endpoints for a horizontal direction as the specification words
    them: exactly the two points [(minX, 0)] and [(minX + width, 0)],
    whatever the viewport. *)
Definition horizontal_endpoints_as_specified (v : Point) (minX minY width height : num)
  : Prop :=
  exists a b,
    findLineEndpoints v minX minY width height = [a; b]
    /\ ((tuple_eq a (minX, zero) = true /\ tuple_eq b ((minX + width)%num, zero) = true)
        \/ (tuple_eq a ((minX + width)%num, zero) = true /\ tuple_eq b (minX, zero) = true)).

(** ** DOM elements

    An element carries its name, its attributes in document order and its
    child elements.  The [style] attribute is kept apart from the other
    attributes, as the list of the declarations it holds: [attributes]
    lists the attributes other than [style], and [style] is what both the
    attribute and the [style] property of the element stand for.  The
    trees handled here (typeset output and drawings built through the
    element wrappers) hold element nodes only, so [firstChild],
    [lastChild] and [children] range over the same list. *)

Local Open Scope string_scope.
Local Open Scope list_scope.

#[warnings="-register-all"]
Inductive element : Type :=
| Element (tagName : string) (attributes : list (string * string))
    (style : list (string * string)) (children : list element).

Definition tagName (e : element) : string :=
  match e with Element t _ _ _ => t end.
Definition attributes (e : element) : list (string * string) :=
  match e with Element _ a _ _ => a end.
Definition style (e : element) : list (string * string) :=
  match e with Element _ _ s _ => s end.
Definition children (e : element) : list element :=
  match e with Element _ _ _ cs => cs end.

(** Name/value lists: attributes and style declarations. *)
Fixpoint lookup (name : string) (l : list (string * string)) : option string :=
  match l with
  | [] => None
  | (k, v) :: l' => if String.eqb k name then Some v else lookup name l'
  end.

Fixpoint assign (name value : string) (l : list (string * string)) : list (string * string) :=
  match l with
  | [] => [(name, value)]
  | (k, v) :: l' =>
      if String.eqb k name then (k, value) :: l' else (k, v) :: assign name value l'
  end.

Fixpoint unassign (name : string) (l : list (string * string)) : list (string * string) :=
  match l with
  | [] => []
  | (k, v) :: l' =>
      if String.eqb k name then unassign name l' else (k, v) :: unassign name l'
  end.

(** [e.getAttribute(name)], for a name other than [style]. *)
Definition getAttribute (name : string) (e : element) : option string :=
  lookup name (attributes e).

Definition hasAttribute (name : string) (e : element) : bool :=
  match getAttribute name e with Some _ => true | None => false end.

Definition setAttribute (name value : string) (e : element) : element :=
  match e with Element t a s cs => Element t (assign name value a) s cs end.

Definition removeAttribute (name : string) (e : element) : element :=
  match e with Element t a s cs => Element t (unassign name a) s cs end.

Definition appendChild (child : element) (e : element) : element :=
  match e with Element t a s cs => Element t a s (cs ++ [child]) end.

Definition firstChild (e : element) : option element := head (children e).

(** [a || b] on values that are a string or null: null and the empty
    string are falsy. *)
Definition nonempty (a : option string) : bool :=
  match a with
  | Some s => negb (String.eqb s "")
  | None => false
  end.

Definition or_else (a b : option string) : option string :=
  if nonempty a then a else b.

Definition or_default (a : option string) (b : string) : string :=
  match a with
  | Some s => if String.eqb s "" then b else s
  | None => b
  end.

Definition option_string_eqb (a b : option string) : bool :=
  match a, b with
  | Some s, Some t => String.eqb s t
  | None, None => true
  | _, _ => false
  end.

(** *** Element handles

    A handle on an element of a tree is the list of child indices leading
    to it from the root. *)

Definition path : Type := list nat.

Fixpoint get (e : element) (p : path) : option element :=
  match p with
  | [] => Some e
  | i :: p' =>
      match nth_error (children e) i with
      | Some c => get c p'
      | None => None
      end
  end.

Fixpoint update_nth {A : Type} (i : nat) (f : A -> A) (l : list A) : list A :=
  match l, i with
  | [], _ => []
  | a :: l', O => f a :: l'
  | a :: l', S j => a :: update_nth j f l'
  end.

Fixpoint remove_nth {A : Type} (i : nat) (l : list A) : list A :=
  match l, i with
  | [], _ => []
  | _ :: l', O => l'
  | a :: l', S j => a :: remove_nth j l'
  end.

(** Apply [f] to the element behind a handle, in place. *)
Fixpoint update_at (p : path) (f : element -> element) (e : element) : element :=
  match p with
  | [] => f e
  | i :: p' =>
      match e with
      | Element t a s cs => Element t a s (update_nth i (update_at p' f) cs)
      end
  end.

(** [parent.replaceChild(new, old)] *)
Definition replace_at (p : path) (new : element) (e : element) : element :=
  update_at p (fun _ => new) e.

(** [element.remove()] for an element below the root. *)
Fixpoint remove_at (p : path) (e : element) : element :=
  match p with
  | [] => e
  | [i] => match e with Element t a s cs => Element t a s (remove_nth i cs) end
  | i :: p' =>
      match e with
      | Element t a s cs => Element t a s (update_nth i (remove_at p') cs)
      end
  end.

(** Handles of a tree in document order, the root first. *)
Definition child_paths (f : element -> list path) : nat -> list element -> list path :=
  fix go (i : nat) (l : list element) {struct l} : list path :=
    match l with
    | [] => []
    | c :: l' => map (cons i) (f c) ++ go (S i) l'
    end.

Fixpoint paths (e : element) : list path :=
  match e with
  | Element _ _ _ cs => [] :: child_paths paths 0 cs
  end.

Definition descendants (e : element) : list path := tl (paths e).

(** Number of elements of a tree. *)
Fixpoint size (e : element) : nat :=
  match e with
  | Element _ _ _ cs => S (list_sum (map size cs))
  end.

(** *** Selectors *)

Inductive selector : Type :=
| ByType (name : string)                  (* [name] *)
| ById (id : string)                      (* [#id] *)
| ByAttr (name value : string)            (* [[name="value"]] *)
| ByTypeAttr (type attr : string)         (* [type[attr]] *)
| Either (a b : selector).                (* [a, b] *)

Fixpoint matches (s : selector) (e : element) : bool :=
  match s with
  | ByType name => String.eqb (tagName e) name
  | ById id => option_string_eqb (getAttribute "id" e) (Some id)
  | ByAttr name value => option_string_eqb (getAttribute name e) (Some value)
  | ByTypeAttr type attr => String.eqb (tagName e) type && hasAttribute attr e
  | Either a b => matches a e || matches b e
  end.

Definition matches_at (s : selector) (e : element) (p : path) : bool :=
  match get e p with
  | Some el => matches s el
  | None => false
  end.

Definition querySelectorAll (s : selector) (e : element) : list path :=
  filter (matches_at s e) (descendants e).

Definition querySelector (s : selector) (e : element) : option path :=
  head (querySelectorAll s e).

(** Selector text taken from data.  Two forms are recognised: [#ident] and
    [ident], with [ident] made of letters, digits, [-], [_] and non-ASCII
    bytes and not starting like a number; any other text is reported as the
    SyntaxError that [querySelector] raises on a malformed selector. *)
Definition is_name_start (c : ascii) : bool :=
  let n := nat_of_ascii c in
  ((65 <=? n) && (n <=? 90) || (97 <=? n) && (n <=? 122) || (n =? 95) || (128 <=? n))%nat.

Definition is_digit (c : ascii) : bool :=
  let n := nat_of_ascii c in ((48 <=? n) && (n <=? 57))%nat.

Definition is_name_char (c : ascii) : bool :=
  is_name_start c || is_digit c || Ascii.eqb c "-"%char.

Fixpoint all_chars (f : ascii -> bool) (s : string) : bool :=
  match s with
  | EmptyString => true
  | String c s' => f c && all_chars f s'
  end.

Definition is_ident (s : string) : bool :=
  match s with
  | EmptyString => false
  | String c s' =>
      if Ascii.eqb c "-"%char then
        match s' with
        | EmptyString => false
        | String c' s'' =>
            (is_name_start c' || Ascii.eqb c' "-"%char) && all_chars is_name_char s''
        end
      else is_name_start c && all_chars is_name_char s'
  end.

Definition parse_selector (s : string) : result selector :=
  match s with
  | String "#"%char id => if is_ident id then Ok (ById id) else Throw SyntaxError
  | _ => if is_ident s then Ok (ByType s) else Throw SyntaxError
  end.

(** Equality of handles. *)
Fixpoint path_eqb (p q : path) : bool :=
  match p, q with
  | [], [] => true
  | i :: p', j :: q' => Nat.eqb i j && path_eqb p' q'
  | _, _ => false
  end.

Definition mem_path (p : path) (l : list path) : bool := existsb (path_eqb p) l.

(** What an element holds apart from its children. *)
Definition own (e : element) : string * list (string * string) * list (string * string) :=
  (tagName e, attributes e, style e).

Definition own_at (e : element) (p : path) :=
  option_map own (get e p).

(** Observations of the element behind a handle. *)
Definition tag_at (e : element) (p : path) : option string :=
  option_map tagName (get e p).

Definition attr_at (name : string) (e : element) (p : path) : option (option string) :=
  option_map (getAttribute name) (get e p).



(** ** String helpers used by the export code *)

Definition strip_prefix (pre s : string) : string :=
  if String.prefix pre s then substring (String.length pre) (String.length s - String.length pre) s
  else s.

Definition ends_with (c : ascii) (s : string) : bool :=
  match String.length s with
  | O => false
  | S n => match String.get n s with Some c' => Ascii.eqb c c' | None => false end
  end.

Definition strip_last (c : ascii) (s : string) : string :=
  if ends_with c s then substring 0 (String.length s - 1) s else s.

(** [s.split(sep)] for a separator that is one character out of a class. *)
Fixpoint split (sep : ascii -> bool) (s : string) : list string :=
  match s with
  | EmptyString => [EmptyString]
  | String c s' =>
      if sep c then EmptyString :: split sep s'
      else
        match split sep s' with
        | t :: ts => String c t :: ts
        | [] => [String c EmptyString]
        end
  end.

Definition one_of (set : string) (c : ascii) : bool :=
  existsb (Ascii.eqb c) (list_ascii_of_string set).

(** [l.filter(Boolean)] on strings *)
Definition filter_nonempty (l : list string) : list string :=
  filter (fun s => negb (String.eqb s "")) l.

(** [l.slice(-n)] *)
Definition lastn {A : Type} (n : nat) (l : list A) : list A :=
  skipn (List.length l - n) l.

Definition toLowerCase (s : string) : string :=
  string_of_list_ascii
    (map (fun c =>
            let n := nat_of_ascii c in
            if ((65 <=? n) && (n <=? 90))%nat then ascii_of_nat (n + 32) else c)
         (list_ascii_of_string s)).

(** The pattern [/M\s?\d+\.?\d*,\s?\d+\.?\d*/] (ASCII white space). *)
Definition is_space (c : ascii) : bool :=
  let n := nat_of_ascii c in (((9 <=? n) && (n <=? 13)) || (n =? 32))%nat.

Definition skip_optional (f : ascii -> bool) (s : string) : string :=
  match s with
  | String c s' => if f c then s' else s
  | EmptyString => s
  end.

Fixpoint skip_while (f : ascii -> bool) (s : string) : string :=
  match s with
  | String c s' => if f c then skip_while f s' else s
  | EmptyString => s
  end.

(** [\d+\.?\d*]: the rest of [s] after the longest match, if there is one. *)
Definition skip_number (s : string) : option string :=
  match s with
  | String c s' =>
      if is_digit c
      then Some (skip_while is_digit (skip_optional (Ascii.eqb ".") (skip_while is_digit s')))
      else None
  | EmptyString => None
  end.

(** A match of the whole pattern at the start of [s]. *)
Definition match_move (s : string) : option string :=
  match s with
  | String "M" s1 =>
      match skip_number (skip_optional is_space s1) with
      | Some (String "," s2) => skip_number (skip_optional is_space s2)
      | _ => None
      end
  | _ => None
  end.

(** [s.replace(/M\s?\d+\.?\d*,\s?\d+\.?\d*/, by)]: the first match only. *)
Fixpoint replace_move (by_ : string) (s : string) : string :=
  match match_move s with
  | Some rest => by_ ++ rest
  | None =>
      match s with
      | String c s' => String c (replace_move by_ s')
      | EmptyString => EmptyString
      end
  end.

(** ** util/svg.ts *)

Inductive ExportTarget : Type := BROWSER | ILLUSTRATOR | FIGMA.

(** What the code takes from the JavaScript engine and the browser:
    binary64 arithmetic with its conversions and [Math] functions, path
    geometry, the style cascade and the transformation matrix of an element
    of a document (given by the document and the element's handle), the
    CSS parser, and serialisation.  [css_value name text] is the value that
    a declaration of the property [name] keeps when it is set to [text], or
    [None] when [text] is not a value the property takes. *)
Class Runtime : Type := {
  float : Type;
  parseFloat : string -> float;
  toString : float -> string;
  literal : Q -> float;
  not_a_number : float;
  Math_PI : float;
  fadd : float -> float -> float;
  fsub : float -> float -> float;
  fmul : float -> float -> float;
  fdiv : float -> float -> float;
  Math_cos : float -> float;
  Math_sin : float -> float;
  Math_atan2 : float -> float -> float;
  Math_sqrt : float -> float;
  Math_max : float -> float -> float;
  getTotalLength : element -> float;
  getPointAtLength : element -> float -> float * float;
  getComputedStyle : element -> path -> string -> string;
  getScreenCTM : element -> path -> float * float * float * float;
  css_value : string -> string -> option string;
  outerHTML : element -> string
}.

Fixpoint foldM {A B : Type} (f : A -> B -> result A) (l : list B) (a : A) : result A :=
  match l with
  | [] => Ok a
  | b :: l' => a' <- f a b ;; foldM f l' a'
  end.

(** *** flattenSVG *)

(** [q] is a proper prefix of [p]: the element behind [q] is an ancestor of
    the one behind [p]. *)
Fixpoint proper_prefix (q p : path) : bool :=
  match q, p with
  | [], _ :: _ => true
  | i :: q', j :: p' => Nat.eqb i j && proper_prefix q' p'
  | _, _ => false
  end.

Definition detached (replaced : list path) (p : path) : bool :=
  existsb (fun q => proper_prefix q p) replaced.

(** Copy attributes from <use> to the cloned element.  The inline style is
    the [style] attribute: declarations on the <use> element replace those
    of the clone. *)
Definition copy_style (useElement clonedElement : element) : element :=
  match style useElement, clonedElement with
  | [], _ => clonedElement
  | declarations, Element t a _ cs => Element t a declarations cs
  end.

Definition copy_attributes (useElement clonedElement : element) : element :=
  copy_style useElement
    (fold_left
       (fun cloned attr =>
          if negb (String.eqb (fst attr) "xlink:href") && negb (String.eqb (fst attr) "href")
          then setAttribute (fst attr) (snd attr) cloned
          else cloned)
       (attributes useElement) clonedElement).

(** One turn of the loop over the <use> elements.  The handles were taken
    from [svgElement0], the document as it was when the loop started; the
    loop never changes a <use> element itself, so its attributes are read
    there.  [replaced] lists the <use> elements already taken out of the
    document: replacing one of their descendants changes only a subtree
    that is no longer part of the document. *)
Definition flatten_use (svgElement0 : element) (state : element * list path) (p : path)
  : result (element * list path) :=
  let '(svgElement, replaced) := state in
  match get svgElement0 p with
  | None => Ok state
  | Some useElement =>
      let href := or_else (getAttribute "xlink:href" useElement) (getAttribute "href" useElement) in
      match href with
      | None => Ok state
      | Some href =>
          if String.eqb href "" then Ok state
          else
            sel <- parse_selector href ;;
            match querySelector sel svgElement with
            | None => Ok state
            | Some q =>
                match get svgElement q with
                | None => Ok state
                | Some originalElement =>
                    let clonedElement := copy_attributes useElement originalElement in
                    if detached replaced p then Ok state
                    else Ok (replace_at p clonedElement svgElement, p :: replaced)
                end
            end
      end
  end.

(** Flattens the SVG by replacing <use> references with actual content
    from <defs>. *)
Definition flattenSVG (svgElement : element) : result element :=
  let useElements := querySelectorAll (ByType "use") svgElement in
  state <- foldM (flatten_use svgElement) useElements (svgElement, []) ;;
  let svgElement := fst state in
  match querySelector (ByType "defs") svgElement with
  | Some defsElement => Ok (remove_at defsElement svgElement)
  | None => Ok svgElement
  end.

(** *** embedMarkers *)

Section Exporting.

Context {runtime : Runtime}.

(** [parseFloat(a)] of a string or null; null is converted to its name. *)
Definition parseFloat_of (a : option string) : float :=
  match a with
  | Some s => parseFloat s
  | None => parseFloat "null"
  end.

(** A number that may be undefined, used in arithmetic. *)
Definition to_number (a : option float) : float :=
  match a with
  | Some f => f
  | None => not_a_number
  end.

Definition trimPath (trimPixels : float) (el : element) (isEnd : bool) : result element :=
  let totalLength := getTotalLength el in
  if isEnd then
    let newEndPoint := getPointAtLength el (fsub totalLength trimPixels) in
    match getAttribute "d" el with
    | None => Throw TypeError
    | Some d =>
        (* Assuming the path ends with an absolute line command like "L x,y" *)
        Ok (setAttribute "d"
              (hd "" (split (Ascii.eqb "L") d) ++ "L " ++ toString (fst newEndPoint)
                 ++ "," ++ toString (snd newEndPoint)) el)
    end
  else
    let newStartPoint := getPointAtLength el trimPixels in
    (* Adjust the starting point of the path *)
    match getAttribute "d" el with
    | None => Throw TypeError
    | Some d =>
        Ok (setAttribute "d"
              (replace_move ("M " ++ toString (fst newStartPoint) ++ ","
                               ++ toString (snd newStartPoint)) d) el)
    end.

Definition trimLine (trimPixels : float) (el : element) (isEnd : bool) : element :=
  let x1 := parseFloat (or_default (getAttribute "x1" el) "0") in
  let y1 := parseFloat (or_default (getAttribute "y1" el) "0") in
  let x2 := parseFloat (or_default (getAttribute "x2" el) "0") in
  let y2 := parseFloat (or_default (getAttribute "y2" el) "0") in
  let angle := Math_atan2 (fsub y2 y1) (fsub x2 x1) in
  if isEnd then
    let el := setAttribute "x2" (toString (fsub x2 (fmul trimPixels (Math_cos angle)))) el in
    setAttribute "y2" (toString (fsub y2 (fmul trimPixels (Math_sin angle)))) el
  else
    let el := setAttribute "x1" (toString (fadd x1 (fmul trimPixels (Math_cos angle)))) el in
    setAttribute "y1" (toString (fadd y1 (fmul trimPixels (Math_sin angle)))) el.

(** The anchor and the angle at one end of a line, as the [case 'line'] of
    [processMarker] reads them off the element. *)
Definition line_anchor (el : element) (isEnd : bool) : float * float * float :=
  if isEnd then
    let x := parseFloat (or_default (getAttribute "x2" el) "0") in
    let y := parseFloat (or_default (getAttribute "y2" el) "0") in
    let x1 := parseFloat (or_default (getAttribute "x1" el) "0") in
    let y1 := parseFloat (or_default (getAttribute "y1" el) "0") in
    (x, y, Math_atan2 (fsub y y1) (fsub x x1))
  else
    let x := parseFloat (or_default (getAttribute "x1" el) "0") in
    let y := parseFloat (or_default (getAttribute "y1" el) "0") in
    let x2 := parseFloat (or_default (getAttribute "x2" el) "0") in
    let y2 := parseFloat (or_default (getAttribute "y2" el) "0") in
    (x, y, Math_atan2 (fsub y2 y) (fsub x2 x)).

(** The same for a path, as the [case 'path'] reads them: the last or the
    first two numbers of the path data, left undefined when there are fewer,
    and the angle 0. *)
Definition path_anchor (el : element) (isEnd : bool) : option float * option float * float :=
  let d := or_default (getAttribute "d" el) "" in
  let numbers := filter_nonempty (split (one_of " ,MLCZz") d) in
  let coords := if isEnd then lastn 2 numbers else firstn 2 numbers in
  let '(x, y) :=
    match coords with
    | [cx; cy] => (Some (parseFloat cx), Some (parseFloat cy))
    | _ => (None, None)
    end in
  (x, y, literal 0).

(** The anchor, the angle and the trimmed element computed by the [switch]
    of [processMarker]; [None] stands for its [default: return]. *)
Definition marker_geometry (trimPixels : float) (el : element) (markerPosition : string)
  : result (option (option float * option float * float * element)) :=
  let isEnd := String.eqb markerPosition "marker-end" in
  let tag := toLowerCase (tagName el) in
  if String.eqb tag "line" then
    let '(x, y, angle) := line_anchor el isEnd in
    Ok (Some (Some x, Some y, angle, trimLine trimPixels el isEnd))
  else if String.eqb tag "path" then
    let '(x, y, angle) := path_anchor el isEnd in
    (* TODO: untested *)
    el' <- trimPath trimPixels el isEnd ;;
    Ok (Some (x, y, angle, el'))
  else Ok None.

Definition glyph_transform (x y : option float) (angle : float) (marker : element)
  (markerPosition : string) : string :=
  let refX := parseFloat_of (getAttribute "refX" marker) in
  let refY := parseFloat_of (getAttribute "refY" marker) in
  let scale := literal (3 # 2) in
  let angle := if String.eqb markerPosition "marker-start" then fadd angle Math_PI else angle in
  let adjustedX :=
    fadd (fsub (to_number x) (fmul (fmul refX scale) (Math_cos angle)))
         (fmul (fmul refY scale) (Math_sin angle)) in
  let adjustedY :=
    fsub (fsub (to_number y) (fmul (fmul refX scale) (Math_sin angle)))
         (fmul (fmul refY scale) (Math_cos angle)) in
  "translate(" ++ toString adjustedX ++ "," ++ toString adjustedY ++ ") rotate("
    ++ toString (fmul angle (fdiv (literal 180) Math_PI)) ++ ") scale("
    ++ toString scale ++ ")".

(** The identifier inside [url(#id)]. *)
Definition marker_id (markerUrl : string) : string :=
  strip_last ")" (strip_prefix "url(#" markerUrl).

Definition processMarker (trimPixels : float) (markerPosition : string)
  (svgElement : element) (p : path) : result element :=
  match get svgElement p with
  | None => Ok svgElement
  | Some el =>
      let markerUrl := getAttribute markerPosition el in
      if negb (nonempty markerUrl) then Ok svgElement
      else
        let markerId := marker_id (or_default markerUrl "") in
        sel <- parse_selector ("#" ++ markerId) ;;
        let marker := querySelector sel svgElement in
        geometry <- marker_geometry trimPixels el markerPosition ;;
        match geometry with
        | None => Ok svgElement
        | Some (x, y, angle, el') =>
            let svgElement := replace_at p el' svgElement in
            match marker with
            | None => Throw TypeError
            | Some m =>
                match get svgElement m with
                | None => Throw TypeError
                | Some marker =>
                    match firstChild marker with
                    | None => Throw TypeError
                    | Some content =>
                        let clonedPath :=
                          setAttribute "transform"
                            (glyph_transform x y angle marker markerPosition) content in
                        let svgElement := appendChild clonedPath svgElement in
                        Ok (update_at p (removeAttribute markerPosition) svgElement)
                    end
                end
            end
        end
  end.

Definition marked (markerPosition : string) : selector :=
  Either (ByTypeAttr "line" markerPosition) (ByTypeAttr "path" markerPosition).

Definition embedMarkers_with (trimPixels : float) (svgElement : element) : result element :=
  let elementsWithMarkersEnd := querySelectorAll (marked "marker-end") svgElement in
  let elementsWithMarkersStart := querySelectorAll (marked "marker-start") svgElement in
  svgElement <- foldM (processMarker trimPixels "marker-end") elementsWithMarkersEnd svgElement ;;
  foldM (processMarker trimPixels "marker-start") elementsWithMarkersStart svgElement.

(** [embedMarkers(svgElement)] with the default [trimPixels = 4]. *)
Definition embedMarkers (svgElement : element) : result element :=
  embedMarkers_with (literal 4) svgElement.

(** *** createInlineStyledSvg *)

(** What setting the property [name] to [value] does to the declarations
    of an inline style: the empty string removes the declaration, text that
    the property does not take is ignored, and any other text is kept as
    the parser gives it back. *)
Definition declare (name value : string) (s : list (string * string))
  : list (string * string) :=
  if String.eqb value "" then unassign name s
  else
    match css_value name value with
    | Some parsed => assign name parsed s
    | None => s
    end.

(** [element.style.setProperty(name, value)], which is also what the
    assignment [element.style.<name> = value] runs. *)
Definition setProperty (name value : string) (e : element) : element :=
  match e with
  | Element t a s cs => Element t a (declare name value s) cs
  end.

Definition removeProperty (name : string) (e : element) : element :=
  match e with Element t a s cs => Element t a (unassign name s) cs end.

(** [element.classList.contains(name)] *)
Definition classList_contains (name : string) (e : element) : bool :=
  existsb (String.eqb name)
    (filter_nonempty (split is_space (or_default (getAttribute "class" e) ""))).

(** Computes the adjusted stroke width of an SVG element after applying its
    transformations. *)
Definition computeTransformedStrokeWidth (doc : element) (p : path) : string :=
  let '(a, b, c, d) := getScreenCTM doc p in
  let horizontalScaleFactor := Math_sqrt (fadd (fmul a a) (fmul c c)) in
  let verticalScaleFactor := Math_sqrt (fadd (fmul b b) (fmul d d)) in
  let originalStrokeWidth := parseFloat (getComputedStyle doc p "stroke-width") in
  let adjustedStrokeWidth :=
    fdiv originalStrokeWidth (Math_max horizontalScaleFactor verticalScaleFactor) in
  toString adjustedStrokeWidth ++ "px".

Definition styleAttributes : list string :=
  [ "fill"; "fill-opacity"; "opacity";
    "font"; "font-family"; "font-size";
    "stroke"; "stroke-width"; "stroke-opacity";
    "vector-effect" ].

(** [copyComputedStyles(element, parentElement)] for the element behind
    [p] in the copy [doc]; computed styles are read from the copy as it is
    at that moment. *)
Definition copyComputedStyles (target : ExportTarget) (doc : element) (p : path) : element :=
  let parent := match p with [] => None | _ => Some (removelast p) end in
  let doc :=
    fold_left
      (fun doc styleAttr =>
         let elementStyleValue := getComputedStyle doc p styleAttr in
         let parentStyleValue :=
           match parent with
           | Some q => getComputedStyle doc q styleAttr
           | None => ""
           end in
         match attr_at styleAttr doc p with
         | Some (Some _) => update_at p (setAttribute styleAttr elementStyleValue) doc
         | _ =>
             if negb (String.eqb elementStyleValue parentStyleValue)
             then update_at p (setProperty styleAttr elementStyleValue) doc
             else doc
         end)
      styleAttributes doc in
  (* Handle Illustrator and Figma specific styles. *)
  let doc :=
    if match target with ILLUSTRATOR | FIGMA => true | BROWSER => false end
       && String.eqb (getComputedStyle doc p "vector-effect") "non-scaling-stroke"
    then
      let doc := update_at p (setProperty "stroke-width" (computeTransformedStrokeWidth doc p)) doc in
      let doc := update_at p (removeAttribute "vector-effect") doc in
      update_at p (removeProperty "vector-effect") doc
    else doc in
  (* Handle Figma specific styles. *)
  if match target with FIGMA => true | _ => false end
     && match get doc p with Some el => classList_contains "mathjax" el | None => false end
  then
    update_at p
      (fun el =>
         let currentTransform := or_default (getAttribute "transform" el) "" in
         setAttribute "transform" (currentTransform ++ " scale(1.3333333333333333)") el)
      doc
  else doc.

(** Converts the computed styles of the SVG to inline styles: every
    element of the copy, in document order, each after its parent. *)
Definition createInlineStyledSvg (originalSvg : element) (target : ExportTarget) : element :=
  let copiedSvg := originalSvg in
  fold_left (copyComputedStyles target) (paths copiedSvg) copiedSvg.

(** *** bundle and download *)

(** Saves SVG content as a file: the outcome is the file handed to [saveAs]. *)
Definition saveSVG (filename data : string) : result (string * string) :=
  Ok (filename, data).

(** Bundle the SVG for export *)
Definition bundle (root : element) (target : ExportTarget) : result string :=
  let inlineSvg := createInlineStyledSvg root target in
  inlineSvg <- embedMarkers inlineSvg ;;
  inlineSvg <- flattenSVG inlineSvg ;;
  Ok (outerHTML inlineSvg).

(** Downloads the current drawing as an SVG file. *)
Definition download (root : element) (filename : string) (target : ExportTarget)
  : result (string * string) :=
  let inlineSvg := createInlineStyledSvg root target in
  inlineSvg <- embedMarkers inlineSvg ;;
  inlineSvg <- flattenSVG inlineSvg ;;
  saveSVG filename (outerHTML inlineSvg).

End Exporting.

(** *** Vocabulary for the statements about the export code *)





(** The attributes that trimming writes. *)
Definition geometry_names : list string := ["x1"; "y1"; "x2"; "y2"; "d"].

(** An edit of geometry attributes: the element keeps its name and its
    children, every other attribute, and every attribute it had. *)
Definition geometry_edit (g : element -> element) : Prop :=
  forall el,
    tagName (g el) = tagName el
    /\ children (g el) = children el
    /\ (forall n, ~ In n geometry_names -> getAttribute n (g el) = getAttribute n el)
    /\ (forall n, hasAttribute n el = true -> hasAttribute n (g el) = true).

Definition marker_position (pos : string) : Prop :=
  pos = "marker-end" \/ pos = "marker-start".












(** The export with the sequencing the specification words: flattening
    before the markers are embedded, and after. *)
Definition export_as_specified {runtime : Runtime} (root : element) (target : ExportTarget)
  : result string :=
  let inlineSvg := createInlineStyledSvg root target in
  inlineSvg <- flattenSVG inlineSvg ;;
  inlineSvg <- embedMarkers inlineSvg ;;
  inlineSvg <- flattenSVG inlineSvg ;;
  Ok (outerHTML inlineSvg).

Definition sequencing_as_specified {runtime : Runtime} : Prop :=
  forall root target, bundle root target = export_as_specified root target.

(** *** A runtime to run examples with

    Numbers are kept as the text of the expression that computes them; no
    style sheet applies, so every computed style is empty; the CSS parser
    knows a few paints, for [fill] and [stroke], and takes the text given
    for any other property as it is; serialisation writes plain markup. *)

Definition quote : string := String (ascii_of_nat 34) "".

Definition binary (op a b : string) : string := "(" ++ a ++ " " ++ op ++ " " ++ b ++ ")".
Definition call (f a : string) : string := f ++ "(" ++ a ++ ")".

Definition literal_text (q : Q) : string :=
  let n := NilZero.string_of_int (Z.to_int (Qnum q)) in
  match Qden q with
  | xH => n
  | den => n ++ "/" ++ NilZero.string_of_uint (Pos.to_uint den)
  end.

Definition pairs_text (sep1 sep2 : string) (l : list (string * string)) : string :=
  String.concat "" (map (fun kv => (fst kv ++ sep1 ++ snd kv ++ sep2)%string) l).

Fixpoint serialize (e : element) : string :=
  match e with
  | Element t a s cs =>
      "<" ++ t
      ++ String.concat ""
           (map (fun kv => (" " ++ fst kv ++ "=" ++ quote ++ snd kv ++ quote)%string) a)
      ++ match s with
         | [] => ""
         | _ => " style=" ++ quote ++ pairs_text ": " ";" s ++ quote
         end
      ++ ">" ++ String.concat "" (map serialize cs) ++ "</" ++ t ++ ">"
  end.

Definition paints : list string :=
  ["none"; "currentColor"; "black"; "white"; "red"; "green"; "blue"].

Definition parse_value (name text : string) : option string :=
  if String.eqb name "fill" || String.eqb name "stroke"
  then (if existsb (String.eqb text) paints then Some text else None)
  else Some text.

#[export] Instance symbolic : Runtime := {|
  float := string;
  parseFloat := call "parseFloat";
  toString := fun f => f;
  literal := literal_text;
  not_a_number := "NaN";
  Math_PI := "PI";
  fadd := binary "+";
  fsub := binary "-";
  fmul := binary "*";
  fdiv := binary "/";
  Math_cos := call "cos";
  Math_sin := call "sin";
  Math_atan2 := fun a b => call "atan2" (a ++ ", " ++ b);
  Math_sqrt := call "sqrt";
  Math_max := fun a b => call "max" (a ++ ", " ++ b);
  getTotalLength := fun _ => "totalLength";
  getPointAtLength := fun _ l => (call "xAtLength" l, call "yAtLength" l);
  getComputedStyle := fun _ _ _ => "";
  getScreenCTM := fun _ _ => ("a", "b", "c", "d");
  css_value := parse_value;
  outerHTML := serialize
|}.

(** A line with an arrowhead at its end, the marker kept in <defs>. *)
Definition arrow_marker : element :=
  Element "marker" [("id", "arrow"); ("refX", "0"); ("refY", "3")] []
    [Element "path" [("d", "M0,0 L0,6 L9,3 z")] [] []].

Definition arrow_drawing : element :=
  Element "svg" [] []
    [ Element "defs" [] [] [arrow_marker];
      Element "line"
        [("x1", "0"); ("y1", "0"); ("x2", "10"); ("y2", "0"); ("marker-end", "url(#arrow)")]
        [] [] ].





(** ** elements/tex.ts *)

(** How a method call ends. *)
Inductive completion : Type :=
| Returned
| Thrown (e : exn).

Definition option_nat_eqb (a b : option nat) : bool :=
  match a, b with
  | Some n, Some m => Nat.eqb n m
  | None, None => true
  | _, _ => false
  end.

(** Returns true if the subtree node is a deep match, meaning they have
    identical structure. *)
Fixpoint nodeMatches (node subtreeNode : element) {struct node} : bool :=
  match node with
  | Element nodeTag _ _ nodeChildren =>
      if negb (String.eqb nodeTag (tagName subtreeNode)) then false
      else if negb (option_string_eqb (getAttribute "data-mml-node" node)
                      (getAttribute "data-mml-node" subtreeNode)) then false
      else if hasAttribute "data-c" node
              && negb (option_string_eqb (getAttribute "data-c" node)
                         (getAttribute "data-c" subtreeNode)) then false
      else
        let subtreeChildren := children subtreeNode in
        if negb (Nat.eqb (List.length nodeChildren) (List.length subtreeChildren)) then false
        else
          (fix loop (l1 l2 : list element) {struct l1} : bool :=
             match l1, l2 with
             | c1 :: r1, c2 :: r2 => if negb (nodeMatches c1 c2) then false else loop r1 r2
             | _, _ => true
             end) nodeChildren subtreeChildren
  end.

(** The [while] loop of [traverse]: [siblings] are the current child and
    its following siblings with their handles, [nodes] the current node of
    the subtree and its following siblings, [index] the position of the
    current node among the subtree's children.  Returns [potentialMatch]
    and the position of [lastMatch] ([None] for null). *)
Fixpoint sequential (siblings : list (path * element)) (nodes : list element) (index : nat)
  (potentialMatch : list path) (lastMatch : option nat) : list path * option nat :=
  match nodes, siblings with
  | currentNode :: nodes', (handle, currentChild) :: siblings' =>
      if nodeMatches currentChild currentNode
      then sequential siblings' nodes' (S index) (potentialMatch ++ [handle]) (Some index)
      else (potentialMatch, lastMatch)
  | _, _ => (potentialMatch, lastMatch)
  end.

(** Position of [lastChild] among the children ([None] for null). *)
Definition lastChild_index (e : element) : option nat :=
  match List.length (children e) with
  | O => None
  | S n => Some n
  end.

(** The first [forEach] of [traverse], from one child onwards. *)
Fixpoint match_children (subtree : element) (siblings : list (path * element))
  : list (list path) :=
  match siblings with
  | [] => []
  | (handle, child) :: rest =>
      (* Check if the child node is a deep match *)
      (if nodeMatches child subtree then [[handle]] else [])
      (* Check to see if there is a sequential match *)
      ++ (let '(potentialMatch, lastMatch) :=
            sequential siblings (children subtree) 0 [] None in
          (* If the sequence matched all of the subtrees nodes then its a match *)
          if option_nat_eqb lastMatch (lastChild_index subtree) then [potentialMatch] else [])
      ++ match_children subtree rest
  end.

(** The children of the element behind [prefix], with their handles. *)
Definition with_handles (prefix : path) (cs : list element) : list (path * element) :=
  combine (map (fun i => prefix ++ [i]) (seq 0 (List.length cs))) cs.

Definition traverse_children (f : path -> element -> list (list path)) (prefix : path)
  : nat -> list element -> list (list path) :=
  fix go (i : nat) (l : list element) {struct l} : list (list path) :=
    match l with
    | [] => []
    | c :: l' => f (prefix ++ [i]) c ++ go (S i) l'
    end.

(** Traverses the tree looking for exact matching nodes and sequences of
    matching nodes.  [prefix] is the handle of [node]. *)
Fixpoint traverse (subtree : element) (prefix : path) (node : element) {struct node}
  : list (list path) :=
  match node with
  | Element _ _ _ cs =>
      match_children subtree (with_handles prefix cs)
      ++ traverse_children (traverse subtree) prefix 0 cs
  end.

(** [findSubtreeMatches(root, subtree)]; either argument may be null when
    it comes out of [querySelector].  [rootHandle] locates [root] in the
    rendered tree. *)
Definition findSubtreeMatches (rootHandle : path) (root subtree : option element)
  : result (list (list path)) :=
  match root with
  | None => Throw TypeError
  | Some root =>
      match subtree with
      | Some subtree => Ok (traverse subtree rootHandle root)
      | None =>
          match children root with
          | [] => Ok []
          | _ :: _ => Throw TypeError
          end
      end
  end.

(** [matches[index]] for a number [index]: the element at that position
    when [index] is an integer from 0 up to the length ([-0] reads position
    0), and undefined for any other number. *)
Definition element_at {A : Type} (l : list A) (index : num) : option A :=
  match index with
  | Fin q _ =>
      if Qeq_bool (inject_Z (Qfloor q)) q && (0 <=? Qfloor q)%Z
      then nth_error l (Z.to_nat (Qfloor q))
      else None
  | _ => None
  end.

Section TeX.

Context {runtime : Runtime}.

(** The typesetting engine: [tex2svg s] is the <svg> element that
    [MathJax.tex2svg(s, {}).firstChild] yields. *)
Variable tex2svg : string -> element.

(** The state of a label that the methods below touch. *)
Record TeX : Type := mkTeX {
  _x : num;
  _y : num;
  _scale : num;
  rendered : element
}.

(** [new TeX(s, x, y)] *)
Definition new_TeX (s : string) (x y : num) : result TeX :=
  let output := tex2svg s in
  rendered <- flattenSVG output ;;
  Ok {| _x := x; _y := y; _scale := one; rendered := rendered |}.

Definition math_node : selector := ByAttr "data-mml-node" "math".

Definition subtree_at (e : element) (p : option path) : option element :=
  match p with
  | Some p => get e p
  | None => None
  end.

(** Returns one or more collections of elements that match the provided
    tex string's structure. *)
Definition getMatchesByTex (this : TeX) (tex : string) : result (list (list path)) :=
  let output := tex2svg tex in
  matchRendered <- flattenSVG output ;;
  let tree := querySelector math_node (rendered this) in
  let match_ := querySelector math_node matchRendered in
  findSubtreeMatches (match tree with Some p => p | None => [] end)
    (subtree_at (rendered this) tree) (subtree_at matchRendered match_).

(** [nodes.forEach(node => node.style.fill = color)] *)
Definition fill_nodes (color : string) (nodes : list path) (e : element) : element :=
  fold_left (fun e node => update_at node (setProperty "fill" color) e) nodes e.

Definition with_rendered (this : TeX) (e : element) : TeX :=
  {| _x := _x this; _y := _y this; _scale := _scale this; rendered := e |}.

Definition setColorAll (this : TeX) (tex color : string) : TeX * completion :=
  match getMatchesByTex this tex with
  | Throw e => (this, Thrown e)
  | Ok matches =>
      (with_rendered this
         (fold_left (fun e matchedNodes => fill_nodes color matchedNodes e) matches
            (rendered this)),
       Returned)
  end.

(** [index] is a number: one that passes both range tests without being
    an integer (a fraction, NaN) selects nothing, and the call of [forEach]
    on undefined throws a TypeError. *)
Definition setColor (this : TeX) (tex color : string) (index : num) : TeX * completion :=
  match getMatchesByTex this tex with
  | Throw e => (this, Thrown e)
  | Ok matches =>
      let length := num_of_Z (Z.of_nat (List.length matches)) in
      if Nat.eqb (List.length matches) 0 then
        (this, Thrown (Error ("Found no match for: " ++ tex)))
      else if (index <? zero)%num || (length <=? index)%num then
        (this, Thrown (Error "Index is out of range"))
      else
        match element_at matches index with
        | Some nodes =>
            (with_rendered this (fill_nodes color nodes (rendered this)), Returned)
        | None => (this, Thrown TypeError)
        end
  end.

(** The outcome of [setColor] as the specification words it, given the
    matches for [tex]: the lookup failure without a match, the range
    failure for an index that is negative or not less than the number of
    matches, the label unchanged in both cases, and otherwise the nodes of
    one of the matches recoloured. *)
Definition setColor_as_specified (this : TeX) (tex color : string) (index : num) : Prop :=
  forall matches,
    getMatchesByTex this tex = Ok matches ->
    let length := num_of_Z (Z.of_nat (List.length matches)) in
    if Nat.eqb (List.length matches) 0 then
      setColor this tex color index
      = (this, Thrown (Error ("Found no match for: " ++ tex)))
    else if (index <? zero)%num || negb (index <? length)%num then
      setColor this tex color index = (this, Thrown (Error "Index is out of range"))
    else
      exists nodes,
        In nodes matches
        /\ setColor this tex color index
           = (with_rendered this (fill_nodes color nodes (rendered this)), Returned).

End TeX.

(** *** Vocabulary for the statements about matching *)

(** Both lists have the same length and [f] holds of each pair in order. *)
Fixpoint pairwise {A B : Type} (f : A -> B -> bool) (l1 : list A) (l2 : list B) : bool :=
  match l1, l2 with
  | [], [] => true
  | a :: r1, b :: r2 => f a b && pairwise f r1 r2
  | _, _ => false
  end.

(** The condition for a deep match as the specification words it: the
    glyph identities are compared when the candidate node specifies one. *)
Definition deep_match_as_specified (target candidate : element) : Prop :=
  tagName target = tagName candidate
  /\ getAttribute "data-mml-node" target = getAttribute "data-mml-node" candidate
  /\ (hasAttribute "data-c" candidate = true ->
      getAttribute "data-c" target = getAttribute "data-c" candidate)
  /\ Forall2 (fun c1 c2 => nodeMatches c1 c2 = true) (children target) (children candidate).

(** Handles of all the children of the element behind [p]. *)
Definition child_handles (p : path) (e : element) : list path :=
  map (fun i => p ++ [i]) (seq 0 (List.length (children e))).

(** A stand-in for the typesetting engine: one glyph per character, drawn
    by reference to a shared definition, under a [math] root. *)
Definition glyph_engine (s : string) : element :=
  let glyphs := list_ascii_of_string s in
  Element "svg" [] []
    [ Element "defs" [] []
        (map (fun c => Element "path" [("id", ("MJX-" ++ String c "")%string)] [] []) glyphs);
      Element "g" [("stroke", "currentColor")] []
        [ Element "g" [("data-mml-node", "math")] []
            (map (fun c =>
                    Element "g" [("data-mml-node", "mi")] []
                      [ Element "use" [("data-c", String c ""); ("xlink:href", ("#MJX-" ++ String c "")%string)]
                          [] [] ])
               glyphs) ] ].

(** Number of elements in a list of trees. *)
Definition sizes (l : list element) : nat := list_sum (map size l).

(** How far the [while] loop of [traverse] gets: the number of leading
    pairs of a sibling and a subtree node that deep-match. *)
Fixpoint run_length (siblings : list (path * element)) (nodes : list element) : nat :=
  match nodes, siblings with
  | currentNode :: nodes', (_, currentChild) :: siblings' =>
      if nodeMatches currentChild currentNode then S (run_length siblings' nodes') else 0
  | _, _ => 0
  end.

(** The effect of [node.style.fill = color] on what an element holds. *)
Definition filled {runtime : Runtime} (color : string)
  (o : string * list (string * string) * list (string * string)) :=
  let '(tag, attrs, st) := o in (tag, attrs, declare "fill" color st).

(** A label typeset by [glyph_engine]. *)
Definition label_of (s : string) : TeX :=
  match new_TeX glyph_engine s zero zero with
  | Ok this => this
  | Throw _ => mkTeX zero zero one (Element "svg" [] [] [])
  end.

(** The self-match property as the specification words it, for the label
    rendered from [s]: one match, whatever the expression. *)
Definition self_match_as_specified (tex2svg : string -> element) (s : string) : Prop :=
  forall x y this,
    new_TeX tex2svg s x y = Ok this ->
    exists m, getMatchesByTex tex2svg this s = Ok [m].

(** ** More of util/math.ts *)

From Stdlib Require Import Qround Zdivisibility.

(** A parameter with a default value: the default stands in for an
    argument that is left out. *)
Definition default_to {A : Type} (d : A) (a : option A) : A :=
  match a with
  | Some v => v
  | None => d
  end.

(** The integer part of a rational, rounding towards zero. *)
Definition Qtrunc (q : Q) : Z := if Qle_bool 0 q then Qfloor q else Qceiling q.

(** The remainder of the division truncated towards zero. *)
Definition Qrem (p q : Q) : Q := p - q * inject_Z (Qtrunc (p / q)).

(** [a % b]: the remainder of the division truncated towards zero, with
    the sign of the dividend.  The remainder of two binary64 values is a
    binary64 value, so this operation does not round. *)
Definition num_rem (a b : num) : num :=
  match a, b with
  | NaN, _ | _, NaN => NaN
  | Inf _, _ => NaN
  | Fin _ _, Inf _ => a
  | Fin p _, Fin q _ =>
      if Qeq_bool q 0 then NaN
      else fin (Qrem p q) (signbit a)
  end.

Infix "mod" := num_rem : num_scope.

Definition Number_isInteger (a : num) : bool :=
  match a with
  | Fin q _ => Qeq_bool (inject_Z (Qfloor q)) q
  | _ => false
  end.

(** [i <= Math.sqrt(n)].  A square root is not a rational in general, so
    the comparison is made on the squares: for [n >= 0] it holds exactly
    when [i <= 0] or [i * i <= n].  The square root of a negative number
    is NaN, which compares false. *)
Definition le_sqrt (i n : num) : bool :=
  match i, n with
  | NaN, _ | _, NaN => false
  | _, Inf true => false
  | _, Inf false => true
  | Inf s, Fin q _ => Qle_bool 0 q && s
  | Fin p _, Fin q _ => Qle_bool 0 q && (Qle_bool p 0 || Qle_bool (p * p) q)
  end.

(** Generates a linearly spaced array of numbers between a start and end
    value.  The loop runs on [fuel]: [None] stands for a loop that has not
    finished within it. *)
Fixpoint linearSpace_loop (fuel : nat) (start step num_ : num) (i : Z) (result : list num)
  : option (list num) :=
  match fuel with
  | O => None
  | S fuel =>
      if (num_of_Z i <? num_)%num
      then linearSpace_loop fuel start step num_ (i + 1)%Z
             (result ++ [(start + step * num_of_Z i)%num])
      else Some result
  end.

Definition linearSpace (fuel : nat) (start end_ num_ : num) : option (list num) :=
  let result : list num := [] in
  if (num_ === one)%num then Some (result ++ [start])
  else
    let step := ((end_ - start) / (num_ - one))%num in
    linearSpace_loop fuel start step num_ 0%Z result.

(** Returns true if the number is prime, false otherwise. *)
Fixpoint isPrime_loop (fuel : nat) (n : num) (i : Z) : option bool :=
  match fuel with
  | O => None
  | S fuel =>
      if le_sqrt (num_of_Z i) n then
        if (n mod num_of_Z i === zero)%num then Some false
        else isPrime_loop fuel n (i + 1)%Z
      else Some true
  end.

Definition isPrime (fuel : nat) (n : num) : option bool :=
  if negb (Number_isInteger n) || (n <=? one)%num then Some false
  else isPrime_loop fuel n 2%Z.

(** Returns the next prime number after the given integer. *)
Fixpoint nextPrime_loop (fuel : nat) (n : num) : option num :=
  match fuel with
  | O => None
  | S fuel =>
      let n := (n + one)%num in
      match isPrime fuel n with
      | None => None
      | Some true => Some n
      | Some false => nextPrime_loop fuel n
      end
  end.

Definition nextPrime (fuel : nat) (n : num) : option (result num) :=
  if negb (Number_isInteger n) then Some (Throw (Error "Please pass an integer as a parameter"))
  else option_map Ok (nextPrime_loop fuel n).

(** Returns a floor with a radix *)
Definition floor (n radix : num) : num := (n - n mod radix)%num.

(** *** Vocabulary for the statements about these functions *)

(** The rational value of a finite number is [q]. *)
Definition has_value (a : num) (q : Q) : Prop :=
  match a with
  | Fin p _ => p == q
  | _ => False
  end.

(** The integers [i], [i + 1], ..., [i + m - 1]. *)
Fixpoint zrange (i : Z) (m : nat) : list Z :=
  match m with
  | O => []
  | S m => i :: zrange (i + 1)%Z m
  end.

(** ** Vocabulary for the statements about findLineEndpoints *)

(** The reduction that ends [findLineEndpoints]: more than two candidates
    are sorted and the first and the last are kept. *)
Definition first_and_last (potentialEndpoints : list PointTuple) : list PointTuple :=
  if Nat.ltb 2 (List.length potentialEndpoints) then
    let sorted := sort by_x_then_y potentialEndpoints in
    [nth 0 sorted (NaN, NaN); nth (List.length sorted - 1) sorted (NaN, NaN)]
  else potentialEndpoints.

(** [p] lies on the boundary of the viewport: on the left or the right
    boundary line between the bottom and the top, or on the bottom or the
    top boundary line between the left and the right.  The boundary
    coordinates are the numbers that the code computes, [minX + width] and
    [minY + height] included. *)
Definition on_boundary (minX minY width height : num) (p : PointTuple) : Prop :=
  ((fst p = minX \/ fst p = (minX + width)%num)
   /\ (minY <=? snd p)%num = true /\ (snd p <=? minY + height)%num = true)
  \/ ((snd p = minY \/ snd p = (minY + height)%num)
      /\ (minX <=? fst p)%num = true /\ (fst p <=? minX + width)%num = true).

(** ** Colors ([hexToRGB] and [interpolateColor]) *)

From Stdlib Require HexadecimalString.

(** The value of a hexadecimal digit. *)
Definition hex_digit (c : ascii) : option Z :=
  let n := Z.of_nat (nat_of_ascii c) in
  if ((48 <=? n) && (n <=? 57))%Z then Some (n - 48)%Z
  else if ((97 <=? n) && (n <=? 102))%Z then Some (n - 87)%Z
  else if ((65 <=? n) && (n <=? 70))%Z then Some (n - 55)%Z
  else None.

(** The number written by the longest prefix of hexadecimal digits;
    [acc] is what the digits read so far amount to, [None] before the
    first. *)
Fixpoint hex_digits (s : string) (acc : option Z) : option Z :=
  match s with
  | String c s' =>
      match hex_digit c with
      | Some d => hex_digits s' (Some (16 * default_to 0%Z acc + d)%Z)
      | None => acc
      end
  | EmptyString => acc
  end.

(** [parseInt(string, 16)]: leading white space (ASCII), a sign and a
    prefix [0x] are skipped; NaN when no digit follows. *)
Definition parseInt16 (input : string) : num :=
  let trimmed := skip_while is_space input in
  let sign :=
    match trimmed with
    | String c _ => Ascii.eqb c "-"
    | EmptyString => false
    end in
  let unsigned :=
    match trimmed with
    | String c r => if Ascii.eqb c "-" || Ascii.eqb c "+" then r else trimmed
    | EmptyString => trimmed
    end in
  let digits :=
    if String.prefix "0x" unsigned || String.prefix "0X" unsigned
    then substring 2 (String.length unsigned - 2) unsigned
    else unsigned in
  match hex_digits digits None with
  | None => NaN
  | Some mathInt => if sign then num_opp (num_of_Z mathInt) else num_of_Z mathInt
  end.

(** The conversion that the bit operators apply to their operands: the
    integer part, wrapped around into 32 bits, read as signed. *)
Definition ToInt32 (a : num) : Z :=
  match a with
  | Fin q _ =>
      let k := (Qtrunc q mod 2 ^ 32)%Z in
      if (2 ^ 31 <=? k)%Z then (k - 2 ^ 32)%Z else k
  | _ => 0%Z
  end.

Definition Color : Type := list Z.

Definition hexToRGB (hex : string) : Color :=
  let rgb := parseInt16 (strip_prefix "#" hex) in
  [ Z.land (Z.shiftr (ToInt32 rgb) 16) 255;
    Z.land (Z.shiftr (ToInt32 rgb) 8) 255;
    Z.land (ToInt32 rgb) 255 ].

(** What [Math.round] returns: NaN, an infinity or an integer. *)
Inductive rounded : Type :=
| Rnan
| Rinf (neg : bool)
| Rint (z : Z).

(** [Math.round]: the nearest integer, a tie going upwards. *)
Definition Math_round (a : num) : rounded :=
  match a with
  | NaN => Rnan
  | Inf s => Rinf s
  | Fin q _ => Rint (Qfloor (q + (1 # 2)))
  end.

(** [x.toString(16)] on the result of a rounding. *)
Definition toString16 (x : rounded) : string :=
  match x with
  | Rnan => "NaN"
  | Rinf false => "Infinity"
  | Rinf true => "-Infinity"
  | Rint z => HexadecimalString.NilZero.string_of_int (Z.to_hex_int z)
  end.

(** [s.padStart(n, c)] with a filler of one character. *)
Definition padStart (n : nat) (c : ascii) (s : string) : string :=
  string_of_list_ascii (repeat c (n - String.length s)) ++ s.

(** [l.map((a, index) => f(a, index))] *)
Definition mapi {A B : Type} (f : A -> nat -> B) (l : list A) : list B :=
  map (fun ia => f (snd ia) (fst ia)) (combine (seq 0 (List.length l)) l).

(** A component of a color in arithmetic; an index outside the array
    reads [undefined], which arithmetic turns into NaN. *)
Definition component (rgb : Color) (index : nat) : num :=
  match nth_error rgb index with
  | Some c => num_of_Z c
  | None => NaN
  end.

Definition interpolateColor (color1 color2 : string) (factor : option num) : string :=
  let factor := default_to (Fin (1 # 2) false) factor in
  let rgb1 := hexToRGB color1 in
  let rgb2 := hexToRGB color2 in
  (* Calculate the interpolated color *)
  let interpolate (start end_ : num) : rounded :=
    Math_round (start + factor * (end_ - start))%num in
  let result :=
    mapi (fun component1 index => interpolate (num_of_Z component1) (component rgb2 index)) rgb1 in
  (* Convert interpolated rgb back to hex *)
  "#" ++ String.concat "" (map (fun x => padStart 2 "0" (toString16 x)) result).

(** *** Vocabulary for the statements about colors *)

Definition byte (z : Z) : Prop := (0 <= z <= 255)%Z.

(** The text [#rrggbb] of a color, as [interpolateColor] writes it. *)
Definition rgb_text (r g b : Z) : string :=
  "#" ++ String.concat "" (map (fun z => padStart 2 "0" (toString16 (Rint z))) [r; g; b]).

(** One component of the interpolated color: the rounded value at
    [factor] of the way from [start] to [end_], as the inner function
    [interpolate] computes it. *)
Definition channel (factor : num) (start end_ : Z) : rounded :=
  Math_round (num_of_Z start + factor * (num_of_Z end_ - num_of_Z start))%num.

(** The text of a color given by its rounded components. *)
Definition rounded_text (r g b : rounded) : string :=
  "#" ++ String.concat "" (map (fun x => padStart 2 "0" (toString16 x)) [r; g; b]).

(** ** Vocabulary for more statements about matching and recolouring *)

(** [m] is what the matcher is meant to report for the pattern [subtree]
    in the tree [root], whose handle is [prefix]: below some element of the
    tree, either one child that deep-matches the pattern, or the run of
    consecutive children, as many as the pattern has, that deep-match the
    pattern's children in order. *)
Definition is_match (subtree : element) (prefix : path) (root : element) (m : list path)
  : Prop :=
  let n := List.length (children subtree) in
  exists (r : path) (parent : element) (k : nat),
    get root r = Some parent
    /\ (k < List.length (children parent))%nat
    /\ ((exists c, nth_error (children parent) k = Some c
                   /\ nodeMatches c subtree = true
                   /\ m = [prefix ++ r ++ [k]])
        \/ (Forall2 (fun c s => nodeMatches c s = true)
              (firstn n (skipn k (children parent))) (children subtree)
            /\ m = map (fun j => prefix ++ r ++ [(k + j)%nat]) (seq 0 n))).

(** The handle of the child at index [i] of the element behind [prefix]. *)
Definition child_handle (prefix : path) (i : nat) : path := prefix ++ [i].

(** The tree without its inline styles. *)
Fixpoint unstyle (e : element) : element :=
  match e with
  | Element t a _ cs => Element t a [] (map unstyle cs)
  end.

Definition unstyle_sibling (sibling : path * element) : path * element :=
  (fst sibling, unstyle (snd sibling)).

(** ** More vocabulary for the export code *)

(** The names of the attributes of an element other than [style], in
    document order. *)
Definition attribute_names (e : element) : list string :=
  filter (fun n => negb (String.eqb n "style")) (map fst (attributes e)).

(** No element below the root of [e] carries the identifier [id]. *)
Definition absent (id : string) (e : element) : Prop :=
  forall q, q <> [] -> matches_at (ById id) e q = false.

(** A line whose marker reference is empty, beside a polyline with an
    arrowhead. *)
Definition unmarked_drawing : element :=
  Element "svg" [] []
    [ Element "defs" [] [] [arrow_marker];
      Element "line"
        [("x1", "0"); ("y1", "0"); ("x2", "10"); ("y2", "0"); ("marker-end", "")] [] [];
      Element "polyline" [("points", "0,0 5,5 10,0"); ("marker-end", "url(#arrow)")] [] [] ].

(** A line with an arrowhead at its start, the marker missing. *)
Definition dangling_drawing : element :=
  Element "svg" [] []
    [ Element "line"
        [("x1", "0"); ("y1", "0"); ("x2", "10"); ("y2", "0"); ("marker-start", "url(#arrow)")]
        [] [] ].

(** * Properties *)

(** ** Rounding to binary64 *)


Lemma pow2_pos (k : Z) : 0 < 2 ^ k.
Proof. apply Qpower_0_lt. reflexivity. Qed.

Lemma pow2_add (a b : Z) : 2 ^ (a + b) == 2 ^ a * 2 ^ b.
Proof. apply Qpower_plus. discriminate. Qed.

Lemma pow2_le (a b : Z) : (a <= b)%Z -> 2 ^ a <= 2 ^ b.
Proof. intros H. apply Qpower_le_compat_l; [exact H | discriminate]. Qed.

Lemma pow2_Z (k : Z) : (0 <= k)%Z -> 2 ^ k == inject_Z (2 ^ k).
Proof. intros H. rewrite Zpower_Qpower by exact H. reflexivity. Qed.

Lemma pow2_cancel (e : Z) : 2 ^ e * 2 ^ (- e) == 1.
Proof. rewrite <- pow2_add. replace (e + - e)%Z with 0%Z by lia. reflexivity. Qed.

Lemma div_pow2 (a : Q) (e : Z) : a / 2 ^ e == a * 2 ^ (- e).
Proof.
  unfold Qdiv. rewrite Qpower_opp. reflexivity.
Qed.

(** [Qlog2] is the integer part of the logarithm. *)
Lemma Qlog2_spec (a : Q) : 0 < a -> 2 ^ Qlog2 a <= a /\ a < 2 ^ (Qlog2 a + 1).
Proof.
  intros Ha. destruct a as [n d]. unfold Qlog2. cbn [Qnum Qden].
  assert (Hn : (0 < n)%Z) by (unfold Qlt in Ha; cbn in Ha; lia).
  set (ln := Z.log2 n). set (ld := Z.log2 (Zpos d)).
  assert (Hln : (2 ^ ln <= n < 2 ^ (ln + 1))%Z).
  { unfold ln. pose proof (Z.log2_spec n Hn). rewrite <- Z.add_1_r in *. lia. }
  assert (Hld : (2 ^ ld <= Zpos d < 2 ^ (ld + 1))%Z).
  { unfold ld. pose proof (Z.log2_spec (Zpos d) ltac:(lia)). rewrite <- Z.add_1_r in *. lia. }
  assert (Hln0 : (0 <= ln)%Z) by apply Z.log2_nonneg.
  assert (Hld0 : (0 <= ld)%Z) by apply Z.log2_nonneg.
  assert (Hq : n # d == inject_Z n / inject_Z (Zpos d)) by (apply Qmake_Qdiv).
  assert (Hdpos : 0 < inject_Z (Zpos d)) by reflexivity.
  (* n / d < 2 ^ (ln - ld + 1) *)
  assert (Hup : n # d < 2 ^ (ln - ld + 1)).
  { rewrite Hq. apply Qlt_shift_div_r; [exact Hdpos|].
    replace (ln - ld + 1)%Z with ((ln + 1) + - ld)%Z by lia.
    rewrite pow2_add, Qpower_opp.
    apply Qlt_le_trans with (2 ^ (ln + 1) * / 2 ^ ld * 2 ^ ld).
    - rewrite <- Qmult_assoc, (Qmult_comm (/ _)), Qmult_inv_r, Qmult_1_r
        by (apply Qnot_eq_sym, Qlt_not_eq, pow2_pos).
      rewrite pow2_Z by lia. rewrite <- Zlt_Qlt. lia.
    - apply Qmult_le_l.
      + apply Qmult_lt_0_compat; [apply pow2_pos | apply Qinv_lt_0_compat, pow2_pos].
      + rewrite pow2_Z by lia. rewrite <- Zle_Qle. lia. }
  (* 2 ^ (ln - ld - 1) <= n / d *)
  assert (Hlow : 2 ^ (ln - ld - 1) <= n # d).
  { rewrite Hq. apply Qle_shift_div_l; [exact Hdpos|].
    replace (ln - ld - 1)%Z with (ln + - (ld + 1))%Z by lia.
    rewrite pow2_add, Qpower_opp.
    apply Qle_trans with (2 ^ ln * / 2 ^ (ld + 1) * 2 ^ (ld + 1)).
    - apply Qmult_le_l.
      + apply Qmult_lt_0_compat; [apply pow2_pos | apply Qinv_lt_0_compat, pow2_pos].
      + rewrite pow2_Z by lia. rewrite <- Zle_Qle. lia.
    - rewrite <- Qmult_assoc, (Qmult_comm (/ _)), Qmult_inv_r, Qmult_1_r
        by (apply Qnot_eq_sym, Qlt_not_eq, pow2_pos).
      rewrite pow2_Z by lia. rewrite <- Zle_Qle. lia. }
  destruct (Qle_bool (2 ^ (ln - ld)) (n # d)) eqn:E.
  - apply Qle_bool_iff in E. split; [exact E | exact Hup].
  - split.
    + exact Hlow.
    + replace (ln - ld - 1 + 1)%Z with (ln - ld)%Z by lia.
      apply Qnot_le_lt. intros L. apply Qle_bool_iff in L. congruence.
Qed.

(** The logarithm of a number between two powers of two. *)
Lemma Qlog2_unique (a : Q) (k : Z) : 2 ^ k <= a -> a < 2 ^ (k + 1) -> Qlog2 a = k.
Proof.
  intros H1 H2.
  assert (Ha : 0 < a) by (eapply Qlt_le_trans; [apply (pow2_pos k) | exact H1]).
  destruct (Qlog2_spec a Ha) as [L1 L2].
  assert (A : (Qlog2 a < k + 1)%Z).
  { apply (Qpower_lt_compat_l_inv 2); [|reflexivity].
    eapply Qle_lt_trans; [exact L1 | exact H2]. }
  assert (B : (k < Qlog2 a + 1)%Z).
  { apply (Qpower_lt_compat_l_inv 2); [|reflexivity].
    eapply Qle_lt_trans; [exact H1 | exact L2]. }
  lia.
Qed.

(** Rounding to an integer stays on the same side of every integer. *)
Lemma round_half_even_le (x : Q) (n : Z) : x <= inject_Z n -> (round_half_even x <= n)%Z.
Proof.
  intros H. unfold round_half_even.
  assert (Hf : (Qfloor x <= n)%Z).
  { rewrite <- (Qfloor_Z n). apply Qfloor_resp_le. exact H. }
  destruct (Z.eq_dec (Qfloor x) n) as [E|E].
  - assert (Hx : x - inject_Z (Qfloor x) <= 0) by (rewrite E; lra).
    destruct (Qcompare_spec (x - inject_Z (Qfloor x)) (1 # 2)) as [C|C|C]; try lia; lra.
  - destruct (Qcompare (x - inject_Z (Qfloor x)) (1 # 2)); [destruct (Z.even _)| |]; lia.
Qed.

Lemma round_half_even_ge (x : Q) (n : Z) : inject_Z n <= x -> (n <= round_half_even x)%Z.
Proof.
  intros H. unfold round_half_even.
  assert (Hf : (n <= Qfloor x)%Z).
  { rewrite <- (Qfloor_Z n). apply Qfloor_resp_le. exact H. }
  destruct (Qcompare (x - inject_Z (Qfloor x)) (1 # 2)); [destruct (Z.even _)| |]; lia.
Qed.

Lemma nearest_nonneg (a : Q) : 0 < a -> 0 <= nearest a.
Proof.
  intros Ha. unfold nearest. rewrite Qred_correct.
  set (e := Z.max (Qlog2 a - 52) (-1074)).
  apply Qmult_le_0_compat; [|apply Qlt_le_weak, pow2_pos].
  change 0 with (inject_Z 0). rewrite <- Zle_Qle. apply round_half_even_ge.
  apply Qlt_le_weak, Qlt_shift_div_l; [apply pow2_pos|]. rewrite Qmult_0_l. exact Ha.
Qed.

(** Rounding does not cross an integer that binary64 holds. *)
Lemma nearest_bounds (a : Q) (lo hi : Z) :
  0 < a -> (0 <= lo)%Z -> (hi <= 2 ^ 53)%Z ->
  inject_Z lo <= a -> a <= inject_Z hi ->
  inject_Z lo <= nearest a /\ nearest a <= inject_Z hi.
Proof.
  intros Ha Hlo Hhi Hla Hah.
  destruct (Qlog2_spec a Ha) as [L1 L2].
  assert (Hlg : (Qlog2 a <= 53)%Z).
  { apply (Qpower_le_compat_l_inv 2); [|reflexivity].
    eapply Qle_trans; [exact L1|]. eapply Qle_trans; [exact Hah|].
    rewrite pow2_Z by lia. rewrite <- Zle_Qle. exact Hhi. }
  unfold nearest. rewrite Qred_correct. set (e := Z.max (Qlog2 a - 52) (-1074)).
  assert (He : (e <= 1)%Z) by lia.
  destruct (Z_le_gt_dec e 0) as [He0|He1].
  - (* the integers are multiples of the unit in the last place *)
    assert (Hscale : forall n : Z, inject_Z n / 2 ^ e == inject_Z (n * 2 ^ (- e))).
    { intros n. rewrite div_pow2, inject_Z_mult, (pow2_Z (- e)) by lia. reflexivity. }
    assert (Hback : forall n : Z, inject_Z (n * 2 ^ (- e)) * 2 ^ e == inject_Z n).
    { intros n. rewrite inject_Z_mult, <- (pow2_Z (- e)) by lia.
      rewrite <- Qmult_assoc, (Qmult_comm (2 ^ (- e))), pow2_cancel. ring. }
    split.
    + rewrite <- (Hback lo). apply Qmult_le_compat_r; [|apply Qlt_le_weak, pow2_pos].
      rewrite <- Zle_Qle. apply round_half_even_ge. rewrite <- Hscale.
      apply Qmult_le_compat_r; [exact Hla | apply Qlt_le_weak, Qinv_lt_0_compat, pow2_pos].
    + rewrite <- (Hback hi). apply Qmult_le_compat_r; [|apply Qlt_le_weak, pow2_pos].
      rewrite <- Zle_Qle. apply round_half_even_le. rewrite <- Hscale.
      apply Qmult_le_compat_r; [exact Hah | apply Qlt_le_weak, Qinv_lt_0_compat, pow2_pos].
  - (* only 2^53 itself is left *)
    assert (E : e = 1%Z) by lia. rewrite E in *.
    assert (Hlg53 : Qlog2 a = 53%Z) by lia.
    rewrite Hlg53 in L1.
    assert (H53 : 2 ^ 53 == inject_Z (2 ^ 53)) by (apply pow2_Z; lia).
    assert (Hhi53 : hi = (2 ^ 53)%Z).
    { apply Z.le_antisymm; [exact Hhi|]. rewrite Zle_Qle, <- H53. lra. }
    subst hi.
    assert (Hx : a / 2 ^ 1 == inject_Z (2 ^ 52)).
    { assert (Ea : a == inject_Z (2 ^ 53)) by lra. rewrite Ea. reflexivity. }
    assert (Hm : round_half_even (a / 2 ^ 1) = (2 ^ 52)%Z).
    { apply Z.le_antisymm; [apply round_half_even_le | apply round_half_even_ge]; lra. }
    rewrite Hm.
    assert (Hv : inject_Z (2 ^ 52) * 2 ^ 1 == inject_Z (2 ^ 53)) by reflexivity.
    rewrite Hv. split; lra.
Qed.

Lemma Qneg_bool_true (q : Q) : Qneg_bool q = true <-> q < 0.
Proof.
  unfold Qneg_bool. rewrite negb_true_iff. split.
  - intros H. apply Qnot_le_lt. intros L. apply Qle_bool_iff in L. congruence.
  - intros H. destruct (Qle_bool 0 q) eqn:E; [|reflexivity].
    apply Qle_bool_iff in E. lra.
Qed.

Lemma Qneg_bool_false (q : Q) : Qneg_bool q = false <-> 0 <= q.
Proof.
  unfold Qneg_bool. rewrite negb_false_iff. apply Qle_bool_iff.
Qed.

(** The rounded result of an exact result between two integers that
    binary64 holds is finite and lies between them. *)
Lemma round64_bounds (q : Q) (zsign : bool) (lo hi : Z) :
  (- 2 ^ 53 <= lo)%Z -> (hi <= 2 ^ 53)%Z ->
  inject_Z lo <= q -> q <= inject_Z hi ->
  exists v s, round64 q zsign = Fin v s /\ inject_Z lo <= v /\ v <= inject_Z hi.
Proof.
  intros Hlo Hhi Hlq Hqh. unfold round64.
  destruct (Qeq_bool q 0) eqn:E0.
  - apply Qeq_bool_iff in E0. exists 0, zsign. split; [reflexivity|]. split; lra.
  - assert (Hq0 : ~ q == 0) by (intros H; apply Qeq_bool_iff in H; congruence).
    assert (H53 : inject_Z (2 ^ 53) < 2 ^ 1024).
    { rewrite (pow2_Z 1024) by lia. rewrite <- Zlt_Qlt. reflexivity. }
    destruct (Qneg_bool q) eqn:En.
    + apply Qneg_bool_true in En.
      assert (Ha : Qabs q == - q) by (apply Qabs_neg; lra).
      destruct (nearest_bounds (Qabs q) (Z.max (- hi) 0) (- lo)) as [B1 B2]; try lia.
      * rewrite Ha. lra.
      * rewrite Ha. destruct (Z.max_spec (- hi) 0) as [[_ ->]|[_ ->]].
        -- change (inject_Z 0) with 0. lra.
        -- rewrite inject_Z_opp. lra.
      * rewrite Ha, inject_Z_opp. lra.
      * assert (Hov : Qle_bool (2 ^ 1024) (nearest (Qabs q)) = false).
        { apply not_true_iff_false. rewrite Qle_bool_iff. intros L.
          rewrite inject_Z_opp in B2.
          assert (- inject_Z lo <= inject_Z (2 ^ 53))
            by (rewrite <- inject_Z_opp, <- Zle_Qle; lia).
          lra. }
        rewrite Hov. exists (- nearest (Qabs q)), true. split; [reflexivity|].
        rewrite inject_Z_opp in B2.
        assert (inject_Z (Z.max (- hi) 0) >= - inject_Z hi).
        { rewrite <- inject_Z_opp, <- Zle_Qle. lia. }
        split; lra.
    + apply Qneg_bool_false in En.
      assert (Hpos : 0 < q).
      { apply Qnot_le_lt. intros L. apply Hq0. lra. }
      assert (Ha : Qabs q == q) by (apply Qabs_pos; lra).
      destruct (nearest_bounds (Qabs q) (Z.max lo 0) hi) as [B1 B2]; try lia.
      * rewrite Ha. exact Hpos.
      * rewrite Ha. destruct (Z.max_spec lo 0) as [[_ ->]|[_ ->]].
        -- change (inject_Z 0) with 0. lra.
        -- exact Hlq.
      * rewrite Ha. exact Hqh.
      * assert (Hov : Qle_bool (2 ^ 1024) (nearest (Qabs q)) = false).
        { apply not_true_iff_false. rewrite Qle_bool_iff. intros L.
          assert (inject_Z hi <= inject_Z (2 ^ 53)) by (rewrite <- Zle_Qle; lia).
          lra. }
        rewrite Hov. exists (nearest (Qabs q)), false. split; [reflexivity|].
        assert (inject_Z lo <= inject_Z (Z.max lo 0)) by (rewrite <- Zle_Qle; lia).
        split; lra.
Qed.

(** An integer that binary64 holds is the result it is rounded to. *)
Lemma round64_exact (q : Q) (zsign : bool) (z : Z) :
  q == inject_Z z -> (- 2 ^ 53 <= z <= 2 ^ 53)%Z ->
  exists v s, round64 q zsign = Fin v s /\ v == q.
Proof.
  intros Hq Hz.
  destruct (round64_bounds q zsign z z) as (v & s & E & B1 & B2); try lia; try lra.
  exists v, s. split; [exact E | lra].
Qed.

(** Rounding yields no NaN, and keeps the sign of the exact result. *)
Lemma round64_cases (q : Q) (zsign : bool) :
  (exists v s, round64 q zsign = Fin v s /\ (0 <= q -> 0 <= v) /\ (q <= 0 -> v <= 0))
  \/ (round64 q zsign = Inf (Qneg_bool q) /\ ~ q == 0).
Proof.
  unfold round64. destruct (Qeq_bool q 0) eqn:E0.
  - left. exists 0, zsign. split; [reflexivity|]. split; intros; lra.
  - assert (Hq0 : ~ q == 0) by (intros H; apply Qeq_bool_iff in H; congruence).
    destruct (Qle_bool (2 ^ 1024) (nearest (Qabs q))); [right; split; [reflexivity|exact Hq0]|].
    left.
    assert (Hn : 0 <= nearest (Qabs q)).
    { apply nearest_nonneg.
      destruct (Qlt_le_dec q 0) as [L|L].
      - rewrite Qabs_neg by lra. lra.
      - rewrite Qabs_pos by exact L. apply Qnot_le_lt. intros L'. apply Hq0. lra. }
    destruct (Qneg_bool q) eqn:En.
    + apply Qneg_bool_true in En. eexists _, _. split; [reflexivity|]. split; intros; lra.
    + apply Qneg_bool_false in En. eexists _, _. split; [reflexivity|]. split; intros; lra.
Qed.

(** Rounding looks at the value of a rational, not at the fraction that
    stands for it. *)
Lemma Qlog2_comp (a b : Q) : 0 < a -> a == b -> Qlog2 a = Qlog2 b.
Proof.
  intros Ha E. destruct (Qlog2_spec a Ha) as [H1 H2].
  symmetry. apply Qlog2_unique; rewrite <- E; assumption.
Qed.

Lemma round_half_even_comp (x y : Q) : x == y -> round_half_even x = round_half_even y.
Proof.
  intros E. unfold round_half_even. rewrite (Qfloor_comp _ _ E).
  assert (Ec : Qcompare (x - inject_Z (Qfloor y)) (1 # 2)
               = Qcompare (y - inject_Z (Qfloor y)) (1 # 2)).
  { apply Qcompare_comp; [rewrite E|]; reflexivity. }
  rewrite Ec. reflexivity.
Qed.

Lemma nearest_comp (a b : Q) : 0 < a -> a == b -> nearest a = nearest b.
Proof.
  intros Ha E. unfold nearest. rewrite (Qlog2_comp a b Ha E).
  set (e := Z.max (Qlog2 b - 52) (-1074)).
  rewrite (round_half_even_comp (a / 2 ^ e) (b / 2 ^ e)); [reflexivity|].
  rewrite E. reflexivity.
Qed.

Lemma round64_comp (p q : Q) (zsign : bool) : p == q -> round64 p zsign = round64 q zsign.
Proof.
  intros E. unfold round64.
  assert (E0 : Qeq_bool p 0 = Qeq_bool q 0).
  { destruct (Qeq_bool p 0) eqn:Hp, (Qeq_bool q 0) eqn:Hq; try reflexivity.
    - apply Qeq_bool_iff in Hp. apply Qeq_bool_neq in Hq. exfalso. apply Hq.
      rewrite <- E. exact Hp.
    - apply Qeq_bool_iff in Hq. apply Qeq_bool_neq in Hp. exfalso. apply Hp.
      rewrite E. exact Hq. }
  rewrite E0. destruct (Qeq_bool q 0) eqn:Hq; [reflexivity|].
  assert (En : Qneg_bool p = Qneg_bool q).
  { destruct (Qneg_bool p) eqn:Hp, (Qneg_bool q) eqn:Hn; try reflexivity.
    - apply Qneg_bool_true in Hp. apply Qneg_bool_false in Hn. lra.
    - apply Qneg_bool_false in Hp. apply Qneg_bool_true in Hn. lra. }
  assert (Epos : 0 < Qabs p).
  { apply Qeq_bool_neq in Hq.
    destruct (Qlt_le_dec p 0) as [H|H].
    - rewrite Qabs_neg by lra. lra.
    - rewrite Qabs_pos by exact H.
      destruct (Qeq_dec p 0) as [H0|H0]; [|lra].
      exfalso. apply Hq. rewrite <- E. exact H0. }
  rewrite (nearest_comp (Qabs p) (Qabs q) Epos) by (rewrite E; reflexivity).
  rewrite En. reflexivity.
Qed.
(** ** Numbers *)

Lemma Qeq_bool_false (a b : Q) : Qeq_bool a b = false -> ~ a == b.
Proof. intros H E. apply Qeq_bool_iff in E. congruence. Qed.

Lemma Qle_bool_false (a b : Q) : Qle_bool a b = false -> b < a.
Proof.
  intros H. apply Qnot_le_lt. intros L. apply Qle_bool_iff in L. congruence.
Qed.

Ltac Qcases :=
  repeat match goal with
  | H : Qeq_bool _ _ = true |- _ => apply Qeq_bool_iff in H
  | H : Qeq_bool _ _ = false |- _ => apply Qeq_bool_false in H
  | H : Qle_bool _ _ = true |- _ => apply Qle_bool_iff in H
  | H : Qle_bool _ _ = false |- _ => apply Qle_bool_false in H
  end.

Lemma num_lt_fin (p q : Q) (zp zq : bool) :
  (Fin p zp <? Fin q zq)%num = negb (Qle_bool q p).
Proof. reflexivity. Qed.

Lemma Qfloor_unique (x : Q) (k : Z) :
  inject_Z k <= x -> x < inject_Z k + 1 -> Qfloor x = k.
Proof.
  intros H1 H2.
  pose proof (Qfloor_le x) as F1. pose proof (Qlt_floor x) as F2.
  rewrite inject_Z_plus in F2. change (inject_Z 1) with 1 in F2.
  assert (L1 : inject_Z k < inject_Z (Qfloor x) + 1) by lra.
  assert (L2 : inject_Z (Qfloor x) < inject_Z k + 1) by lra.
  change 1 with (inject_Z 1) in L1, L2. rewrite <- inject_Z_plus in L1, L2.
  rewrite <- Zlt_Qlt in L1, L2. lia.
Qed.

(** An operation on finite values rounds the exact result; the sign that
    a zero result takes is left existential. *)

Lemma num_add_round (p q : Q) (zp zq : bool) :
  exists z, (Fin p zp + Fin q zq)%num = round64 (p + q) z.
Proof. eexists. reflexivity. Qed.

Lemma num_sub_round (p q : Q) (zp zq : bool) :
  exists z, (Fin p zp - Fin q zq)%num = round64 (p - q) z.
Proof. eexists. reflexivity. Qed.

Lemma num_mul_round (p q : Q) (zp zq : bool) :
  exists z, (Fin p zp * Fin q zq)%num = round64 (p * q) z.
Proof. eexists. reflexivity. Qed.

Lemma num_div_round (p q : Q) (zp zq : bool) :
  ~ q == 0 -> exists z, (Fin p zp / Fin q zq)%num = round64 (p / q) z.
Proof.
  intros Hq. unfold num_div.
  destruct (Qeq_bool q 0) eqn:E.
  - apply Qeq_bool_iff in E. contradiction.
  - eexists. reflexivity.
Qed.

Lemma num_div_by_zero (p q : Q) (zp zq : bool) :
  q == 0 -> ~ p == 0 -> exists s, (Fin p zp / Fin q zq)%num = Inf s.
Proof.
  intros Hq Hp. unfold num_div.
  apply Qeq_bool_iff in Hq. rewrite Hq.
  destruct (Qeq_bool p 0) eqn:E.
  - apply Qeq_bool_iff in E. contradiction.
  - eexists. reflexivity.
Qed.

Lemma num_zero_div_zero (p q : Q) (zp zq : bool) :
  q == 0 -> p == 0 -> (Fin p zp / Fin q zq)%num = NaN.
Proof.
  intros Hq Hp. unfold num_div.
  apply Qeq_bool_iff in Hq, Hp. rewrite Hq, Hp. reflexivity.
Qed.

(** A zero result is a zero, and no rounding takes place on integers of
    at most 53 bits. *)

Lemma round64_zero (q : Q) (zs : bool) : q == 0 -> round64 q zs = Fin 0 zs.
Proof. intros H. unfold round64. apply Qeq_bool_iff in H. rewrite H. reflexivity. Qed.

Lemma positive_fin (v : Q) (s : bool) : positive (Fin v s) = negb (Qle_bool v 0).
Proof. reflexivity. Qed.

(** Rounding does not change the side of zero on which a result lies. *)
Lemma positive_round64 (q : Q) (zs : bool) : positive (round64 q zs) = true -> 0 < q.
Proof.
  destruct (round64_cases q zs) as [(v & s & E & _ & Hneg)|[E Hq]]; rewrite E.
  - rewrite positive_fin. intros H. apply negb_true_iff, Qle_bool_false in H.
    apply Qnot_le_lt. intros Hq. specialize (Hneg Hq). lra.
  - destruct (Qneg_bool q) eqn:N; [discriminate|]. intros _.
    apply Qneg_bool_false in N. apply Qnot_le_lt. intros L. apply Hq. lra.
Qed.

Lemma num_sub_same (p q : Q) (zp zq : bool) :
  p == q -> exists z, (Fin p zp - Fin q zq)%num = Fin 0 z.
Proof.
  intros H. destruct (num_sub_round p q zp zq) as [z E]. exists z.
  rewrite E. apply round64_zero. lra.
Qed.

Lemma num_mul_zero_l (p q : Q) (zp zq : bool) :
  p == 0 -> exists z, (Fin p zp * Fin q zq)%num = Fin 0 z.
Proof.
  intros H. destruct (num_mul_round p q zp zq) as [z E]. exists z.
  rewrite E. apply round64_zero. rewrite H. ring.
Qed.

Lemma num_zero_div (p q : Q) (zp zq : bool) :
  p == 0 -> ~ q == 0 -> exists z, (Fin p zp / Fin q zq)%num = Fin 0 z.
Proof.
  intros Hp Hq. destruct (num_div_round p q zp zq Hq) as [z E]. exists z.
  rewrite E. apply round64_zero. rewrite Hp. field. exact Hq.
Qed.

(** *** Integers of at most 53 bits

    On them the arithmetic is exact: a sum, a difference, a product or an
    exact quotient that stays within [-2^53, 2^53] is not rounded. *)

Lemma has_value_round64 (q : Q) (zs : bool) (z : Z) :
  q == inject_Z z -> (- 2 ^ 53 <= z <= 2 ^ 53)%Z -> has_value (round64 q zs) (inject_Z z).
Proof.
  intros Hq Hz. destruct (round64_exact q zs z Hq Hz) as (v & s & E & Hv).
  rewrite E. cbn [has_value]. rewrite Hv. exact Hq.
Qed.

Lemma num_add_int (a b : num) (m n : Z) :
  has_value a (inject_Z m) -> has_value b (inject_Z n) ->
  (- 2 ^ 53 <= m + n <= 2 ^ 53)%Z ->
  has_value (a + b)%num (inject_Z (m + n)).
Proof.
  destruct a as [| |p zp]; try contradiction. destruct b as [| |q zq]; try contradiction.
  cbn [has_value]. intros Hp Hq Hz.
  destruct (num_add_round p q zp zq) as [z E]. rewrite E.
  apply has_value_round64; [|exact Hz]. rewrite Hp, Hq, inject_Z_plus. reflexivity.
Qed.

Lemma num_sub_int (a b : num) (m n : Z) :
  has_value a (inject_Z m) -> has_value b (inject_Z n) ->
  (- 2 ^ 53 <= m - n <= 2 ^ 53)%Z ->
  has_value (a - b)%num (inject_Z (m - n)).
Proof.
  destruct a as [| |p zp]; try contradiction. destruct b as [| |q zq]; try contradiction.
  cbn [has_value]. intros Hp Hq Hz.
  destruct (num_sub_round p q zp zq) as [z E]. rewrite E.
  apply has_value_round64; [|exact Hz].
  rewrite Hp, Hq. unfold Z.sub. rewrite inject_Z_plus, inject_Z_opp. reflexivity.
Qed.

Lemma num_mul_int (a b : num) (m n : Z) :
  has_value a (inject_Z m) -> has_value b (inject_Z n) ->
  (- 2 ^ 53 <= m * n <= 2 ^ 53)%Z ->
  has_value (a * b)%num (inject_Z (m * n)).
Proof.
  destruct a as [| |p zp]; try contradiction. destruct b as [| |q zq]; try contradiction.
  cbn [has_value]. intros Hp Hq Hz.
  destruct (num_mul_round p q zp zq) as [z E]. rewrite E.
  apply has_value_round64; [|exact Hz]. rewrite Hp, Hq, inject_Z_mult. reflexivity.
Qed.

Lemma inject_Z_inj (a b : Z) : inject_Z a == inject_Z b -> a = b.
Proof. unfold Qeq. cbn. lia. Qed.

Lemma inject_Z_nonzero (k : Z) : k <> 0%Z -> ~ inject_Z k == 0.
Proof. intros Hk E. apply Hk. apply inject_Z_inj. exact E. Qed.


Lemma has_value_fin (q : Q) (z : bool) : has_value (fin q z) q.
Proof. unfold fin. cbn. reflexivity. Qed.

Lemma has_value_of_Z (k : Z) : has_value (num_of_Z k) (inject_Z k).
Proof. apply has_value_fin. Qed.

(** ** pointWhereTwoLinesIntersect *)


(** Nor need the result be finite: on the line through [(0,1)] and
    [(2^53, 2^53 + 2)] the difference of the ordinates, [2^53 + 1], rounds
    to [2^53], so its slope is 1 as well, and the difference of the
    intercepts, 2, is divided by zero. *)
Example intersect_not_finite :
  pointWhereTwoLinesIntersect (mkPoint zero zero) (mkPoint one one)
    (mkPoint zero one)
    (mkPoint (num_of_Z (2 ^ 53)) (num_of_Z (2 ^ 53 + 2)))
  = mkPoint Infinity Infinity.
Proof. vm_compute. reflexivity. Qed.

(** Where no step rounds, the result is the intersection: a slanted line
    and a vertical one. *)
Example intersect_with_vertical :
  pointWhereTwoLinesIntersect (mkPoint zero zero) (mkPoint one one)
    (mkPoint (num_of_Z 3) zero) (mkPoint (num_of_Z 3) one)
  = mkPoint (num_of_Z 3) (num_of_Z 3).
Proof. vm_compute. reflexivity. Qed.

(** ** factorial *)

(** C10.  Called as a plain function ([this] undefined), [factorial]
    returns 1 for every [n < 1] and throws a TypeError, instead of returning
    [n!], for every [n >= 1]. *)
Theorem factorial_plain_call (n : num) :
  ((n <? one)%num = true -> factorial None n = Ok one) /\
  ((one <=? n)%num = true -> factorial None n = Throw TypeError).
Proof.
  unfold factorial. split; intros H.
  - rewrite H. reflexivity.
  - assert (E : (n <? one)%num = false).
    { unfold num_lt. destruct n; try discriminate H; unfold one, num_of_Z, num_of_Q, fin in *.
      + rewrite H. reflexivity.
      + rewrite H. reflexivity. }
    rewrite E. reflexivity.
Qed.

Lemma factorial_plain_call_witness :
  factorial None zero = Ok one /\ factorial None (num_of_Z 3) = Throw TypeError.
Proof.
  split.
  - apply (proj1 (factorial_plain_call zero)). reflexivity.
  - apply (proj2 (factorial_plain_call (num_of_Z 3))). reflexivity.
Defined.

(** The base case does not look at the receiver. *)
Lemma factorial_base (this : option receiver) (n : num) :
  (n <? one)%num = true -> factorial this n = Ok one.
Proof. intros H. unfold factorial. rewrite H. reflexivity. Qed.

(** Through a receiver that does carry the function (a call
    [math.factorial(4)] on the module namespace) the recursion goes through. *)
Example factorial_through_namespace :
  factorial (Some (namespace 8)) (num_of_Z 4) = Ok (Fin 24 false).
Proof. vm_compute. reflexivity. Qed.

(** ** findLineEndpoints *)

(** When the direction is horizontal the slope is a zero, and dividing a
    number by it leaves the range of every finite interval. *)
Lemma div_by_zero_out_of_range (p q lo hi : Q) (zp zq zl zh : bool) :
  q == 0 ->
  ((Fin lo zl <=? Fin p zp / Fin q zq) && (Fin p zp / Fin q zq <=? Fin hi zh))%num = false.
Proof.
  intros Hq. destruct (Qeq_dec p 0) as [Hp|Hp].
  - rewrite (num_zero_div_zero p q zp zq Hq Hp). reflexivity.
  - destruct (num_div_by_zero p q zp zq Hq Hp) as [s E]. rewrite E.
    destruct s; reflexivity.
Qed.

Lemma inf_out_of_range (s : bool) (lo hi : Q) (zl zh : bool) :
  ((Fin lo zl <=? Inf s) && (Inf s <=? Fin hi zh))%num = false.
Proof. destruct s; reflexivity. Qed.

Lemma tuple_eq_fin (ax ay bx by_ : Q) (za wa zb wb : bool) :
  ax == bx -> ay == by_ -> tuple_eq (Fin ax za, Fin ay wa) (Fin bx zb, Fin by_ wb) = true.
Proof.
  intros H1 H2. unfold tuple_eq; cbn.
  apply Qeq_bool_iff in H1, H2. rewrite H1, H2. reflexivity.
Qed.

(** Candidates on the x axis are ordered by their first coordinates. *)
Lemma by_x_then_y_on_axis (a b ya yb : Q) (za zb wa wb : bool) :
  ya == 0 -> yb == 0 ->
  positive (by_x_then_y (Fin a za, Fin ya wa) (Fin b zb, Fin yb wb))
  = positive (Fin a za - Fin b zb)%num.
Proof.
  intros Ha Hb. unfold by_x_then_y; cbn [fst snd].
  destruct (num_sub_same ya yb wa wb) as [z Ez]; [lra|]. rewrite Ez.
  unfold num_or.
  destruct (Fin a za - Fin b zb)%num as [| |d zd] eqn:Ed; cbn [truthy]; try reflexivity.
  destruct (Qeq_bool d 0) eqn:E0; cbn [negb]; [|reflexivity].
  rewrite !positive_fin. apply Qeq_bool_iff in E0.
  assert (L1 : Qle_bool d 0 = true) by (apply Qle_bool_iff; lra).
  rewrite L1. reflexivity.
Qed.

Lemma not_positive_sub_same (a : Q) (za zb : bool) :
  positive (Fin a za - Fin a zb)%num = false.
Proof.
  destruct (num_sub_same a a za zb) as [z E]; [reflexivity|]. rewrite E. reflexivity.
Qed.

Lemma positive_sub (a b : Q) (za zb : bool) :
  positive (Fin a za - Fin b zb)%num = true -> b < a.
Proof.
  destruct (num_sub_round a b za zb) as [z E]. rewrite E. intros H.
  apply positive_round64 in H. lra.
Qed.

(** C7, as the code has it.  For a horizontal direction ([y = 0],
    [x <> 0]) and a finite viewport whose right-hand boundary
    [minX + width] is finite, [findLineEndpoints] returns exactly two
    points, and they are [(minX, 0)] and [(minX + width, 0)] (compared with
    [===]): in this order, except that a viewport whose right-hand boundary
    lies left of [minX], crossed by the x axis, yields them in the opposite
    order. *)
Theorem findLineEndpoints_horizontal (v : Point) (minX minY width height : num) :
  isFinite (x v) = true -> isFinite (y v) = true ->
  isFinite minX = true -> isFinite minY = true ->
  isFinite width = true -> isFinite height = true ->
  isFinite (minX + width)%num = true ->
  (y v === zero)%num = true -> (x v === zero)%num = false ->
  exists a b,
    findLineEndpoints v minX minY width height = [a; b] /\
    if mirrored minX minY width height
    then tuple_eq a ((minX + width)%num, zero) = true /\ tuple_eq b (minX, zero) = true
    else tuple_eq a (minX, zero) = true /\ tuple_eq b ((minX + width)%num, zero) = true.
Proof.
  destruct v as [[| |vx zx] [| |vy zy]]; cbn [x y isFinite]; try discriminate.
  destruct minX as [| |mx zmx], minY as [| |my zmy]; cbn [isFinite]; try discriminate.
  destruct width as [| |w zw], height as [| |h zh]; cbn [isFinite]; try discriminate.
  intros _ _ _ _ _ _ Hfin Hy Hx.
  unfold findLineEndpoints, mirrored; cbv zeta; cbn [x y].
  rewrite Hy, Hx; cbn [negb].
  destruct (Fin mx zmx + Fin w zw)%num as [| |s zs] eqn:Es; try discriminate Hfin.
  clear Hfin Es.
  unfold strict_eq, zero, num_of_Z, num_of_Q, fin in Hy, Hx.
  change (inject_Z 0) with 0 in *.
  Qcases.
  destruct (num_zero_div vy vx zy zx Hy Hx) as [z0 E0]. rewrite !E0.
  cbn [strict_eq Infinity negb].
  destruct (num_mul_zero_l 0 mx z0 zmx) as [zl El]; [reflexivity|]. rewrite !El.
  destruct (num_mul_zero_l 0 s z0 zs) as [zr Er]; [reflexivity|]. rewrite !Er.
  rewrite div_by_zero_out_of_range by reflexivity.
  assert (Htop : forall T,
             T = (Fin my zmy + Fin h zh)%num ->
             ((Fin mx zmx <=? T / Fin 0 z0) && (T / Fin 0 z0 <=? Fin s zs))%num = false).
  { intros T ET.
    destruct (num_add_round my h zmy zh) as [zt Et].
    destruct T as [| |t st].
    - reflexivity.
    - cbn [num_div]. apply inf_out_of_range.
    - apply div_by_zero_out_of_range. reflexivity. }
  rewrite (Htop _ eq_refl). clear Htop.
  set (T := (Fin my zmy + Fin h zh)%num).
  assert (Hc : forall z, ((Fin my zmy <=? Fin 0 z) && (Fin 0 z <=? T))%num
                         = ((Fin my zmy <=? zero) && (zero <=? T))%num).
  { intros z. destruct T; reflexivity. }
  rewrite !Hc. clear Hc.
  destruct ((Fin my zmy <=? zero) && (zero <=? T))%num eqn:Hcross.
  - (* the x axis crosses the viewport: four candidates *)
    apply andb_prop in Hcross. destruct Hcross as [Hc1 Hc2]. rewrite Hc1, Hc2.
    rewrite !andb_true_r.
    change zero with (Fin 0 false).
    unfold push_if; cbn [app List.length Nat.ltb Nat.leb].
    unfold sort; cbn [fold_right sort_insert].
    assert (HLR := positive_sub mx s zmx zs).
    assert (HRL := positive_sub s mx zs zmx).
    repeat (rewrite ?by_x_then_y_on_axis, ?not_positive_sub_same by reflexivity;
            cbn [sort_insert]).
    destruct (positive (Fin mx zmx - Fin s zs)%num) eqn:PLR;
      destruct (positive (Fin s zs - Fin mx zmx)%num) eqn:PRL;
      cbn [sort_insert];
      repeat (rewrite ?by_x_then_y_on_axis, ?not_positive_sub_same, ?PLR, ?PRL by reflexivity;
              cbn [sort_insert]);
      cbn [nth List.length Nat.sub];
      try (exfalso; specialize (HLR eq_refl); specialize (HRL eq_refl); lra);
      (eexists; eexists; split; [reflexivity|]);
      split; apply tuple_eq_fin; reflexivity.
  - (* it does not: the two points on the axis *)
    assert (Hm : (positive (Fin mx zmx - Fin s zs)
                  && (Fin my zmy <=? zero) && (zero <=? T))%num = false).
    { rewrite <- andb_assoc, Hcross. apply andb_false_r. }
    rewrite Hm.
    change zero with (Fin 0 false).
    unfold push_if; cbn [app List.length Nat.ltb Nat.leb].
    eexists; eexists; split; [reflexivity|].
    split; apply tuple_eq_fin; reflexivity.
Qed.

Lemma findLineEndpoints_horizontal_witness :
  exists a b,
    findLineEndpoints (mkPoint (num_of_Z 3) zero)
      (num_of_Z (-5)) (num_of_Z (-2)) (num_of_Z 10) (num_of_Z 4) = [a; b] /\
    tuple_eq a (num_of_Z (-5), zero) = true /\
    tuple_eq b ((num_of_Z (-5) + num_of_Z 10)%num, zero) = true.
Proof.
  apply (findLineEndpoints_horizontal (mkPoint (num_of_Z 3) zero)
           (num_of_Z (-5)) (num_of_Z (-2)) (num_of_Z 10) (num_of_Z 4));
    vm_compute; reflexivity.
Defined.

(** The sum [minX + width] of a finite viewport can overflow: the right
    boundary is then [Infinity], the product of the zero slope with it is
    NaN, and the points that the function returns are not the two that the
    specification names. *)
Lemma horizontal_overflow_counterexample :
  let big := binary64 (inject_Z (10 ^ 308)) in
  isFinite big = true
  /\ findLineEndpoints (mkPoint one zero) big one big one
     = [(big, zero); (Infinity, num_of_Z 2)]
  /\ ~ horizontal_endpoints_as_specified (mkPoint one zero) big one big one.
Proof.
  cbv zeta. split; [vm_compute; reflexivity|].
  assert (E : findLineEndpoints (mkPoint one zero) (binary64 (inject_Z (10 ^ 308))) one
                (binary64 (inject_Z (10 ^ 308))) one
              = [(binary64 (inject_Z (10 ^ 308)), zero); (Infinity, num_of_Z 2)])
    by (vm_compute; reflexivity).
  split; [exact E|].
  intros (a & b & Eab & H). rewrite E in Eab. injection Eab as <- <-.
  destruct H as [[_ H]|[_ H]]; vm_compute in H; discriminate H.
Qed.

(** The viewport of the default coordinate system in the other direction:
    a negative width with the x axis inside gives the right boundary first. *)
Example findLineEndpoints_mirrored :
  findLineEndpoints (mkPoint (num_of_Z 3) zero)
    (num_of_Z 5) (num_of_Z (-2)) (num_of_Z (-10)) (num_of_Z 4)
  = [(Fin (-5) true, Fin 0 true); (Fin 5 false, Fin 0 false)].
Proof. vm_compute. reflexivity. Qed.

(** ** Elements *)

(** Induction on elements, with the hypothesis available for every child. *)
Lemma element_induction (P : element -> Prop) :
  (forall t a s cs, Forall P cs -> P (Element t a s cs)) ->
  forall e, P e.
Proof.
  intros step. fix IH 1. intros [t a s cs]. apply step.
  induction cs as [|c cs IHcs]; constructor.
  - apply IH.
  - exact IHcs.
Qed.

Lemma option_string_eqb_eq (a b : option string) :
  option_string_eqb a b = true <-> a = b.
Proof.
  destruct a as [s|], b as [t|]; cbn; split; intros H; try congruence.
  - apply String.eqb_eq in H. congruence.
  - injection H as ->. apply String.eqb_refl.
Qed.

Lemma pairwise_Forall2 {A B : Type} (f : A -> B -> bool) (l1 : list A) (l2 : list B) :
  pairwise f l1 l2 = true <-> Forall2 (fun a b => f a b = true) l1 l2.
Proof.
  revert l2. induction l1 as [|a l1 IH]; intros [|b l2]; cbn; split; intros H;
    try discriminate; try constructor; try (inversion H; fail).
  - apply andb_prop in H. tauto.
  - apply andb_prop in H. apply IH. tauto.
  - inversion H; subst. apply andb_true_intro. split; [assumption | apply IH; assumption].
Qed.


(** ** Handles *)

Lemma path_eqb_eq (p q : path) : path_eqb p q = true <-> p = q.
Proof.
  revert q. induction p as [|i p IH]; intros [|j q]; cbn; split; intros H;
    try reflexivity; try discriminate.
  - apply andb_prop in H. destruct H as [H1 H2].
    apply Nat.eqb_eq in H1. apply IH in H2. congruence.
  - injection H as -> ->. rewrite Nat.eqb_refl. apply IH. reflexivity.
Qed.

Lemma path_eqb_refl (p : path) : path_eqb p p = true.
Proof. apply path_eqb_eq. reflexivity. Qed.

Lemma mem_path_In (p : path) (l : list path) : mem_path p l = true <-> In p l.
Proof.
  unfold mem_path. rewrite existsb_exists. split.
  - intros (q & Hin & E). apply path_eqb_eq in E. subst. exact Hin.
  - intros Hin. exists p. split; [exact Hin | apply path_eqb_refl].
Qed.

Lemma nth_error_update_nth {A : Type} (f : A -> A) (l : list A) :
  forall i j,
    nth_error (update_nth i f l) j =
      if Nat.eqb i j then option_map f (nth_error l j) else nth_error l j.
Proof.
  induction l as [|a l IH]; intros [|i] [|j]; cbn; try reflexivity.
  - destruct (Nat.eqb i j); reflexivity.
  - apply IH.
Qed.


(** Editing an element in place, without touching its children, is seen
    behind that element's handle and nowhere else. *)
Lemma own_at_update_at (f : element -> element) :
  (forall x, children (f x) = children x) ->
  forall p e q,
    own_at (update_at p f e) q =
      if path_eqb p q then option_map (fun x => own (f x)) (get e q) else own_at e q.
Proof.
  intros Hf. unfold own_at.
  induction p as [|i p IH]; intros e q.
  - destruct q as [|j q]; cbn.
    + reflexivity.
    + rewrite Hf. reflexivity.
  - destruct e as [t a s cs]. destruct q as [|j q]; cbn [update_at get path_eqb children].
    + reflexivity.
    + rewrite nth_error_update_nth.
      destruct (Nat.eqb i j) eqn:E; cbn [andb].
      * destruct (nth_error cs j) as [c|]; cbn [option_map]; [apply IH|].
        destruct (path_eqb p q); reflexivity.
      * reflexivity.
Qed.

(** It leaves the shape of the tree as it was. *)
Lemma paths_child_paths_ext (f g : element -> list path) (cs : list element) :
  Forall (fun c => f c = g c) cs ->
  forall i, child_paths f i cs = child_paths g i cs.
Proof.
  induction 1 as [|c cs Hc _ IH]; intros i; cbn; [reflexivity|].
  rewrite Hc, IH. reflexivity.
Qed.

Lemma paths_update_at (f : element -> element) :
  (forall x, children (f x) = children x) ->
  forall p e, paths (update_at p f e) = paths e.
Proof.
  intros Hf. induction p as [|i p IH]; intros e.
  - cbn. specialize (Hf e). destruct (f e), e. cbn in Hf. subst. reflexivity.
  - destruct e as [t a s cs]. cbn [update_at paths]. f_equal.
    generalize 0%nat as k. revert i.
    induction cs as [|c cs IHcs]; intros [|i] k; cbn; try reflexivity.
    + rewrite IH. reflexivity.
    + rewrite IHcs. reflexivity.
Qed.

Lemma head_filter_true {A : Type} (f : A -> bool) (l : list A) (a : A) :
  head (filter f l) = Some a -> f a = true /\ In a l.
Proof.
  induction l as [|b l IH]; cbn; [discriminate|].
  destruct (f b) eqn:E; cbn.
  - intros H. injection H as <-. auto.
  - intros H. destruct (IH H). auto.
Qed.

(** What [querySelector] returns is a handle on an element that matches. *)
Lemma querySelector_get (s : selector) (e : element) (p : path) :
  querySelector s e = Some p ->
  exists el, get e p = Some el /\ matches s el = true.
Proof.
  unfold querySelector, querySelectorAll. intros H.
  apply head_filter_true in H. destruct H as [H _].
  unfold matches_at in H. destruct (get e p) as [el|]; [eauto | discriminate].
Qed.

(** ** More on handles and in-place edits *)

Lemma get_update_at_same (f : element -> element) (p : path) :
  forall e, get (update_at p f e) p = option_map f (get e p).
Proof.
  induction p as [|i p IH]; intros e; [reflexivity|].
  destruct e as [t a s cs]. cbn [update_at get children].
  rewrite nth_error_update_nth, Nat.eqb_refl.
  destruct (nth_error cs i) as [c|]; cbn [option_map]; [apply IH | reflexivity].
Qed.

(** Replacing an element by an edited copy of itself is editing it. *)
Lemma replace_at_edit (f : element -> element) (p : path) :
  forall e el, get e p = Some el -> replace_at p (f el) e = update_at p f e.
Proof.
  unfold replace_at.
  induction p as [|i p IH]; intros e el Hget.
  - cbn in *. injection Hget as ->. reflexivity.
  - destruct e as [t a s cs]. cbn [update_at get children] in *. f_equal.
    revert i Hget. induction cs as [|c cs IHcs]; intros [|i] Hget; cbn in *;
      try reflexivity; try discriminate.
    + f_equal. apply IH. exact Hget.
    + f_equal. apply IHcs. exact Hget.
Qed.




(** Appending a child to the root leaves every other element in place. *)
Lemma get_appendChild (g e : element) (q : path) :
  q <> [] -> get e q <> None -> get (appendChild g e) q = get e q.
Proof.
  destruct e as [t a s cs]. destruct q as [|j q]; [contradiction|].
  intros _ H. cbn [appendChild get children] in *.
  destruct (nth_error cs j) as [c|] eqn:Ec; [|contradiction].
  rewrite nth_error_app1 by (apply nth_error_Some; congruence).
  rewrite Ec. reflexivity.
Qed.

Lemma get_appendChild_new (g e : element) :
  get (appendChild g e) [List.length (children e)] = Some g.
Proof.
  destruct e as [t a s cs]. cbn [appendChild get children].
  rewrite nth_error_app2, Nat.sub_diag by lia. reflexivity.
Qed.


(** *** Document order *)

Lemma child_paths_app (f : element -> list path) (l1 l2 : list element) :
  forall i,
    child_paths f i (l1 ++ l2) = child_paths f i l1 ++ child_paths f (i + List.length l1) l2.
Proof.
  induction l1 as [|c l1 IH]; intros i; cbn.
  - rewrite Nat.add_0_r. reflexivity.
  - rewrite IH, <- app_assoc.
    replace (S i + List.length l1)%nat with (i + S (List.length l1))%nat by lia.
    reflexivity.
Qed.


Lemma descendants_appendChild (g e : element) :
  descendants (appendChild g e)
  = descendants e ++ map (cons (List.length (children e))) (paths g).
Proof.
  destruct e as [t a s cs]. unfold descendants. cbn [appendChild paths tl children].
  rewrite child_paths_app. cbn. rewrite app_nil_r. reflexivity.
Qed.

Lemma child_paths_In (f : element -> list path) (cs : list element) :
  forall i p, In p (child_paths f i cs) ->
    exists j c q, p = (i + j)%nat :: q /\ nth_error cs j = Some c /\ In q (f c).
Proof.
  induction cs as [|c cs IH]; intros i p Hin; cbn in Hin; [contradiction|].
  apply in_app_or in Hin. destruct Hin as [Hin|Hin].
  - apply in_map_iff in Hin. destruct Hin as (q & <- & Hq).
    exists 0%nat, c, q. rewrite Nat.add_0_r. auto.
  - destruct (IH _ _ Hin) as (j & c' & q & -> & Hnth & Hq).
    exists (S j), c', q. repeat split; try assumption. f_equal. lia.
Qed.

(** Every listed handle leads to an element. *)
Lemma paths_valid (e : element) : forall p, In p (paths e) -> get e p <> None.
Proof.
  induction e as [t a s cs IH] using element_induction.
  intros p [<-|Hin]; cbn [paths get]; [discriminate|].
  apply child_paths_In in Hin. destruct Hin as (j & c & q & -> & Hnth & Hq).
  cbn [get children Nat.add]. rewrite Hnth.
  rewrite Forall_forall in IH. apply IH; [eapply nth_error_In; exact Hnth | exact Hq].
Qed.

Lemma descendants_valid (e : element) (p : path) :
  In p (descendants e) -> p <> [] /\ get e p <> None.
Proof.
  intros Hin. split.
  - destruct e as [t a s cs]. unfold descendants in Hin. cbn [paths tl] in Hin.
    apply child_paths_In in Hin. destruct Hin as (j & c & q & -> & _). discriminate.
  - apply paths_valid. destruct e as [t a s cs]. right. exact Hin.
Qed.

Lemma NoDup_map_cons (i : nat) (l : list path) : NoDup l -> NoDup (map (cons i) l).
Proof.
  induction 1 as [|p l Hp _ IH]; cbn; constructor; [|exact IH].
  intros Hin. apply in_map_iff in Hin. destruct Hin as (q & E & Hq).
  injection E as ->. contradiction.
Qed.

Lemma child_paths_NoDup (f : element -> list path) (cs : list element) :
  Forall (fun c => NoDup (f c)) cs ->
  forall i, NoDup (child_paths f i cs).
Proof.
  induction 1 as [|c cs Hc _ IH]; intros i; cbn; [constructor|].
  apply NoDup_app.
  - apply NoDup_map_cons. exact Hc.
  - apply IH.
  - intros p Hp Hq.
    apply in_map_iff in Hp. destruct Hp as (q & <- & _).
    apply child_paths_In in Hq. destruct Hq as (j & c' & q' & E & _).
    injection E as E _. lia.
Qed.

(** No handle is listed twice. *)
Lemma paths_NoDup (e : element) : NoDup (paths e).
Proof.
  induction e as [t a s cs IH] using element_induction.
  cbn [paths]. constructor.
  - intros Hin. apply child_paths_In in Hin. destruct Hin as (j & c & q & E & _). discriminate.
  - apply child_paths_NoDup. exact IH.
Qed.

Lemma querySelectorAll_NoDup (s : selector) (e : element) : NoDup (querySelectorAll s e).
Proof.
  unfold querySelectorAll, descendants. apply NoDup_filter.
  pose proof (paths_NoDup e) as H. destruct (paths e); [constructor|].
  inversion H; assumption.
Qed.

Lemma querySelectorAll_In (s : selector) (e : element) (p : path) :
  In p (querySelectorAll s e) ->
  p <> [] /\ exists el, get e p = Some el /\ matches s el = true.
Proof.
  unfold querySelectorAll. intros Hin. apply filter_In in Hin. destruct Hin as [Hin Hm].
  apply descendants_valid in Hin. split; [tauto|].
  unfold matches_at in Hm. destruct (get e p) as [el|]; [eauto | discriminate].
Qed.

Lemma child_paths_intro (f : element -> list path) (cs : list element) :
  forall i j c q,
    nth_error cs j = Some c -> In q (f c) -> In ((i + j)%nat :: q) (child_paths f i cs).
Proof.
  induction cs as [|c0 cs IH]; intros i [|j] c q Hnth Hq; cbn in *; try discriminate.
  - injection Hnth as ->. apply in_or_app. left.
    rewrite Nat.add_0_r. apply in_map. exact Hq.
  - apply in_or_app. right.
    replace (i + S j)%nat with (S i + j)%nat by lia. eapply IH; eassumption.
Qed.

(** Every element is listed. *)
Lemma paths_complete (p : path) : forall e, get e p <> None -> In p (paths e).
Proof.
  induction p as [|i p IH]; intros [t a s cs] Hget; cbn [paths].
  - left. reflexivity.
  - right. cbn [get children] in Hget.
    destruct (nth_error cs i) as [c|] eqn:Ec; [|contradiction].
    apply (child_paths_intro paths cs 0 i c p Ec). apply IH. exact Hget.
Qed.

Lemma querySelectorAll_complete (s : selector) (e : element) (p : path) (el : element) :
  p <> [] -> get e p = Some el -> matches s el = true -> In p (querySelectorAll s e).
Proof.
  intros Hp Hget Hm. unfold querySelectorAll. apply filter_In. split.
  - pose proof (paths_complete p e) as H. rewrite Hget in H.
    specialize (H ltac:(discriminate)).
    destruct e as [t a st cs]. cbn [paths] in H. destruct H as [H|H]; [congruence|].
    exact H.
  - unfold matches_at. rewrite Hget. exact Hm.
Qed.

Lemma get_child (e : element) (j : nat) : get e [j] = nth_error (children e) j.
Proof. cbn [get]. destruct (nth_error (children e) j); reflexivity. Qed.

(** *** An edit seen from another handle *)


Lemma get_app (p r : path) :
  forall e, get e (p ++ r) = match get e p with Some x => get x r | None => None end.
Proof.
  induction p as [|i p IH]; intros e; cbn [app get]; [reflexivity|].
  destruct (nth_error (children e) i); [apply IH | reflexivity].
Qed.





Lemma firstChild_get (e : element) : firstChild e = get e [0%nat].
Proof.
  unfold firstChild. cbn [get]. destruct (children e) as [|c cs]; reflexivity.
Qed.



(** *** Predicates that hold everywhere *)







(** ** nodeMatches *)

(** The body of [nodeMatches] as one boolean expression. *)
Lemma nodeMatches_unfold (node subtreeNode : element) :
  nodeMatches node subtreeNode =
    String.eqb (tagName node) (tagName subtreeNode)
    && option_string_eqb (getAttribute "data-mml-node" node)
         (getAttribute "data-mml-node" subtreeNode)
    && negb (hasAttribute "data-c" node
             && negb (option_string_eqb (getAttribute "data-c" node)
                        (getAttribute "data-c" subtreeNode)))
    && pairwise nodeMatches (children node) (children subtreeNode).
Proof.
  destruct node as [t a s cs]. cbn [nodeMatches tagName children].
  destruct (String.eqb t (tagName subtreeNode)); cbn [negb andb]; [|reflexivity].
  destruct (option_string_eqb _ _); cbn [negb andb]; [|reflexivity].
  destruct (hasAttribute "data-c" (Element t a s cs) && _); cbn [negb andb]; [reflexivity|].
  generalize (children subtreeNode) as l2.
  intros l2. destruct (Nat.eqb (List.length cs) (List.length l2)) eqn:Hlen; cbn [negb].
  - revert l2 Hlen. induction cs as [|c cs IH]; intros [|c2 l2] Hlen; cbn in *;
      try reflexivity; try discriminate.
    destruct (nodeMatches c c2); cbn [negb andb]; [apply IH; exact Hlen | reflexivity].
  - revert l2 Hlen. induction cs as [|c cs IH]; intros [|c2 l2] Hlen; cbn in *;
      try reflexivity; try discriminate.
    rewrite <- (IH l2 Hlen). symmetry. apply andb_false_r.
Qed.

(** When [nodeMatches] answers true. *)
Lemma nodeMatches_true_iff (node subtreeNode : element) :
  nodeMatches node subtreeNode = true <->
    tagName node = tagName subtreeNode
    /\ getAttribute "data-mml-node" node = getAttribute "data-mml-node" subtreeNode
    /\ (hasAttribute "data-c" node = true ->
        getAttribute "data-c" node = getAttribute "data-c" subtreeNode)
    /\ Forall2 (fun c1 c2 => nodeMatches c1 c2 = true) (children node) (children subtreeNode).
Proof.
  rewrite nodeMatches_unfold, !andb_true_iff, negb_true_iff, String.eqb_eq,
    option_string_eqb_eq, pairwise_Forall2.
  split.
  - intros [[[Ht Hk] Hc] Hcs]. repeat split; try assumption.
    intros Hhas. rewrite Hhas in Hc. cbn in Hc.
    apply negb_false_iff in Hc. apply option_string_eqb_eq. exact Hc.
  - intros (Ht & Hk & Hc & Hcs). repeat split; try assumption.
    destruct (hasAttribute "data-c" node); [|reflexivity].
    cbn. apply negb_false_iff, option_string_eqb_eq, Hc. reflexivity.
Qed.

(** C2, as the code has it.  A target node and a candidate node deep-match
    exactly when their element names and their [data-mml-node] kinds are
    equal, their [data-c] glyph identities are equal whenever the TARGET
    node carries one (the comparison is made exactly when the target node
    has the attribute), and they have equally many children, deep-matching
    pairwise in order. *)
Theorem nodeMatches_iff (node subtreeNode : element) :
  nodeMatches node subtreeNode = true <->
    tagName node = tagName subtreeNode
    /\ getAttribute "data-mml-node" node = getAttribute "data-mml-node" subtreeNode
    /\ (hasAttribute "data-c" node = true ->
        getAttribute "data-c" node = getAttribute "data-c" subtreeNode)
    /\ Forall2 (fun c1 c2 => nodeMatches c1 c2 = true) (children node) (children subtreeNode).
Proof. exact (nodeMatches_true_iff node subtreeNode). Qed.

Lemma nodeMatches_iff_witness :
  nodeMatches (Element "g" [("data-mml-node", "mi")] [] [Element "path" [("data-c", "78")] [] []])
    (Element "g" [("data-mml-node", "mi")] [] [Element "path" [("data-c", "78")] [] []]) = true.
Proof.
  apply (proj2 (nodeMatches_iff _ _)). repeat split.
  repeat constructor.
Defined.

(** The specification's wording gates the comparison on the candidate
    instead.  A target without [data-c] matches a candidate that has one,
    which that wording excludes. *)
Lemma deep_match_gate_counterexample :
  let target := Element "g" [("data-mml-node", "mi")] [] [] in
  let candidate := Element "g" [("data-mml-node", "mi"); ("data-c", "78")] [] [] in
  ~ (nodeMatches target candidate = true <-> deep_match_as_specified target candidate).
Proof.
  intros target candidate [H _].
  destruct (H eq_refl) as (_ & _ & Hc & _).
  specialize (Hc eq_refl). discriminate Hc.
Qed.

(** Conversely a target that has one does not match a candidate without,
    which that wording admits. *)
Example deep_match_gate_converse :
  let target := Element "path" [("data-c", "78")] [] [] in
  let candidate := Element "path" [] [] [] in
  nodeMatches target candidate = false /\ deep_match_as_specified target candidate.
Proof.
  split; [reflexivity|]. repeat split; try constructor. intros H. discriminate H.
Qed.

Lemma nodeMatches_refl (e : element) : nodeMatches e e = true.
Proof.
  induction e as [t a s cs IH] using element_induction.
  apply nodeMatches_true_iff. cbn. repeat split.
  induction IH; constructor; assumption.
Qed.

(** Deep-matching trees have the same number of elements. *)
Lemma nodeMatches_size (a : element) :
  forall b, nodeMatches a b = true -> size a = size b.
Proof.
  induction a as [t at_ s cs IH] using element_induction.
  intros [t' a' s' cs'] H. apply nodeMatches_true_iff in H.
  destruct H as (_ & _ & _ & H). cbn in *. f_equal.
  revert cs' H. induction IH as [|c cs Hc _ IHcs]; intros cs' H; inversion H; subst; cbn.
  - reflexivity.
  - f_equal; [apply Hc; assumption | apply IHcs; assumption].
Qed.

Lemma size_positive (e : element) : (1 <= size e)%nat.
Proof. destruct e. cbn. lia. Qed.

Lemma sizes_cons (c : element) (l : list element) :
  sizes (c :: l) = (size c + sizes l)%nat.
Proof. reflexivity. Qed.

Lemma sizes_firstn (n : nat) (l : list element) : (sizes (firstn n l) <= sizes l)%nat.
Proof.
  revert n.
  induction l as [|c l IH]; intros [|n]; cbn [firstn]; rewrite ?sizes_cons;
    try (unfold sizes; cbn; lia).
  pose proof (IH n). lia.
Qed.

(** ** The sequential scan *)

Lemma sequential_run (nodes : list element) :
  forall siblings index potentialMatch lastMatch,
    sequential siblings nodes index potentialMatch lastMatch =
      (potentialMatch ++ map fst (firstn (run_length siblings nodes) siblings),
       match run_length siblings nodes with
       | O => lastMatch
       | S k => Some (index + k)%nat
       end).
Proof.
  induction nodes as [|n nodes IH]; intros [|[h c] siblings] index pm lm; cbn;
    try (rewrite app_nil_r; reflexivity).
  destruct (nodeMatches c n); cbn.
  - rewrite IH, <- app_assoc. cbn. f_equal.
    destruct (run_length siblings nodes); f_equal; lia.
  - rewrite app_nil_r. reflexivity.
Qed.

Lemma run_length_le (nodes : list element) :
  forall siblings, (run_length siblings nodes <= List.length nodes)%nat.
Proof.
  induction nodes as [|n nodes IH]; intros [|[h c] siblings]; cbn; try lia.
  destruct (nodeMatches c n); [specialize (IH siblings)|]; lia.
Qed.

(** A run that consumes every subtree node covers as many elements as the
    subtree's children hold. *)
Lemma run_length_full_sizes (nodes : list element) :
  forall siblings,
    run_length siblings nodes = List.length nodes ->
    sizes (firstn (List.length nodes) (map snd siblings)) = sizes nodes.
Proof.
  induction nodes as [|n nodes IH]; intros [|[h c] siblings];
    cbn [run_length List.length firstn map snd]; try reflexivity; try discriminate.
  destruct (nodeMatches c n) eqn:E; [|discriminate].
  intros H. injection H as H.
  rewrite !sizes_cons, (IH _ H), (nodeMatches_size _ _ E). reflexivity.
Qed.

Lemma run_length_self (handles : list path) (cs : list element) :
  List.length handles = List.length cs ->
  run_length (combine handles cs) cs = List.length cs.
Proof.
  revert handles. induction cs as [|c cs IH]; intros [|h handles] H; cbn in *;
    try reflexivity; try discriminate.
  rewrite nodeMatches_refl. f_equal. apply IH. lia.
Qed.

Lemma map_snd_combine {A B : Type} (l1 : list A) (l2 : list B) :
  List.length l1 = List.length l2 -> map snd (combine l1 l2) = l2.
Proof.
  revert l2. induction l1 as [|a l1 IH]; intros [|b l2] H; cbn in *;
    try reflexivity; try discriminate.
  f_equal. apply IH. lia.
Qed.

Lemma map_fst_combine {A B : Type} (l1 : list A) (l2 : list B) :
  List.length l1 = List.length l2 -> map fst (combine l1 l2) = l1.
Proof.
  revert l2. induction l1 as [|a l1 IH]; intros [|b l2] H; cbn in *;
    try reflexivity; try discriminate.
  f_equal. apply IH. lia.
Qed.

(** ** Matching a tree against itself *)

(** Siblings that together hold fewer elements than the subtree's children
    yield no match, neither deep nor sequential. *)
Lemma match_children_small (subtree : element) (siblings : list (path * element)) :
  children subtree <> [] ->
  (sizes (map snd siblings) < sizes (children subtree))%nat ->
  match_children subtree siblings = [].
Proof.
  intros Hne. induction siblings as [|[h c] siblings IH]; intros Hlt; [reflexivity|].
  cbn [match_children].
  cbn [map snd] in Hlt. rewrite sizes_cons in Hlt.
  pose proof (size_positive c) as Hpos.
  destruct (nodeMatches c subtree) eqn:Edeep.
  { apply nodeMatches_size in Edeep. destruct subtree as [t a s cs].
    cbn [children] in Hlt. cbn [size] in Edeep. fold (sizes cs) in Edeep. lia. }
  rewrite sequential_run. cbn [app].
  pose proof (run_length_le (children subtree) ((h, c) :: siblings)) as Hle.
  pose proof (run_length_full_sizes (children subtree) ((h, c) :: siblings)) as Hfull.
  pose proof (sizes_firstn (List.length (children subtree)) (map snd ((h, c) :: siblings)))
    as Hfirst.
  cbn [map snd] in Hfull, Hfirst. rewrite sizes_cons in Hfirst.
  assert (Hrun : run_length ((h, c) :: siblings) (children subtree)
                 <> List.length (children subtree)).
  { intros E. specialize (Hfull E). lia. }
  unfold lastChild_index.
  destruct (children subtree) as [|c0 cs0] eqn:Ecs; [contradiction|].
  cbn [List.length] in *.
  destruct (run_length ((h, c) :: siblings) (c0 :: cs0)) as [|k] eqn:Erun; cbn [option_nat_eqb].
  - apply IH. lia.
  - replace (Nat.eqb (0 + k) (List.length cs0)) with false
      by (symmetry; apply Nat.eqb_neq; lia).
    apply IH. lia.
Qed.

Lemma traverse_children_nil (f : path -> element -> list (list path)) (prefix : path)
  (cs : list element) :
  Forall (fun c => forall p, f p c = []) cs ->
  forall i, traverse_children f prefix i cs = [].
Proof.
  induction 1 as [|c cs Hc _ IH]; intros i; cbn; [reflexivity|].
  rewrite Hc, IH. reflexivity.
Qed.

Lemma with_handles_snd (prefix : path) (cs : list element) :
  map snd (with_handles prefix cs) = cs.
Proof.
  unfold with_handles. apply map_snd_combine. rewrite length_map, length_seq. reflexivity.
Qed.

Lemma Forall_size_le (cs : list element) :
  Forall (fun c => (size c <= sizes cs)%nat) cs.
Proof.
  induction cs as [|c cs IH]; constructor; rewrite ?sizes_cons; [lia|].
  eapply Forall_impl; [|exact IH]. intros c' Hc'. cbn beta in *. lia.
Qed.

(** Below a node that holds fewer elements than the subtree there is no
    match at all. *)
Lemma traverse_small (subtree : element) :
  children subtree <> [] ->
  forall node prefix,
    (size node <= sizes (children subtree))%nat ->
    traverse subtree prefix node = [].
Proof.
  intros Hne node. induction node as [t a s cs IH] using element_induction.
  intros prefix Hsize. cbn [traverse]. cbn [size] in Hsize. fold (sizes cs) in Hsize.
  rewrite match_children_small; [|exact Hne|rewrite with_handles_snd; lia].
  cbn [app]. apply traverse_children_nil.
  pose proof (Forall_size_le cs) as Hle.
  rewrite Forall_forall in *. intros c Hin p. apply IH; [exact Hin|].
  specialize (Hle c Hin). lia.
Qed.

(** Matching a tree with at least one child under its root against itself
    gives one match: the run of all the root's children. *)
Lemma traverse_self (t : element) (prefix : path) :
  children t <> [] ->
  traverse t prefix t = [child_handles prefix t].
Proof.
  intros Hne. destruct t as [tag a s cs]. cbn [children] in Hne.
  cbn [traverse].
  rewrite (traverse_children_nil (traverse (Element tag a s cs)) prefix cs), app_nil_r.
  2:{ pose proof (Forall_size_le cs) as Hle. rewrite Forall_forall in *.
      intros c Hin p. apply traverse_small; [exact Hne|]. cbn. apply Hle, Hin. }
  destruct cs as [|c0 cs'] eqn:Ecs; [contradiction|]. rewrite <- Ecs in *.
  assert (Hwh : exists h rest, with_handles prefix cs = (h, c0) :: rest
                               /\ map snd rest = cs').
  { pose proof (with_handles_snd prefix cs) as Hs. rewrite Ecs in *.
    unfold with_handles in *. cbn in *. injection Hs as Hs. eauto. }
  destruct Hwh as (h & rest & Hwh & Hrest).
  rewrite Hwh. cbn [match_children]. rewrite <- Hwh.
  destruct (nodeMatches c0 (Element tag a s cs)) eqn:Edeep.
  { apply nodeMatches_size in Edeep. rewrite Ecs in Edeep. cbn in Edeep. lia. }
  rewrite sequential_run. cbn [children app].
  unfold with_handles at 1 2 3.
  rewrite run_length_self by (rewrite length_map, length_seq; reflexivity).
  fold (with_handles prefix cs).
  unfold lastChild_index. cbn [children].
  assert (Hlen : List.length cs = S (List.length cs')) by (rewrite Ecs; reflexivity).
  rewrite Hlen at 1 2. cbn [option_nat_eqb Nat.add]. rewrite Nat.eqb_refl.
  rewrite match_children_small.
  - cbn [app]. f_equal. unfold child_handles. cbn [children].
    rewrite firstn_all2.
    + unfold with_handles. apply map_fst_combine. rewrite length_map, length_seq. reflexivity.
    + unfold with_handles. rewrite length_combine, length_map, length_seq. lia.
  - cbn [children]. rewrite Ecs. discriminate.
  - rewrite Hrest. cbn [children]. rewrite Ecs, sizes_cons.
    pose proof (size_positive c0). lia.
Qed.

(** ** getMatchesByTex *)

Section Labels.

Context {runtime : Runtime}.

Variable tex2svg : string -> element.

(** C5, as the code has it.  For a label rendered from [s] whose [math]
    root has at least one child, [getMatchesByTex] with the same [s]
    returns exactly one match, made of the handles of all the root's
    children in order. *)
Theorem getMatchesByTex_self (s : string) (x0 y0 : num) (this : TeX)
  (tree : path) (root : element) :
  new_TeX tex2svg s x0 y0 = Ok this ->
  querySelector math_node (rendered this) = Some tree ->
  get (rendered this) tree = Some root ->
  children root <> [] ->
  getMatchesByTex tex2svg this s = Ok [child_handles tree root].
Proof.
  unfold new_TeX, getMatchesByTex. intros Hnew Htree Hroot Hne.
  destruct (flattenSVG (tex2svg s)) as [r|e] eqn:Hflat; cbn [bind] in *; [|discriminate].
  injection Hnew as <-. cbn [rendered] in *.
  rewrite Htree. cbn [subtree_at]. rewrite Hroot. cbn [findSubtreeMatches].
  rewrite traverse_self by exact Hne. reflexivity.
Qed.

(** ** setColor and setColorAll *)

Lemma with_rendered_same (this : TeX) : with_rendered this (rendered this) = this.
Proof. destruct this. reflexivity. Qed.

Lemma assign_assign (name value : string) (l : list (string * string)) :
  assign name value (assign name value l) = assign name value l.
Proof.
  induction l as [|[k v] l IH]; cbn.
  - rewrite String.eqb_refl. reflexivity.
  - destruct (String.eqb k name) eqn:E; cbn; rewrite E; [reflexivity|].
    rewrite IH. reflexivity.
Qed.

Lemma unassign_unassign (name : string) (l : list (string * string)) :
  unassign name (unassign name l) = unassign name l.
Proof.
  induction l as [|[k v] l IH]; cbn; [reflexivity|].
  destruct (String.eqb k name) eqn:E; cbn; [exact IH|].
  rewrite E, IH. reflexivity.
Qed.

(** Setting a property to the same text twice is setting it once. *)
Lemma declare_declare (name value : string) (l : list (string * string)) :
  declare name value (declare name value l) = declare name value l.
Proof.
  unfold declare. destruct (String.eqb value "").
  - apply unassign_unassign.
  - destruct (css_value name value); [apply assign_assign | reflexivity].
Qed.

Lemma setProperty_children (name value : string) (x : element) :
  children (setProperty name value x) = children x.
Proof. destruct x. reflexivity. Qed.

Lemma own_setProperty (color : string) (x : element) :
  own (setProperty "fill" color x) = filled color (own x).
Proof. destruct x. reflexivity. Qed.

(** Recolouring a list of nodes sets the fill of those nodes and changes
    nothing else. *)
Lemma own_at_fill_nodes (color : string) (nodes : list path) :
  forall e q,
    own_at (fill_nodes color nodes e) q =
      if mem_path q nodes then option_map (filled color) (own_at e q) else own_at e q.
Proof.
  unfold fill_nodes.
  induction nodes as [|p nodes IH]; intros e q; cbn [fold_left mem_path existsb]; [reflexivity|].
  rewrite IH, own_at_update_at by apply setProperty_children.
  fold (mem_path q nodes).
  destruct (path_eqb p q) eqn:Epq.
  - apply path_eqb_eq in Epq. subst q. rewrite path_eqb_refl. cbn [orb].
    unfold own_at. destruct (get e p) as [el|]; cbn [option_map].
    + rewrite own_setProperty. destruct (mem_path p nodes); [|reflexivity].
      destruct (own el) as [[t a] st]. cbn [filled]. rewrite declare_declare. reflexivity.
    + destruct (mem_path p nodes); reflexivity.
  - replace (path_eqb q p) with false.
    + reflexivity.
    + symmetry. destruct (path_eqb q p) eqn:E; [|reflexivity].
      apply path_eqb_eq in E. subst. rewrite path_eqb_refl in Epq. discriminate.
Qed.

Lemma paths_fill_nodes (color : string) (nodes : list path) :
  forall e, paths (fill_nodes color nodes e) = paths e.
Proof.
  unfold fill_nodes. induction nodes as [|p nodes IH]; intros e; cbn [fold_left]; [reflexivity|].
  rewrite IH. apply paths_update_at, setProperty_children.
Qed.

(** An index that is the integer [i], a position of the list, passes the
    range tests and selects the element at [i]. *)
Lemma element_at_integer {A : Type} (l : list A) (index : num) (i : nat) (a : A) :
  nth_error l i = Some a ->
  (index === num_of_Z (Z.of_nat i))%num = true ->
  (index <? zero)%num = false
  /\ (num_of_Z (Z.of_nat (List.length l)) <=? index)%num = false
  /\ element_at l index = Some a.
Proof.
  intros Hnth Heq.
  assert (Hi : (i < List.length l)%nat) by (apply nth_error_Some; congruence).
  destruct index as [| |q s]; try discriminate Heq.
  cbn in Heq. apply Qeq_bool_iff in Heq.
  assert (Hfloor : Qfloor q = Z.of_nat i) by (rewrite Heq; apply Qfloor_Z).
  split; [|split].
  - cbn. apply negb_false_iff, Qle_bool_iff. rewrite Heq.
    change 0 with (inject_Z 0). rewrite <- Zle_Qle. lia.
  - cbn. destruct (Qle_bool (inject_Z (Z.of_nat (List.length l))) q) eqn:E; [|reflexivity].
    apply Qle_bool_iff in E. rewrite Heq in E. rewrite <- Zle_Qle in E. lia.
  - cbn [element_at]. rewrite Hfloor.
    assert (E1 : Qeq_bool (inject_Z (Z.of_nat i)) q = true)
      by (apply Qeq_bool_iff; symmetry; exact Heq).
    assert (E2 : (0 <=? Z.of_nat i)%Z = true) by (apply Z.leb_le; lia).
    rewrite E1, E2, Nat2Z.id. exact Hnth.
Qed.

(** C3, as the code has it.  Given the matches that [getMatchesByTex]
    finds for [tex]: with no match [setColor] throws the lookup failure;
    with matches and an index below 0 or not below their number it throws
    the range failure; with an index that passes both tests without being
    an integer (a fraction, NaN) it throws a TypeError; and in these three
    cases the label is left as it was.  With an index that is the position
    [i] of a match it returns after running the fill setter on the nodes of
    that match: on each of them the declaration of [fill] becomes what the
    CSS parser makes of [color], is removed when [color] is empty, and
    stays as it is when [color] is not a paint; every other node and the
    shape of the tree are unchanged. *)
Theorem setColor_outcomes (this : TeX) (tex color : string) (index : num)
  (matches : list (list path)) :
  getMatchesByTex tex2svg this tex = Ok matches ->
  let length := num_of_Z (Z.of_nat (List.length matches)) in
  (matches = [] ->
     setColor tex2svg this tex color index
     = (this, Thrown (Error ("Found no match for: " ++ tex))))
  /\ (matches <> [] -> (index <? zero)%num = true \/ (length <=? index)%num = true ->
      setColor tex2svg this tex color index = (this, Thrown (Error "Index is out of range")))
  /\ (matches <> [] -> (index <? zero)%num = false -> (length <=? index)%num = false ->
      Number_isInteger index = false ->
      setColor tex2svg this tex color index = (this, Thrown TypeError))
  /\ (forall i nodes,
        nth_error matches i = Some nodes ->
        (index === num_of_Z (Z.of_nat i))%num = true ->
        exists this',
          setColor tex2svg this tex color index = (this', Returned)
          /\ paths (rendered this') = paths (rendered this)
          /\ forall q,
               own_at (rendered this') q =
                 if mem_path q nodes
                 then option_map (filled color) (own_at (rendered this) q)
                 else own_at (rendered this) q).
Proof.
  intros Hm length. unfold setColor. rewrite Hm. fold length.
  split; [|split; [|split]].
  - intros ->. reflexivity.
  - intros Hne Hidx. destruct matches as [|m matches]; [contradiction|].
    cbn [List.length Nat.eqb].
    replace ((index <? zero)%num || (length <=? index)%num) with true; [reflexivity|].
    symmetry. apply orb_true_iff. exact Hidx.
  - intros Hne Hlo Hhi Hint. destruct matches as [|m matches]; [contradiction|].
    cbn [List.length Nat.eqb]. rewrite Hlo, Hhi. cbn [orb].
    replace (element_at (m :: matches) index) with (@None (list path)); [reflexivity|].
    destruct index as [| |q s]; try reflexivity.
    cbn [Number_isInteger] in Hint. cbn [element_at]. rewrite Hint. reflexivity.
  - intros i nodes Hnth Heq.
    destruct (element_at_integer matches index i nodes Hnth Heq) as (Hlo & Hhi & Hat).
    destruct matches as [|m matches]; [destruct i; discriminate Hnth|].
    cbn [List.length Nat.eqb]. fold length in Hhi. rewrite Hlo, Hhi, Hat. cbn [orb].
    eexists. split; [reflexivity|]. cbn [rendered with_rendered]. split.
    + apply paths_fill_nodes.
    + apply own_at_fill_nodes.
Qed.

(** C9.  With no match for [tex], [setColorAll] returns normally and
    leaves the label as it was, where [setColor] throws the lookup
    failure. *)
Theorem setColorAll_no_match (this : TeX) (tex color : string) :
  getMatchesByTex tex2svg this tex = Ok [] ->
  setColorAll tex2svg this tex color = (this, Returned)
  /\ forall index,
       setColor tex2svg this tex color index
       = (this, Thrown (Error ("Found no match for: " ++ tex))).
Proof.
  intros Hm. unfold setColorAll, setColor. rewrite Hm. cbn [fold_left List.length Nat.eqb].
  rewrite with_rendered_same. split; reflexivity.
Qed.

End Labels.

(** ** The theorems at concrete labels *)

Lemma getMatchesByTex_self_witness :
  exists root,
    get (rendered (label_of "xy")) [0; 0]%nat = Some root
    /\ getMatchesByTex glyph_engine (label_of "xy") "xy" = Ok [child_handles [0; 0]%nat root].
Proof.
  eexists. split.
  - vm_compute. reflexivity.
  - apply (getMatchesByTex_self glyph_engine "xy" zero zero).
    + reflexivity.
    + reflexivity.
    + reflexivity.
    + discriminate.
Defined.

Example getMatchesByTex_xy_in_xyxy :
  getMatchesByTex glyph_engine (label_of "xyxy") "xy"
  = Ok [[[0; 0; 0]; [0; 0; 1]]; [[0; 0; 2]; [0; 0; 3]]]%nat.
Proof. reflexivity. Qed.

(** The empty expression has a [math] root without children; matching it
    against itself finds nothing, where the specification expects one match. *)
Lemma self_match_empty_counterexample :
  getMatchesByTex glyph_engine (label_of "") "" = Ok []
  /\ ~ self_match_as_specified glyph_engine "".
Proof.
  split; [reflexivity|].
  intros H. destruct (H zero zero (label_of "") eq_refl) as [m Hm].
  vm_compute in Hm. discriminate Hm.
Qed.

Lemma setColor_outcomes_witness :
  exists this',
    setColor glyph_engine (label_of "xyxy") "y" "red" one = (this', Returned)
    /\ paths (rendered this') = paths (rendered (label_of "xyxy"))
    /\ forall q,
         own_at (rendered this') q =
           if mem_path q [[0; 0; 3]]%nat
           then option_map (filled "red") (own_at (rendered (label_of "xyxy")) q)
           else own_at (rendered (label_of "xyxy")) q.
Proof.
  apply (proj2 (proj2 (proj2 (setColor_outcomes glyph_engine (label_of "xyxy") "y" "red" one
                                [[[0; 0; 1]]; [[0; 0; 3]]]%nat eq_refl))) 1%nat);
    reflexivity.
Defined.

Example setColor_out_of_range :
  setColor glyph_engine (label_of "xyxy") "y" "red" (num_of_Z 2)
  = (label_of "xyxy", Thrown (Error "Index is out of range"))
  /\ setColor glyph_engine (label_of "xyxy") "y" "red" (num_of_Z (-1))
     = (label_of "xyxy", Thrown (Error "Index is out of range"))
  /\ setColor glyph_engine (label_of "xyxy") "y" "red" Infinity
     = (label_of "xyxy", Thrown (Error "Index is out of range")).
Proof. repeat split; vm_compute; reflexivity. Qed.

(** An index between two positions is neither negative nor too large, and
    no match is recoloured: [matches[0.5]] is undefined, and the call ends
    in a TypeError, where the specification expects a match to be
    recoloured.  The same happens for NaN. *)
Lemma setColor_fraction_counterexample :
  getMatchesByTex glyph_engine (label_of "xyxy") "y" = Ok [[[0; 0; 1]]; [[0; 0; 3]]]%nat
  /\ setColor glyph_engine (label_of "xyxy") "y" "red" (num_of_Q (1 # 2))
     = (label_of "xyxy", Thrown TypeError)
  /\ setColor glyph_engine (label_of "xyxy") "y" "red" NaN
     = (label_of "xyxy", Thrown TypeError)
  /\ ~ setColor_as_specified glyph_engine (label_of "xyxy") "y" "red" (num_of_Q (1 # 2)).
Proof.
  assert (E : getMatchesByTex glyph_engine (label_of "xyxy") "y"
              = Ok [[[0; 0; 1]]; [[0; 0; 3]]]%nat) by (vm_compute; reflexivity).
  assert (E2 : setColor glyph_engine (label_of "xyxy") "y" "red" (num_of_Q (1 # 2))
               = (label_of "xyxy", Thrown TypeError)) by (vm_compute; reflexivity).
  split; [exact E|]. split; [exact E2|]. split; [vm_compute; reflexivity|].
  intros H. specialize (H _ E). rewrite E2 in H.
  cbv zeta in H. cbn [List.length Nat.eqb] in H.
  change ((num_of_Q (1 # 2) <? zero)%num
          || negb (num_of_Q (1 # 2) <? num_of_Z (Z.of_nat 2))%num) with false in H.
  cbv iota in H. destruct H as (nodes & _ & H). discriminate H.
Qed.

(** Text that is not a paint leaves the label as it was, and the empty
    string removes a fill set before. *)
Example setColor_not_a_paint :
  setColor glyph_engine (label_of "xyxy") "y" "no such colour" zero
  = (label_of "xyxy", Returned)
  /\ (let recoloured := fst (setColor glyph_engine (label_of "xyxy") "y" "red" zero) in
      recoloured <> label_of "xyxy"
      /\ setColor glyph_engine recoloured "y" "" zero = (label_of "xyxy", Returned)).
Proof.
  split; [vm_compute; reflexivity|].
  cbv zeta. split; [vm_compute; discriminate|vm_compute; reflexivity].
Qed.

Lemma setColorAll_no_match_witness :
  setColorAll glyph_engine (label_of "xy") "z" "red" = (label_of "xy", Returned)
  /\ forall index,
       setColor glyph_engine (label_of "xy") "z" "red" index
       = (label_of "xy", Thrown (Error "Found no match for: z")).
Proof.
  apply (setColorAll_no_match glyph_engine (label_of "xy") "z" "red"). reflexivity.
Defined.

(** ** Documents and selectors *)





(** ** flattenSVG *)



(** The <use> elements are listed once, before any is replaced: one that
    arrives inside copied content is resolved only by a second flattening. *)
Example flattenSVG_twice_nested_use :
  let d := Element "svg" [] []
             [ Element "use" [("href", "#a")] [] [];
               Element "g" [("id", "a")] [] [Element "use" [("href", "#b")] [] []];
               Element "rect" [("id", "b")] [] [] ] in
  let d1 := Element "svg" [] []
             [ Element "g" [("id", "a")] [] [Element "use" [("href", "#b")] [] []];
               Element "g" [("id", "a")] [] [Element "rect" [("id", "b")] [] []];
               Element "rect" [("id", "b")] [] [] ] in
  let d2 := Element "svg" [] []
             [ Element "g" [("id", "a")] [] [Element "rect" [("id", "b")] [] []];
               Element "g" [("id", "a")] [] [Element "rect" [("id", "b")] [] []];
               Element "rect" [("id", "b")] [] [] ] in
  flattenSVG d = Ok d1 /\ flattenSVG d1 = Ok d2.
Proof. split; reflexivity. Qed.

(** ** Attributes *)

Lemma lookup_assign (n m v : string) (l : list (string * string)) :
  lookup n (assign m v l) = if String.eqb m n then Some v else lookup n l.
Proof.
  induction l as [|[k v0] l IH]; cbn.
  - destruct (String.eqb m n); reflexivity.
  - destruct (String.eqb k m) eqn:Ekm; cbn.
    + apply String.eqb_eq in Ekm. subst k.
      destruct (String.eqb m n); reflexivity.
    + rewrite IH. destruct (String.eqb k n) eqn:Ekn; [|reflexivity].
      apply String.eqb_eq in Ekn. subst k.
      rewrite String.eqb_sym, Ekm. reflexivity.
Qed.

Lemma lookup_unassign (n m : string) (l : list (string * string)) :
  lookup n (unassign m l) = if String.eqb m n then None else lookup n l.
Proof.
  induction l as [|[k v0] l IH]; cbn.
  - destruct (String.eqb m n); reflexivity.
  - destruct (String.eqb k m) eqn:Ekm; cbn.
    + apply String.eqb_eq in Ekm. subst k. rewrite IH.
      destruct (String.eqb m n); reflexivity.
    + rewrite IH. destruct (String.eqb k n) eqn:Ekn; [|reflexivity].
      apply String.eqb_eq in Ekn. subst k.
      rewrite String.eqb_sym, Ekm. reflexivity.
Qed.

Lemma getAttribute_setAttribute (n m v : string) (e : element) :
  getAttribute n (setAttribute m v e) = if String.eqb m n then Some v else getAttribute n e.
Proof. destruct e. apply lookup_assign. Qed.

Lemma getAttribute_removeAttribute (n m : string) (e : element) :
  getAttribute n (removeAttribute m e) = if String.eqb m n then None else getAttribute n e.
Proof. destruct e. apply lookup_unassign. Qed.

Lemma setAttribute_children (m v : string) (e : element) :
  children (setAttribute m v e) = children e.
Proof. destruct e. reflexivity. Qed.

Lemma setAttribute_tagName (m v : string) (e : element) :
  tagName (setAttribute m v e) = tagName e.
Proof. destruct e. reflexivity. Qed.

Lemma removeAttribute_children (m : string) (e : element) :
  children (removeAttribute m e) = children e.
Proof. destruct e. reflexivity. Qed.

Lemma removeAttribute_tagName (m : string) (e : element) :
  tagName (removeAttribute m e) = tagName e.
Proof. destruct e. reflexivity. Qed.

Lemma geometry_edit_set (m v : string) (g : element -> element) :
  In m geometry_names -> geometry_edit g ->
  geometry_edit (fun el => setAttribute m v (g el)).
Proof.
  intros Hm Hg el. destruct (Hg el) as (Ht & Hc & Ha & Hp).
  rewrite setAttribute_tagName, setAttribute_children. repeat split; try assumption.
  - intros n Hn. rewrite getAttribute_setAttribute.
    destruct (String.eqb m n) eqn:E; [|apply Ha; exact Hn].
    apply String.eqb_eq in E. subst. contradiction.
  - intros n Hn. unfold hasAttribute. rewrite getAttribute_setAttribute.
    destruct (String.eqb m n); [reflexivity|]. apply Hp. exact Hn.
Qed.

Lemma geometry_edit_id : geometry_edit (fun el => el).
Proof. intros el. repeat split; auto. Qed.

(** ** embedMarkers *)

Section Markers.

Context {runtime : Runtime}.

Variable trimPixels : float.





(** *** One step, observed through handles *)

Lemma step_own_at (g : element -> element) (glyph : element) (pos : string)
  (p : path) (c : element) (q : path) :
  geometry_edit g -> q <> [] -> get c q <> None ->
  own_at (update_at p (removeAttribute pos) (appendChild glyph (update_at p g c))) q
  = if path_eqb p q
    then option_map (fun el => own (removeAttribute pos (g el))) (get c q)
    else own_at c q.
Proof.
  intros Hg Hq Hget.
  assert (Hgc : forall el, children (g el) = children el) by (intros el; apply Hg).
  assert (Hget1 : get (update_at p g c) q <> None).
  { pose proof (own_at_update_at g Hgc p c q) as Ho. unfold own_at in Ho.
    destruct (get (update_at p g c) q); [discriminate|].
    destruct (get c q); [|contradiction].
    destruct (path_eqb p q); discriminate Ho. }
  rewrite own_at_update_at by apply removeAttribute_children.
  rewrite (get_appendChild glyph _ q Hq Hget1).
  destruct (path_eqb p q) eqn:Epq.
  - apply path_eqb_eq in Epq. subst q. rewrite get_update_at_same.
    destruct (get c p); reflexivity.
  - unfold own_at at 1. rewrite (get_appendChild glyph _ q Hq Hget1).
    fold (own_at (update_at p g c) q). rewrite own_at_update_at by exact Hgc.
    rewrite Epq. reflexivity.
Qed.

Lemma tag_at_own (e : element) (q : path) :
  tag_at e q = option_map (fun o => fst (fst o)) (own_at e q).
Proof. unfold tag_at, own_at. destruct (get e q); reflexivity. Qed.

Lemma attr_at_own (n : string) (e : element) (q : path) :
  attr_at n e q = option_map (fun o => lookup n (snd (fst o))) (own_at e q).
Proof. unfold attr_at, own_at. destruct (get e q); reflexivity. Qed.

Lemma step_tag_at (g : element -> element) (glyph : element) (pos : string)
  (p : path) (c : element) (q : path) :
  geometry_edit g -> q <> [] -> get c q <> None ->
  tag_at (update_at p (removeAttribute pos) (appendChild glyph (update_at p g c))) q
  = tag_at c q.
Proof.
  intros Hg Hq Hget. rewrite !tag_at_own, step_own_at by assumption.
  destruct (path_eqb p q); [|reflexivity].
  unfold own_at. destruct (get c q) as [el|]; [|reflexivity]. cbn.
  rewrite removeAttribute_tagName. f_equal. apply Hg.
Qed.

Lemma step_attr_at (g : element -> element) (glyph : element) (pos n : string)
  (p : path) (c : element) (q : path) :
  geometry_edit g -> q <> [] -> get c q <> None -> ~ In n geometry_names ->
  attr_at n (update_at p (removeAttribute pos) (appendChild glyph (update_at p g c))) q
  = if path_eqb p q && String.eqb n pos then Some None else attr_at n c q.
Proof.
  intros Hg Hq Hget Hn. rewrite !attr_at_own, step_own_at by assumption.
  destruct (path_eqb p q); [|reflexivity]. cbn [andb].
  unfold own_at. destruct (get c q) as [el|]; [|contradiction]. cbn [option_map own fst snd].
  fold (getAttribute n (removeAttribute pos (g el))). fold (getAttribute n el).
  rewrite getAttribute_removeAttribute, String.eqb_sym.
  destruct (String.eqb n pos); [reflexivity|].
  f_equal. apply Hg. exact Hn.
Qed.






Lemma matches_at_id (id : string) (e : element) (q : path) :
  matches_at (ById id) e q
  = match attr_at "id" e q with
    | Some a => option_string_eqb a (Some id)
    | None => false
    end.
Proof. unfold matches_at, attr_at. destruct (get e q); reflexivity. Qed.




Lemma querySelector_descendant (s : selector) (e : element) (p : path) :
  querySelector s e = Some p -> p <> [] /\ get e p <> None.
Proof.
  unfold querySelector, querySelectorAll. intros H.
  apply head_filter_true in H. destruct H as [_ H]. apply descendants_valid. exact H.
Qed.











Lemma marked_matches (pos : string) (el : element) :
  matches (marked pos) el = true <->
  (tagName el = "line" \/ tagName el = "path") /\ hasAttribute pos el = true.
Proof.
  unfold marked. cbn [matches].
  rewrite orb_true_iff, !andb_true_iff, !String.eqb_eq. tauto.
Qed.

(** *** All the references under one position *)


(** *** The whole pass *)


End Markers.

Section Pipeline.

Context {runtime : Runtime}.


(** C1, as the code has it.  [bundle] succeeds exactly when marker
    embedding succeeds on the style-inlined copy and flattening succeeds on
    what marker embedding returns, and it serialises the outcome of that
    flattening; a failure of marker embedding is the failure of [bundle];
    [download] saves under the file name what [bundle] returns.  Marker
    embedding has completed before flattening starts. *)
Theorem export_embeds_then_flattens (root : element) (filename : string)
  (target : ExportTarget) :
  (forall html,
     bundle root target = Ok html <->
     exists embedded flattened,
       embedMarkers (createInlineStyledSvg root target) = Ok embedded
       /\ flattenSVG embedded = Ok flattened
       /\ html = outerHTML flattened)
  /\ (forall e,
        embedMarkers (createInlineStyledSvg root target) = Throw e ->
        bundle root target = Throw e)
  /\ download root filename target = (html <- bundle root target ;; saveSVG filename html).
Proof.
  unfold bundle, download.
  destruct (embedMarkers (createInlineStyledSvg root target)) as [embedded|e1] eqn:Hem;
    cbn [bind].
  - destruct (flattenSVG embedded) as [flattened|e2] eqn:Hfl; cbn [bind].
    + split; [|split; [|reflexivity]].
      * intros html. split.
        -- intros H. injection H as <-. exists embedded, flattened. auto.
        -- intros (em & fl & Hem' & Hfl' & ->).
           injection Hem' as <-. rewrite Hfl in Hfl'. injection Hfl' as <-. reflexivity.
      * intros e H. discriminate H.
    + split; [|split; [|reflexivity]].
      * intros html. split.
        -- intros H. discriminate H.
        -- intros (em & fl & Hem' & Hfl' & ->).
           injection Hem' as <-. rewrite Hfl in Hfl'. discriminate Hfl'.
      * intros e H. discriminate H.
  - split; [|split; [|reflexivity]].
    + intros html. split.
      * intros H. discriminate H.
      * intros (em & fl & Hem' & _). discriminate Hem'.
    + intros e H. injection H as <-. reflexivity.
Qed.

End Pipeline.

(** ** The export at concrete drawings *)


Lemma export_embeds_then_flattens_witness :
  exists html embedded flattened,
    bundle arrow_drawing BROWSER = Ok html
    /\ embedMarkers (createInlineStyledSvg arrow_drawing BROWSER) = Ok embedded
    /\ flattenSVG embedded = Ok flattened
    /\ html = outerHTML flattened.
Proof.
  destruct (bundle arrow_drawing BROWSER) as [html|e] eqn:Hb;
    [|vm_compute in Hb; discriminate Hb].
  exists html.
  destruct (proj1 (proj1 (export_embeds_then_flattens arrow_drawing "drawing.svg" BROWSER) html)
              Hb) as (embedded & flattened & H1 & H2 & H3).
  exists embedded, flattened. auto.
Defined.

(** With the order of the specification the marker is gone before it is
    looked up: the export that the code completes would fail. *)
Lemma sequencing_counterexample :
  (exists html, bundle arrow_drawing BROWSER = Ok html)
  /\ export_as_specified arrow_drawing BROWSER = Throw TypeError
  /\ ~ sequencing_as_specified.
Proof.
  split; [eexists; vm_compute; reflexivity|]. split; [reflexivity|].
  intros H. specialize (H arrow_drawing BROWSER). vm_compute in H. discriminate H.
Qed.

(** The exported drawing: the trimmed line and the arrowhead, no <defs>. *)
Example bundle_arrow_drawing :
  exists x2 y2 transform,
    (d <- embedMarkers arrow_drawing ;; flattenSVG d)
    = Ok (Element "svg" [] []
            [ Element "line" [("x1", "0"); ("y1", "0"); ("x2", x2); ("y2", y2)] [] [];
              Element "path" [("d", "M0,0 L0,6 L9,3 z"); ("transform", transform)] [] [] ]).
Proof. do 3 eexists. vm_compute. reflexivity. Qed.


(** ** flattenSVG on documents of the typeset shape *)













(** *** Removing the <defs> element *)













(** ** More of util/math.ts *)

(** *** linearSpace *)

Lemma lt_ceiling (n : Q) (i : Z) :
  Qle_bool n (inject_Z i) = (Qceiling n <=? i)%Z.
Proof.
  destruct (Qle_bool n (inject_Z i)) eqn:E; symmetry.
  - apply Qle_bool_iff in E. apply Z.leb_le.
    pose proof (Qceiling_lt n) as H.
    assert (L : inject_Z (Qceiling n - 1) < inject_Z i) by (eapply Qlt_le_trans; eassumption).
    rewrite <- Zlt_Qlt in L. lia.
  - apply Z.leb_gt. apply Qle_bool_false in E.
    pose proof (Qle_ceiling n) as H.
    assert (L : inject_Z i < inject_Z (Qceiling n)) by (eapply Qlt_le_trans; eassumption).
    rewrite <- Zlt_Qlt in L. exact L.
Qed.

Lemma num_lt_of_Z (i : Z) (n : Q) (z : bool) :
  (num_of_Z i <? Fin n z)%num = (i <? Qceiling n)%Z.
Proof.
  unfold num_lt, num_le, num_of_Z, num_of_Q, fin.
  rewrite lt_ceiling, Z.ltb_antisym. reflexivity.
Qed.

Lemma length_zrange (m : nat) : forall i, List.length (zrange i m) = m.
Proof. induction m as [|m IH]; intros i; cbn; [reflexivity | rewrite IH; reflexivity]. Qed.



(** The loop pushes one value per integer from [i] up to the count. *)
Lemma linearSpace_loop_run (start step : num) (n : Q) (z : bool) (m : nat) :
  forall (fuel : nat) (i : Z) (result : list num),
    (m < fuel)%nat ->
    (Z.of_nat m = Z.max 0 (Qceiling n - i))%Z ->
    linearSpace_loop fuel start step (Fin n z) i result
    = Some (result ++ map (fun j => (start + step * num_of_Z j)%num) (zrange i m)).
Proof.
  induction m as [|m IH]; intros fuel i result Hfuel Hm;
    (destruct fuel as [|fuel]; [lia|]); cbn [linearSpace_loop]; rewrite num_lt_of_Z.
  - replace (i <? Qceiling n)%Z with false by (symmetry; apply Z.ltb_ge; lia).
    cbn. rewrite app_nil_r. reflexivity.
  - replace (i <? Qceiling n)%Z with true by (symmetry; apply Z.ltb_lt; lia).
    rewrite (IH fuel (i + 1)%Z) by lia.
    cbn [zrange map]. rewrite <- app_assoc. reflexivity.
Qed.

Lemma inject_Z_sub (a b : Z) : inject_Z (a - b) == inject_Z a - inject_Z b.
Proof. unfold Z.sub. rewrite inject_Z_plus, inject_Z_opp. ring. Qed.


Lemma linearSpace_loop_endless (start step : num) (fuel : nat) :
  forall i result, linearSpace_loop fuel start step Infinity i result = None.
Proof.
  induction fuel as [|fuel IH]; intros i result; [reflexivity|].
  cbn [linearSpace_loop]. change (num_of_Z i <? Infinity)%num with true. cbv iota. apply IH.
Qed.


(** Off the grid the values are rounded, and the last one need not be the
    end: the 50 values asked for between 0 and 1 end below 1. *)
Example linearSpace_rounded :
  option_map (fun l => last l NaN) (linearSpace 51 zero one (num_of_Z 50))
  = Some (Fin (9007199254740991 # 9007199254740992) false).
Proof. vm_compute. reflexivity. Qed.

(** X2.  The number of values is the count rounded up, so a fractional
    count yields one value more than its integer part and a count of zero
    or less yields none; a count of NaN yields none either, and with an
    infinite count the loop never finishes. *)
Theorem linearSpace_count (start end_ : num) :
  (forall n z fuel,
     (Z.to_nat (Qceiling n) < fuel)%nat ->
     exists l, linearSpace fuel start end_ (Fin n z) = Some l
               /\ List.length l = Z.to_nat (Qceiling n))
  /\ (forall fuel, linearSpace (S fuel) start end_ NaN = Some [])
  /\ (forall fuel, linearSpace fuel start end_ Infinity = None).
Proof.
  split; [|split].
  - intros n z fuel Hfuel. unfold linearSpace.
    destruct (Fin n z === one)%num eqn:E.
    + eexists. split; [reflexivity|].
      unfold strict_eq, one, num_of_Z, num_of_Q, fin in E. apply Qeq_bool_iff in E.
      rewrite E. reflexivity.
    + rewrite (linearSpace_loop_run _ _ _ _ (Z.to_nat (Qceiling n))); [|exact Hfuel|lia].
      eexists. split; [reflexivity|]. cbn [app]. rewrite length_map, length_zrange. reflexivity.
  - intros fuel. unfold linearSpace. cbn [strict_eq].
    destruct (end_ - start)%num; reflexivity.
  - intros fuel. unfold linearSpace.
    change (Infinity === one)%num with false. cbv iota. apply linearSpace_loop_endless.
Qed.

Lemma linearSpace_count_witness :
  exists l, linearSpace 4 zero one (Fin (5 # 2) false) = Some l /\ List.length l = 3%nat.
Proof.
  apply (proj1 (linearSpace_count zero one) (5 # 2) false 4%nat). cbn. lia.
Defined.

(** *** isPrime and nextPrime *)

Lemma Qfloor_div (a b : Z) : (0 < b)%Z -> Qfloor (inject_Z a / inject_Z b) = (a / b)%Z.
Proof.
  intros Hb.
  assert (E : inject_Z a / inject_Z b == a # Z.to_pos b).
  { unfold Qeq, Qdiv, Qmult, Qinv, inject_Z. cbn.
    destruct b as [|b|b]; try lia. cbn. lia. }
  rewrite (Qfloor_comp _ _ E). cbn. rewrite Z2Pos.id by exact Hb. reflexivity.
Qed.

(** What the tests of [isPrime] compute on an integer value. *)
Section IntegerValue.

Variables (q : Q) (zq : bool) (z : Z).
Hypothesis Hq : q == inject_Z z.

Lemma Number_isInteger_value : Number_isInteger (Fin q zq) = true.
Proof.
  cbn. apply Qeq_bool_iff. rewrite (Qfloor_comp _ _ Hq), Qfloor_Z. symmetry. exact Hq.
Qed.

Lemma num_le_one_value : (Fin q zq <=? one)%num = (z <=? 1)%Z.
Proof.
  unfold num_le, one, num_of_Z, num_of_Q, fin.
  destruct (Qle_bool q (inject_Z 1)) eqn:E; symmetry.
  - apply Qle_bool_iff in E. rewrite Hq, <- Zle_Qle in E. apply Z.leb_le. exact E.
  - apply Qle_bool_false in E. rewrite Hq, <- Zlt_Qlt in E. apply Z.leb_gt. exact E.
Qed.

Lemma le_sqrt_value (i : Z) :
  (0 <= z)%Z -> (0 < i)%Z -> le_sqrt (num_of_Z i) (Fin q zq) = (i <=? Z.sqrt z)%Z.
Proof.
  intros Hz Hi. unfold le_sqrt, num_of_Z, num_of_Q, fin.
  replace (Qle_bool 0 q) with true
    by (symmetry; apply Qle_bool_iff; rewrite Hq; change 0 with (inject_Z 0);
        rewrite <- Zle_Qle; exact Hz).
  replace (Qle_bool (inject_Z i) 0) with false.
  2:{ symmetry. destruct (Qle_bool (inject_Z i) 0) eqn:E; [|reflexivity].
      apply Qle_bool_iff in E. change 0 with (inject_Z 0) in E.
      rewrite <- Zle_Qle in E. lia. }
  cbn [andb orb].
  destruct (Qle_bool (inject_Z i * inject_Z i) q) eqn:E; symmetry.
  - apply Qle_bool_iff in E. rewrite Hq, <- inject_Z_mult, <- Zle_Qle in E.
    apply Z.leb_le, Z.sqrt_le_square; lia.
  - apply Qle_bool_false in E. rewrite Hq, <- inject_Z_mult, <- Zlt_Qlt in E.
    apply Z.leb_gt. apply Z.sqrt_lt_square; lia.
Qed.

Lemma num_rem_value (i : Z) :
  (0 <= z)%Z -> (0 < i)%Z ->
  (Fin q zq mod num_of_Z i === zero)%num = (z mod i =? 0)%Z.
Proof.
  intros Hz Hi. unfold num_rem, num_of_Z, num_of_Q, fin.
  assert (Hi0 : ~ inject_Z i == 0) by (apply inject_Z_nonzero; lia).
  destruct (Qeq_bool (inject_Z i) 0) eqn:E0; [apply Qeq_bool_iff in E0; contradiction|].
  assert (Ediv : q / inject_Z i == inject_Z z / inject_Z i) by (rewrite Hq; reflexivity).
  assert (Hnonneg : 0 <= q / inject_Z i).
  { rewrite Ediv. apply Qle_shift_div_l.
    - change 0 with (inject_Z 0). rewrite <- Zlt_Qlt. exact Hi.
    - rewrite Qmult_0_l. change 0 with (inject_Z 0). rewrite <- Zle_Qle. exact Hz. }
  unfold Qrem, Qtrunc. apply Qle_bool_iff in Hnonneg. rewrite Hnonneg.
  rewrite (Qfloor_comp _ _ Ediv), Qfloor_div by exact Hi.
  unfold strict_eq, zero, num_of_Z, num_of_Q, fin.
  match goal with |- Qeq_bool ?v _ = _ =>
    assert (Ev : v == inject_Z (z mod i)) end.
  { rewrite Hq, Z.mod_eq by lia. rewrite inject_Z_sub, inject_Z_mult. reflexivity. }
  destruct (Qeq_bool _ (inject_Z 0)) eqn:E; symmetry.
  - apply Qeq_bool_iff in E. rewrite Ev in E. apply inject_Z_inj in E. apply Z.eqb_eq. exact E.
  - apply Qeq_bool_false in E. apply Z.eqb_neq. intros Hm. apply E. rewrite Ev, Hm. reflexivity.
Qed.

End IntegerValue.

(** Trial division from [i] on, when nothing below [i] divides [z]. *)
Lemma isPrime_loop_decides (q : Q) (zq : bool) (z : Z) :
  q == inject_Z z -> (2 <= z)%Z ->
  forall (fuel : nat) (i : Z),
    (2 <= i <= Z.sqrt z + 1)%Z ->
    (Z.sqrt z + 2 - i <= Z.of_nat fuel)%Z ->
    (forall d, (2 <= d < i)%Z -> ~ (d | z)%Z) ->
    exists b, isPrime_loop fuel (Fin q zq) i = Some b /\ (b = true <-> Z.prime z).
Proof.
  intros Hq Hz. induction fuel as [|fuel IH]; intros i Hi Hfuel Hnone; [lia|].
  cbn [isPrime_loop].
  rewrite (le_sqrt_value q zq z Hq) by lia.
  destruct (i <=? Z.sqrt z)%Z eqn:Ei.
  - apply Z.leb_le in Ei.
    rewrite (num_rem_value q zq z Hq) by lia.
    destruct (z mod i =? 0)%Z eqn:Em.
    + exists false. split; [reflexivity|]. split; [discriminate|].
      intros Hp. exfalso. apply Z.eqb_eq in Em.
      destruct Hp as [_ Hp]. apply (Hp i).
      * assert (i * i <= z)%Z by (apply Z.sqrt_le_square; lia). nia.
      * apply Z.mod_divide; [lia | exact Em].
    + apply Z.eqb_neq in Em. apply IH; [lia | lia |].
      intros d Hd. destruct (Z.eq_dec d i) as [->|Hne].
      * intros Hdiv. apply Em. apply Z.mod_divide; [lia | exact Hdiv].
      * apply Hnone. lia.
  - apply Z.leb_gt in Ei.
    exists true. split; [reflexivity|]. split; [|reflexivity]. intros _.
    split; [lia|].
    intros d Hd Hdiv.
    destruct (Z_lt_le_dec d i) as [Hlt|Hge]; [apply (Hnone d); [lia | exact Hdiv]|].
    destruct Hdiv as [c Hc].
    assert (Hc1 : (1 < c)%Z) by nia.
    assert (Hci : (c < i)%Z).
    { assert (z < i * i)%Z by (apply Z.sqrt_lt_square; lia). nia. }
    apply (Hnone c); [lia|]. exists d. lia.
Qed.

Lemma isPrime_value (q : Q) (zq : bool) (z : Z) (fuel : nat) :
  q == inject_Z z -> (Z.to_nat (Z.sqrt z) <= fuel)%nat ->
  exists b, isPrime fuel (Fin q zq) = Some b /\ (b = true <-> Z.prime z).
Proof.
  intros Hq Hfuel. unfold isPrime.
  rewrite (Number_isInteger_value q zq z Hq), (num_le_one_value q zq z Hq). cbn [negb orb].
  destruct (z <=? 1)%Z eqn:E.
  - apply Z.leb_le in E. exists false. split; [reflexivity|]. split; [discriminate|].
    intros Hp. apply Z.prime_ge_2 in Hp. lia.
  - apply Z.leb_gt in E.
    assert (1 <= Z.sqrt z)%Z by (apply Z.sqrt_le_square; lia).
    apply (isPrime_loop_decides q zq z Hq); lia.
Qed.

(** X3.  On an integer [z], given fuel for the trial divisions up to the
    square root, [isPrime] answers, and it answers true exactly when [z] is
    a prime number. *)
Theorem isPrime_correct (z : Z) (fuel : nat) :
  (Z.to_nat (Z.sqrt z) <= fuel)%nat ->
  exists b, isPrime fuel (num_of_Z z) = Some b /\ (b = true <-> Z.prime z).
Proof.
  intros Hfuel. unfold num_of_Z, num_of_Q, fin.
  apply isPrime_value; [reflexivity | exact Hfuel].
Qed.

Lemma isPrime_correct_witness :
  exists b, isPrime 3 (num_of_Z 13) = Some b /\ (b = true <-> Z.prime 13).
Proof. apply (isPrime_correct 13 3). cbn. lia. Defined.

(** Primality is decidable: trial division decides it. *)
Lemma prime_decidable (z : Z) : Z.prime z \/ ~ Z.prime z.
Proof.
  destruct (isPrime_value (inject_Z z) false z (Z.to_nat (Z.sqrt z))) as (b & _ & Hb);
    [reflexivity | lia |].
  destruct b; [left; apply Hb; reflexivity | right; intros Hp; apply Hb in Hp; discriminate].
Qed.

(** The least divisor above 1 of a number above 1 is prime. *)
Lemma least_divisor (m : Z) :
  (2 <= m)%Z ->
  forall (k : nat) (i : Z),
    (i + Z.of_nat k = m)%Z -> (2 <= i)%Z ->
    (forall c, (2 <= c < i)%Z -> ~ (c | m)%Z) ->
    exists d, (2 <= d <= m)%Z /\ (d | m)%Z /\ forall c, (2 <= c < d)%Z -> ~ (c | m)%Z.
Proof.
  intros Hm. induction k as [|k IH]; intros i Hik Hi Hnone.
  - exists i. replace i with m by lia. split; [lia|]. split; [apply Z.divide_refl|].
    intros c Hc. apply Hnone. lia.
  - destruct (Z.eq_dec (m mod i) 0) as [E|E].
    + exists i. split; [lia|]. split; [apply Z.mod_divide; [lia | exact E] | exact Hnone].
    + apply (IH (i + 1)%Z); [lia | lia |].
      intros c Hc. destruct (Z.eq_dec c i) as [->|Hne]; [|apply Hnone; lia].
      intros Hdiv. apply E. apply Z.mod_divide; [lia | exact Hdiv].
Qed.

Lemma prime_divisor (m : Z) : (2 <= m)%Z -> exists p, Z.prime p /\ (p | m)%Z.
Proof.
  intros Hm.
  destruct (least_divisor m Hm (Z.to_nat (m - 2)) 2%Z) as (d & Hd & Hdiv & Hleast);
    [lia | lia | intros c Hc; lia |].
  exists d. split; [|exact Hdiv]. split; [lia|].
  intros c Hc Hcd. apply (Hleast c); [lia|]. eapply Z.divide_trans; eassumption.
Qed.

Lemma divide_fact (k : nat) :
  forall c, (1 <= c <= k)%nat -> (Z.of_nat c | Z.of_nat (fact k))%Z.
Proof.
  induction k as [|k IH]; intros c Hc; [lia|].
  change (fact (S k)) with (S k * fact k)%nat. rewrite Nat2Z.inj_mul.
  destruct (Nat.eq_dec c (S k)) as [->|Hne].
  - apply Z.divide_factor_l.
  - apply Z.divide_mul_r. apply IH. lia.
Qed.

(** There is a prime above every integer. *)
Lemma prime_above (z : Z) : exists p, Z.prime p /\ (z < p)%Z.
Proof.
  set (k := Z.to_nat z).
  destruct (prime_divisor (Z.of_nat (fact k) + 1)) as (p & Hp & Hdiv).
  { pose proof (lt_O_fact k). lia. }
  exists p. split; [exact Hp|].
  destruct (Z_lt_le_dec z p) as [Hlt|Hle]; [exact Hlt|exfalso].
  pose proof (Z.prime_ge_2 p Hp) as H2.
  assert (Hpf : (p | Z.of_nat (fact k))%Z).
  { rewrite <- (Z2Nat.id p) by lia. apply divide_fact. unfold k. lia. }
  assert (H1 : (p | 1)%Z).
  { replace 1%Z with (Z.of_nat (fact k) + 1 - Z.of_nat (fact k))%Z by lia.
    apply Z.divide_sub_r; assumption. }
  apply Z.divide_1_r_nonneg in H1; lia.
Qed.

(** The least prime above an integer. *)
Lemma least_prime_above (z : Z) :
  exists p, Z.prime p /\ (z < p)%Z /\ forall c, (z < c < p)%Z -> ~ Z.prime c.
Proof.
  destruct (prime_above z) as (P & HP & HzP).
  assert (H : forall (k : nat) (i : Z),
            (i + Z.of_nat k = P)%Z -> (z < i)%Z ->
            (forall c, (z < c < i)%Z -> ~ Z.prime c) ->
            exists p, Z.prime p /\ (z < p)%Z /\ forall c, (z < c < p)%Z -> ~ Z.prime c).
  { induction k as [|k IH]; intros i Hik Hi Hnone.
    - exists P. replace i with P in * by lia. auto.
    - destruct (prime_decidable i) as [Hp|Hn].
      + exists i. auto.
      + apply (IH (i + 1)%Z); [lia | lia |].
        intros c Hc. destruct (Z.eq_dec c i) as [->|Hne]; [exact Hn | apply Hnone; lia]. }
  apply (H (Z.to_nat (P - (z + 1))) (z + 1)%Z); [lia | lia | intros c Hc; lia].
Qed.

(** Counting is exact up to [2^53]. *)
Lemma num_succ_value (q : Q) (zq : bool) (z : Z) :
  q == inject_Z z -> (- 2 ^ 53 <= z + 1 <= 2 ^ 53)%Z ->
  exists q' zq', (Fin q zq + one)%num = Fin q' zq' /\ q' == inject_Z (z + 1).
Proof.
  intros Hq Hz.
  pose proof (num_add_int (Fin q zq) one z 1 Hq (has_value_of_Z 1) Hz) as H.
  destruct (Fin q zq + one)%num as [| |q' zq']; try contradiction.
  exists q', zq'. split; [reflexivity | exact H].
Qed.

(** The search stops at the least prime above its starting point. *)
Lemma nextPrime_loop_finds (p : Z) :
  Z.prime p ->
  forall (k : nat) (q : Q) (zq : bool) (z : Z) (fuel : nat),
    q == inject_Z z -> (z + 1 + Z.of_nat k = p)%Z ->
    (- 2 ^ 53 <= z)%Z -> (p <= 2 ^ 53)%Z ->
    (forall c, (z < c < p)%Z -> ~ Z.prime c) ->
    (k + 1 + Z.to_nat (Z.sqrt p) <= fuel)%nat ->
    exists r, nextPrime_loop fuel (Fin q zq) = Some r /\ has_value r (inject_Z p).
Proof.
  intros Hp. induction k as [|k IH]; intros q zq z fuel Hq Hk Hlo Hhi Hnone Hfuel;
    (destruct fuel as [|fuel]; [lia|]); cbn [nextPrime_loop];
    destruct (num_succ_value q zq z Hq ltac:(lia)) as (q' & zq' & E & Hq'); rewrite E;
    assert (Hsqrt : (Z.sqrt (z + 1) <= Z.sqrt p)%Z) by (apply Z.sqrt_le_mono; lia);
    destruct (isPrime_value q' zq' (z + 1) fuel Hq') as (b & Hb & Hiff); try lia;
    rewrite Hb.
  - replace b with true.
    + eexists. split; [reflexivity|]. cbn. rewrite Hq'. replace (z + 1)%Z with p by lia.
      reflexivity.
    + symmetry. apply Hiff. replace (z + 1)%Z with p by lia. exact Hp.
  - replace b with false.
    + apply (IH q' zq' (z + 1)%Z fuel Hq'); [lia | lia | lia | | lia].
      intros c Hc. apply Hnone. lia.
    + destruct b; [|reflexivity]. exfalso. apply (Hnone (z + 1)%Z); [lia|].
      apply Hiff. reflexivity.
Qed.

(** X4.  [nextPrime] returns the least prime above its argument: for an
    integer [z] and the least prime [p] above it, both within the integers
    that binary64 counts exactly (from [-2^53] to [2^53]), the search ends
    and yields [p]; such a prime exists above every integer; and an
    argument that is not an integer makes the function throw instead. *)
Theorem nextPrime_least (z : Z) :
  (exists p, Z.prime p /\ (z < p)%Z /\ forall c, (z < c < p)%Z -> ~ Z.prime c)
  /\ (forall p,
        Z.prime p -> (z < p)%Z -> (forall c, (z < c < p)%Z -> ~ Z.prime c) ->
        (- 2 ^ 53 <= z)%Z -> (p <= 2 ^ 53)%Z ->
        exists fuel0, forall fuel, (fuel0 <= fuel)%nat ->
          exists r, nextPrime fuel (num_of_Z z) = Some (Ok r) /\ has_value r (inject_Z p))
  /\ (forall fuel n,
        Number_isInteger n = false ->
        nextPrime fuel n = Some (Throw (Error "Please pass an integer as a parameter"))).
Proof.
  split; [apply least_prime_above|]. split.
  - intros p Hp Hzp Hleast Hlo Hhi.
    exists (Z.to_nat (p - (z + 1)) + 1 + Z.to_nat (Z.sqrt p))%nat. intros fuel Hfuel.
    unfold nextPrime, num_of_Z, num_of_Q, fin.
    rewrite (Number_isInteger_value (inject_Z z) _ z) by reflexivity. cbn [negb].
    destruct (nextPrime_loop_finds p Hp (Z.to_nat (p - (z + 1))) (inject_Z z)
                (if Qeq_bool (inject_Z z) 0 then false else Qneg_bool (inject_Z z)) z fuel)
      as (r & Hr & Hv);
      [reflexivity | lia | exact Hlo | exact Hhi | exact Hleast | exact Hfuel |].
    rewrite Hr. exists r. split; [reflexivity | exact Hv].
  - intros fuel n Hn. unfold nextPrime. rewrite Hn. reflexivity.
Qed.

Lemma not_prime_multiple (a b : Z) : (1 < a)%Z -> (1 < b)%Z -> ~ Z.prime (a * b).
Proof.
  intros Ha Hb [_ H]. apply (H a); [nia | exists b; lia].
Qed.

Lemma prime_17 : Z.prime 17.
Proof.
  destruct (isPrime_value 17 false 17 4) as (b & Hb & Hiff); [reflexivity | cbn; lia |].
  vm_compute in Hb. injection Hb as <-. apply Hiff. reflexivity.
Qed.

Lemma nextPrime_least_witness :
  (exists fuel r, nextPrime fuel (num_of_Z 13) = Some (Ok r) /\ has_value r 17)
  /\ nextPrime 0 (Fin (1 # 2) false)
     = Some (Throw (Error "Please pass an integer as a parameter")).
Proof.
  destruct (nextPrime_least 13) as (_ & Hfind & Hthrow).
  split; [|apply Hthrow; reflexivity].
  destruct (Hfind 17%Z) as (fuel0 & Hfuel0).
  - exact prime_17.
  - lia.
  - intros c Hc.
    assert (Hcases : c = (2 * 7)%Z \/ c = (3 * 5)%Z \/ c = (2 * 8)%Z) by lia.
    destruct Hcases as [->|[->| ->]]; apply not_prime_multiple; lia.
  - lia.
  - lia.
  - destruct (Hfuel0 fuel0 (le_n _)) as (r & Hr & Hv).
    exists fuel0, r. split; [exact Hr | exact Hv].
Defined.

(** The prime after 13, computed. *)
Lemma nextPrime_13 :
  match nextPrime 8 (num_of_Z 13) with
  | Some (Ok r) => has_value r 17
  | _ => False
  end.
Proof. vm_compute. reflexivity. Qed.

(** *** floor *)

(** The integer part lies within one of the number, on the side of zero. *)
Lemma Qtrunc_bounds (x : Q) :
  (0 <= x -> 0 <= inject_Z (Qtrunc x) /\ inject_Z (Qtrunc x) <= x /\ x < inject_Z (Qtrunc x) + 1)
  /\ (x <= 0 -> inject_Z (Qtrunc x) <= 0 /\ x <= inject_Z (Qtrunc x)
                /\ inject_Z (Qtrunc x) - 1 < x).
Proof.
  unfold Qtrunc. split; intros Hx.
  - apply Qle_bool_iff in Hx. rewrite Hx. apply Qle_bool_iff in Hx.
    pose proof (Qfloor_le x) as H1. pose proof (Qlt_floor x) as H2.
    rewrite inject_Z_plus in H2. change (inject_Z 1) with 1 in H2.
    split; [|split; assumption].
    change 0 with (inject_Z 0). rewrite <- Zle_Qle.
    rewrite <- (Qfloor_Z 0). apply Qfloor_resp_le. exact Hx.
  - destruct (Qle_bool 0 x) eqn:E.
    + apply Qle_bool_iff in E. assert (E0 : x == 0) by lra.
      rewrite (Qfloor_comp _ _ E0). change (Qfloor 0) with 0%Z.
      change (inject_Z 0) with 0. lra.
    + pose proof (Qle_ceiling x) as H1. pose proof (Qceiling_lt x) as H2.
      rewrite inject_Z_sub in H2. change (inject_Z 1) with 1 in H2.
      split; [|split; assumption].
      change 0 with (inject_Z 0). rewrite <- Zle_Qle.
      rewrite <- (Qceiling_Z 0). apply Qceiling_resp_le. exact Hx.
Qed.

Lemma Qtrunc_comp (x y : Q) : x == y -> Qtrunc x = Qtrunc y.
Proof.
  intros E. unfold Qtrunc.
  replace (Qle_bool 0 y) with (Qle_bool 0 x).
  - destruct (Qle_bool 0 x); [apply Qfloor_comp | apply Qceiling_comp]; exact E.
  - destruct (Qle_bool 0 x) eqn:Ex, (Qle_bool 0 y) eqn:Ey; try reflexivity; Qcases; lra.
Qed.

Lemma Qtrunc_Z (k : Z) : Qtrunc (inject_Z k) = k.
Proof. unfold Qtrunc. destruct (Qle_bool 0 (inject_Z k)); [apply Qfloor_Z | apply Qceiling_Z]. Qed.

(** The remainder has the sign of the dividend and is smaller than the
    divisor. *)
Lemma Qrem_bounds (p r : Q) :
  ~ r == 0 ->
  Qabs (Qrem p r) < Qabs r
  /\ (0 <= p -> 0 <= Qrem p r /\ Qrem p r <= p)
  /\ (p <= 0 -> p <= Qrem p r /\ Qrem p r <= 0).
Proof.
  intros Hr. unfold Qrem.
  set (x := p / r). set (t := inject_Z (Qtrunc x)).
  assert (Hp : p == x * r) by (unfold x; field; exact Hr).
  destruct (Qtrunc_bounds x) as [Hpos Hneg]. fold t in Hpos, Hneg.
  assert (Hrem : p - r * t == r * (x - t)) by (rewrite Hp; ring).
  destruct (Qlt_le_dec 0 r) as [Hr0|Hr0]; [|assert (Hr1 : r < 0) by lra].
  - rewrite (Qabs_pos r) by lra.
    destruct (Qlt_le_dec x 0) as [Hx|Hx].
    + destruct (Hneg ltac:(lra)) as (Ht0 & Ht1 & Ht2).
      assert (Hb : - r < r * (x - t) /\ r * (x - t) <= 0) by nra.
      rewrite Hrem. split; [apply Qabs_Qlt_condition; lra|]. split; intros; nra.
    + destruct (Hpos Hx) as (Ht0 & Ht1 & Ht2).
      assert (Hb : 0 <= r * (x - t) /\ r * (x - t) < r) by nra.
      rewrite Hrem. split; [apply Qabs_Qlt_condition; lra|]. split; intros; nra.
  - rewrite (Qabs_neg r) by lra.
    destruct (Qlt_le_dec x 0) as [Hx|Hx].
    + destruct (Hneg ltac:(lra)) as (Ht0 & Ht1 & Ht2).
      assert (Hb : 0 <= r * (x - t) /\ r * (x - t) < - r) by nra.
      rewrite Hrem. split; [apply Qabs_Qlt_condition; lra|]. split; intros; nra.
    + destruct (Hpos Hx) as (Ht0 & Ht1 & Ht2).
      assert (Hb : r < r * (x - t) /\ r * (x - t) <= 0) by nra.
      rewrite Hrem. split; [apply Qabs_Qlt_condition; lra|]. split; intros; nra.
Qed.

Lemma num_rem_fin (p r : Q) (zp zr : bool) :
  ~ r == 0 -> exists z, (Fin p zp mod Fin r zr)%num = Fin (Qrem p r) z.
Proof.
  intros Hr. unfold num_rem, fin.
  destruct (Qeq_bool r 0) eqn:E; [apply Qeq_bool_iff in E; contradiction|].
  eexists. reflexivity.
Qed.

(** The remainder is exact, so the difference that [floor] rounds is the
    multiple of the radix itself. *)
Lemma floor_round (p r : Q) (zp zr : bool) :
  ~ r == 0 ->
  exists z, floor (Fin p zp) (Fin r zr) = round64 (r * inject_Z (Qtrunc (p / r))) z.
Proof.
  intros Hr. unfold floor.
  destruct (num_rem_fin p r zp zr Hr) as [z E]. rewrite E.
  destruct (num_sub_round p (Qrem p r) zp z) as [z' E']. rewrite E'.
  exists z'. apply round64_comp. unfold Qrem. ring.
Qed.

(** X5.  For a finite [n] and a finite non-zero [radix], [floor] returns
    the binary64 value nearest to the multiple of [radix] next to [n] on
    the side of zero: that multiple is [radix] times an integer, less than
    [|radix|] away from [n], and between zero and [n] (so above [n] when
    [n] is negative).  A zero radix gives NaN. *)
Theorem floor_multiple (n radix : num) (p r : Q) :
  has_value n p -> has_value radix r ->
  (~ r == 0 ->
   exists (k : Z) (z : bool),
     floor n radix = round64 (r * inject_Z k) z
     /\ Qabs (p - r * inject_Z k) < Qabs r
     /\ (0 <= p -> 0 <= r * inject_Z k /\ r * inject_Z k <= p)
     /\ (p <= 0 -> p <= r * inject_Z k /\ r * inject_Z k <= 0))
  /\ (r == 0 -> floor n radix = NaN).
Proof.
  intros Hn Hradix.
  destruct n as [| |p0 zp]; try contradiction.
  destruct radix as [| |r0 zr]; try contradiction.
  cbn [has_value] in Hn, Hradix. split.
  - intros Hr. assert (Hr0 : ~ r0 == 0) by (rewrite Hradix; exact Hr).
    destruct (floor_round p0 r0 zp zr Hr0) as (z & E).
    exists (Qtrunc (p / r)), z.
    assert (Et : Qtrunc (p0 / r0) = Qtrunc (p / r))
      by (apply Qtrunc_comp; rewrite Hn, Hradix; reflexivity).
    rewrite Et in E.
    split; [rewrite E; apply round64_comp; rewrite Hradix; reflexivity|].
    destruct (Qrem_bounds p r Hr) as (Habs & Hpos & Hneg). unfold Qrem in *.
    split; [exact Habs|].
    split; intros Hp; [destruct (Hpos Hp) | destruct (Hneg Hp)]; split; lra.
  - intros Hr. unfold floor, num_rem.
    assert (E : Qeq_bool r0 0 = true) by (apply Qeq_bool_iff; rewrite Hradix; exact Hr).
    rewrite E. reflexivity.
Qed.

Lemma floor_multiple_witness :
  (exists (k : Z) (z : bool),
     floor (num_of_Z (-7)) (binary64 (1 # 10)) = round64 ((3602879701896397 # 36028797018963968) * inject_Z k) z)
  /\ floor (num_of_Z 7) zero = NaN.
Proof.
  split.
  - destruct (proj1 (floor_multiple (num_of_Z (-7)) (binary64 (1 # 10)) (- (7 # 1))
                       (3602879701896397 # 36028797018963968)
                       ltac:(vm_compute; reflexivity) ltac:(vm_compute; reflexivity))
                ltac:(discriminate))
      as (k & z & H & _).
    exists k, z. exact H.
  - apply (proj2 (floor_multiple (num_of_Z 7) zero (7 # 1) 0
                    ltac:(reflexivity) ltac:(reflexivity))).
    reflexivity.
Defined.

(** Rounding -7 to a multiple of 5 gives -5, not -10. *)
Example floor_negative : has_value (floor (num_of_Z (-7)) (num_of_Z 5)) (- (5 # 1)).
Proof. vm_compute. reflexivity. Qed.

(** The multiple is rounded: 0.513 is floored to 0.5, which is not a
    multiple of the binary64 value of 0.1, and flooring 0.5 gives 0.4. *)
Example floor_rounded :
  floor (binary64 (513 # 1000)) (binary64 (1 # 10)) = binary64 (1 # 2)
  /\ floor (binary64 (1 # 2)) (binary64 (1 # 10)) = binary64 (4 # 10).
Proof. split; vm_compute; reflexivity. Qed.

(** X6.  On integers of at most 53 bits nothing is rounded: for an integer
    [a] and a non-zero integer radix [b], [floor] returns the multiple
    [b * k] of [b] next to [a] on the side of zero, and flooring that
    result again returns it as it is. *)
Theorem floor_idempotent (n radix : num) (a b : Z) :
  has_value n (inject_Z a) -> has_value radix (inject_Z b) -> b <> 0%Z ->
  (- 2 ^ 53 <= a <= 2 ^ 53)%Z ->
  exists k : Z,
    has_value (floor n radix) (inject_Z (b * k))
    /\ (Z.abs (a - b * k) < Z.abs b)%Z
    /\ (0 <= a -> 0 <= b * k <= a)%Z
    /\ (a <= 0 -> a <= b * k <= 0)%Z
    /\ has_value (floor (floor n radix) radix) (inject_Z (b * k)).
Proof.
  intros Hn Hradix Hb Ha.
  destruct n as [| |p zp]; try contradiction.
  destruct radix as [| |r zr]; try contradiction.
  cbn [has_value] in Hn, Hradix.
  assert (Hr : ~ r == 0) by (rewrite Hradix; apply inject_Z_nonzero; exact Hb).
  set (k := Qtrunc (p / r)).
  assert (Hmul : r * inject_Z k == inject_Z (b * k))
    by (rewrite Hradix, inject_Z_mult; reflexivity).
  destruct (Qrem_bounds p r Hr) as (Habs & Hpos & Hneg).
  unfold Qrem in Habs, Hpos, Hneg. fold k in Habs, Hpos, Hneg.
  rewrite Hmul, Hn in Habs, Hpos, Hneg. rewrite Hradix in Habs.
  assert (Zpos : (0 <= a -> 0 <= b * k <= a)%Z).
  { intros H0. destruct Hpos as [H1 H2].
    - change 0 with (inject_Z 0). rewrite <- Zle_Qle. exact H0.
    - rewrite <- inject_Z_sub in H1, H2.
      change 0 with (inject_Z 0) in H1. rewrite <- Zle_Qle in H1, H2. lia. }
  assert (Zneg : (a <= 0 -> a <= b * k <= 0)%Z).
  { intros H0. destruct Hneg as [H1 H2].
    - change 0 with (inject_Z 0). rewrite <- Zle_Qle. exact H0.
    - rewrite <- inject_Z_sub in H1, H2.
      change 0 with (inject_Z 0) in H2. rewrite <- Zle_Qle in H1, H2. lia. }
  assert (Zabs : (Z.abs (a - b * k) < Z.abs b)%Z).
  { rewrite <- inject_Z_sub in Habs.
    change (inject_Z (Z.abs (a - b * k)) < inject_Z (Z.abs b)) in Habs.
    rewrite <- Zlt_Qlt in Habs. exact Habs. }
  assert (Bk : (- 2 ^ 53 <= b * k <= 2 ^ 53)%Z) by lia.
  destruct (floor_round p r zp zr Hr) as (z & E). fold k in E.
  assert (H1 : has_value (floor (Fin p zp) (Fin r zr)) (inject_Z (b * k))).
  { rewrite E. apply has_value_round64; assumption. }
  exists k. split; [exact H1|]. split; [exact Zabs|]. split; [exact Zpos|].
  split; [exact Zneg|].
  destruct (floor (Fin p zp) (Fin r zr)) as [| |q zq]; try contradiction.
  cbn [has_value] in H1.
  destruct (floor_round q r zq zr Hr) as (z' & E'). rewrite E'.
  assert (Et : Qtrunc (q / r) = k).
  { transitivity (Qtrunc (inject_Z k)); [|apply Qtrunc_Z].
    apply Qtrunc_comp. rewrite H1, <- Hmul. field. exact Hr. }
  rewrite Et. apply has_value_round64; assumption.
Qed.

Lemma floor_idempotent_witness :
  exists k : Z,
    has_value (floor (num_of_Z 22) (num_of_Z 5)) (inject_Z (5 * k))
    /\ has_value (floor (floor (num_of_Z 22) (num_of_Z 5)) (num_of_Z 5)) (inject_Z (5 * k)).
Proof.
  destruct (floor_idempotent (num_of_Z 22) (num_of_Z 5) 22 5) as (k & H1 & _ & _ & _ & H2).
  - reflexivity.
  - reflexivity.
  - discriminate.
  - lia.
  - exists k. split; assumption.
Defined.

(** ** More of findLineEndpoints *)

Lemma In_sort_insert {A : Type} (compare : A -> A -> num) (a b : A) (l : list A) :
  In a (sort_insert compare b l) <-> a = b \/ In a l.
Proof.
  induction l as [|c l IH]; cbn [sort_insert].
  - cbn. intuition congruence.
  - destruct (positive (compare b c)); cbn [In]; [rewrite IH|]; intuition congruence.
Qed.

Lemma In_sort {A : Type} (compare : A -> A -> num) (a : A) (l : list A) :
  In a (sort compare l) <-> In a l.
Proof.
  unfold sort. induction l as [|b l IH]; cbn [fold_right In]; [reflexivity|].
  rewrite In_sort_insert, IH. intuition congruence.
Qed.

Lemma length_sort_insert {A : Type} (compare : A -> A -> num) (b : A) (l : list A) :
  List.length (sort_insert compare b l) = S (List.length l).
Proof.
  induction l as [|c l IH]; cbn [sort_insert]; [reflexivity|].
  destruct (positive (compare b c)); cbn [List.length]; [rewrite IH|]; reflexivity.
Qed.

Lemma length_sort {A : Type} (compare : A -> A -> num) (l : list A) :
  List.length (sort compare l) = List.length l.
Proof.
  unfold sort. induction l as [|b l IH]; cbn [fold_right List.length]; [reflexivity|].
  rewrite length_sort_insert, IH. reflexivity.
Qed.

(** What is kept was a candidate, and at most two are kept. *)
Lemma first_and_last_In (l : list PointTuple) (p : PointTuple) :
  In p (first_and_last l) -> In p l.
Proof.
  unfold first_and_last. destruct (Nat.ltb 2 (List.length l)) eqn:E; [|trivial].
  apply Nat.ltb_lt in E. cbn [In].
  intros [<-|[<-|[]]]; apply (In_sort by_x_then_y); apply nth_In; rewrite length_sort; lia.
Qed.

Lemma first_and_last_length (l : list PointTuple) :
  List.length (first_and_last l) = Nat.min 2 (List.length l).
Proof.
  unfold first_and_last. destruct (Nat.ltb 2 (List.length l)) eqn:E.
  - apply Nat.ltb_lt in E. cbn [List.length]. lia.
  - apply Nat.ltb_ge in E. lia.
Qed.

Lemma In_push_if {A : Type} (c : bool) (l : list A) (a p : A) :
  In p (push_if c l a) -> In p l \/ (c = true /\ p = a).
Proof.
  unfold push_if. destruct c; [|tauto].
  intros H. apply in_app_or in H. destruct H as [H|[<-|[]]]; auto.
Qed.

(** X10.  For a vertical direction ([x = 0], [y <> 0]) and a viewport
    whose [minY] and top boundary [minY + height] are finite, the endpoints
    are exactly [(0, minY)] and [(0, minY + height)], in this order. *)
Theorem findLineEndpoints_vertical (v : Point) (minX minY width height : num) :
  isFinite minY = true -> isFinite (minY + height)%num = true ->
  (x v === zero)%num = true -> (y v === zero)%num = false ->
  findLineEndpoints v minX minY width height = [(zero, minY); (zero, (minY + height)%num)].
Proof.
  intros HminY Htop Hx Hy.
  destruct minY as [| |my zy]; try discriminate.
  unfold findLineEndpoints; cbv zeta. rewrite Hx, Hy. cbn [negb].
  change (Infinity === Infinity)%num with true. cbn [negb].
  destruct (Fin my zy + height)%num as [| |t zt]; try discriminate.
  assert (Hout : forall a : num,
            ((Fin my zy <=? Infinity * a) && (Infinity * a <=? Fin t zt))%num = false).
  { intros a. destruct a as [| [|] |q zq]; cbn; try reflexivity.
    destruct (Qeq_bool q 0); [reflexivity|]. destruct (Qneg_bool q); reflexivity. }
  rewrite !Hout. reflexivity.
Qed.

Lemma findLineEndpoints_vertical_witness :
  findLineEndpoints (mkPoint zero one) (num_of_Z (-4)) (num_of_Z (-3)) (num_of_Z 8) (num_of_Z 6)
  = [(zero, num_of_Z (-3)); (zero, (num_of_Z (-3) + num_of_Z 6)%num)].
Proof. apply findLineEndpoints_vertical; vm_compute; reflexivity. Defined.

(** When [minY + height] overflows, the infinite crossings with the left
    and right boundary lines pass the range test, and one of them is
    returned. *)
Example findLineEndpoints_vertical_overflow :
  let big := binary64 (inject_Z (10 ^ 308)) in
  findLineEndpoints (mkPoint zero one) one big one big
  = [(zero, big); (num_of_Z 2, Infinity)].
Proof. vm_compute. reflexivity. Qed.

(** The candidates when neither component of the direction is zero: the
    crossings with the left and right boundary lines and, unless the slope
    has overflowed, with the bottom and top ones, each kept when it lies
    within the viewport. *)
Lemma findLineEndpoints_slanted (v : Point) (minX minY width height : num) :
  (x v === zero)%num = false -> (y v === zero)%num = false ->
  let slope := (y v / x v)%num in
  let sides :=
    push_if ((minY <=? slope * (minX + width)) && (slope * (minX + width) <=? minY + height))%num
      (push_if ((minY <=? slope * minX) && (slope * minX <=? minY + height))%num
         [] (minX, (slope * minX)%num))
      ((minX + width)%num, (slope * (minX + width))%num) in
  findLineEndpoints v minX minY width height
  = first_and_last
      (if negb (slope === Infinity)%num then
         push_if ((minX <=? (minY + height) / slope)
                  && ((minY + height) / slope <=? minX + width))%num
           (push_if ((minX <=? minY / slope) && (minY / slope <=? minX + width))%num
              sides ((minY / slope)%num, minY))
           (((minY + height) / slope)%num, (minY + height)%num)
       else sides).
Proof.
  intros Hx Hy. unfold findLineEndpoints, first_and_last; cbv zeta.
  rewrite Hx, Hy. cbn [negb].
  destruct (negb (y v / x v === Infinity)%num); reflexivity.
Qed.

(** X11.  For a direction with neither component zero, at most two
    endpoints are returned, and each of them lies on the boundary of the
    viewport: on the left or the right boundary line between bottom and
    top, or on the bottom or the top boundary line between left and
    right.  (The other coordinate is the rounded crossing with the line
    through the origin along the direction.) *)
Theorem findLineEndpoints_on_edges (v : Point) (minX minY width height : num) :
  (x v === zero)%num = false -> (y v === zero)%num = false ->
  let endpoints := findLineEndpoints v minX minY width height in
  (List.length endpoints <= 2)%nat
  /\ forall p, In p endpoints -> on_boundary minX minY width height p.
Proof.
  intros Hx Hy.
  pose proof (findLineEndpoints_slanted v minX minY width height Hx Hy) as E.
  cbv zeta in E |- *. rewrite E. clear E.
  split; [rewrite first_and_last_length; lia|].
  intros p Hin. apply first_and_last_In in Hin.
  destruct (negb (y v / x v === Infinity)%num);
    repeat (apply In_push_if in Hin; destruct Hin as [Hin|[Hc ->]]);
    try (destruct Hin);
    apply andb_true_iff in Hc; destruct Hc as [H1 H2]; unfold on_boundary; cbn [fst snd].
  - left. auto.
  - left. auto.
  - right. auto.
  - right. auto.
  - left. auto.
  - left. auto.
Qed.

Lemma findLineEndpoints_on_edges_witness :
  let endpoints :=
    findLineEndpoints (mkPoint (num_of_Z 3) one) (num_of_Z (-4)) (num_of_Z (-3)) (num_of_Z 8)
      (num_of_Z 6) in
  (List.length endpoints <= 2)%nat
  /\ Forall (on_boundary (num_of_Z (-4)) (num_of_Z (-3)) (num_of_Z 8) (num_of_Z 6)) endpoints.
Proof.
  destruct (findLineEndpoints_on_edges (mkPoint (num_of_Z 3) one)
              (num_of_Z (-4)) (num_of_Z (-3)) (num_of_Z 8) (num_of_Z 6))
    as [Hlen Hin]; try reflexivity.
  split; [exact Hlen | apply Forall_forall; exact Hin].
Defined.

(** The endpoints for the direction (3, 1) in that viewport: the crossings
    with the left and the right boundary, whose ordinates are rounded
    thirds. *)
Example findLineEndpoints_thirds :
  findLineEndpoints (mkPoint (num_of_Z 3) one) (num_of_Z (-4)) (num_of_Z (-3)) (num_of_Z 8)
    (num_of_Z 6)
  = [(num_of_Z (-4), (binary64 (1 # 3) * num_of_Z (-4))%num);
     ((num_of_Z (-4) + num_of_Z 8)%num, (binary64 (1 # 3) * num_of_Z 4)%num)].
Proof. vm_compute. reflexivity. Qed.

(** ** Colors *)

Lemma land_255 (a : Z) : byte (Z.land a 255).
Proof.
  unfold byte. change (Z.land a 255) with (Z.land a (Z.ones 8)). rewrite Z.land_ones by lia.
  change (2 ^ 8)%Z with 256%Z.
  pose proof (Z.mod_pos_bound a 256 ltac:(lia)) as H. lia.
Qed.

Lemma hexToRGB_bytes_shape (hex : string) :
  (exists r g b, hexToRGB hex = [r; g; b] /\ byte r /\ byte g /\ byte b)
  /\ (parseInt16 (strip_prefix "#" hex) = NaN -> hexToRGB hex = [0; 0; 0]%Z).
Proof.
  split.
  - unfold hexToRGB. eexists _, _, _. split; [reflexivity|].
    repeat split; apply land_255.
  - intros E. unfold hexToRGB. rewrite E. reflexivity.
Qed.

(** X13.  Whatever the text, [hexToRGB] returns three components, each
    from 0 to 255; text in which [parseInt] finds no number gives black. *)
Theorem hexToRGB_bytes (hex : string) :
  (exists r g b, hexToRGB hex = [r; g; b] /\ byte r /\ byte g /\ byte b)
  /\ (parseInt16 (strip_prefix "#" hex) = NaN -> hexToRGB hex = [0; 0; 0]%Z).
Proof. exact (hexToRGB_bytes_shape hex). Qed.

Lemma hexToRGB_bytes_witness : hexToRGB "#red" = [0; 0; 0]%Z.
Proof. apply (proj2 (hexToRGB_bytes "#red")). reflexivity. Defined.

(** Two characters write a byte: its sixteens and its units. *)
Lemma byte_text (z : Z) :
  byte z ->
  exists c1 c2,
    padStart 2 "0" (toString16 (Rint z)) = String c1 (String c2 "")
    /\ hex_digit c1 = Some (z / 16)%Z /\ hex_digit c2 = Some (z mod 16)%Z.
Proof.
  intros Hz.
  assert (Hall :
    forallb
      (fun n =>
         let z := Z.of_nat n in
         match padStart 2 "0" (toString16 (Rint z)) with
         | String c1 (String c2 EmptyString) =>
             match hex_digit c1, hex_digit c2 with
             | Some d1, Some d2 => ((d1 =? z / 16) && (d2 =? z mod 16))%Z
             | _, _ => false
             end
         | _ => false
         end) (seq 0 256) = true) by (vm_compute; reflexivity).
  rewrite forallb_forall in Hall.
  specialize (Hall (Z.to_nat z)). cbv zeta in Hall.
  rewrite Z2Nat.id in Hall by (unfold byte in Hz; lia).
  assert (Hin : In (Z.to_nat z) (seq 0 256)) by (apply in_seq; unfold byte in Hz; lia).
  specialize (Hall Hin).
  destruct (padStart 2 "0" (toString16 (Rint z))) as [|c1 [|c2 [|]]]; try discriminate.
  destruct (hex_digit c1) as [d1|] eqn:E1; [|discriminate].
  destruct (hex_digit c2) as [d2|] eqn:E2; [|discriminate].
  apply andb_true_iff in Hall. destruct Hall as [H1 H2].
  apply Z.eqb_eq in H1, H2. exists c1, c2. rewrite E1, E2, H1, H2. repeat split; reflexivity.
Qed.

Lemma prefix_two (a b c1 c2 : ascii) (r : string) :
  String.prefix (String a (String b "")) (String c1 (String c2 r))
  = Ascii.eqb a c1 && Ascii.eqb b c2.
Proof.
  cbn [String.prefix].
  destruct (ascii_dec a c1) as [->|Ha].
  - rewrite Ascii.eqb_refl. destruct (ascii_dec b c2) as [->|Hb].
    + rewrite Ascii.eqb_refl. destruct r; reflexivity.
    + apply Ascii.eqb_neq in Hb. rewrite Hb. reflexivity.
  - apply Ascii.eqb_neq in Ha. rewrite Ha. reflexivity.
Qed.

(** A hexadecimal digit is no white space, no sign and no [x]. *)
Lemma hex_digit_plain (c : ascii) (d : Z) :
  hex_digit c = Some d ->
  is_space c = false /\ Ascii.eqb c "-" = false /\ Ascii.eqb c "+" = false
  /\ Ascii.eqb "x" c = false /\ Ascii.eqb "X" c = false /\ (0 <= d < 16)%Z.
Proof.
  intros H.
  destruct c as [[] [] [] [] [] [] [] []]; vm_compute in H; try discriminate H;
    injection H as <-; vm_compute; repeat split; congruence.
Qed.

(** [parseInt] on text that starts with two hexadecimal digits. *)
Lemma parseInt16_digits (c1 c2 : ascii) (rest : string) (d1 d2 : Z) :
  hex_digit c1 = Some d1 -> hex_digit c2 = Some d2 ->
  parseInt16 (String c1 (String c2 rest))
  = match hex_digits rest (Some (16 * (16 * 0 + d1) + d2)%Z) with
    | Some v => num_of_Z v
    | None => NaN
    end.
Proof.
  intros H1 H2.
  destruct (hex_digit_plain c1 d1 H1) as (S1 & M1 & P1 & _).
  destruct (hex_digit_plain c2 d2 H2) as (_ & _ & _ & X2 & XX2 & _).
  unfold parseInt16. cbn [skip_while]. rewrite S1, M1, P1. cbn [orb].
  rewrite !prefix_two, X2, XX2, !andb_false_r. cbn [orb].
  cbn [hex_digits]. rewrite H1. cbn [hex_digits default_to]. rewrite H2.
  reflexivity.
Qed.

Lemma substring_all (s : string) : substring 0 (String.length s) s = s.
Proof. induction s as [|c s IH]; cbn; [reflexivity | rewrite IH; reflexivity]. Qed.

Lemma strip_prefix_hash (s : string) : strip_prefix "#" (String "#" s) = s.
Proof.
  unfold strip_prefix.
  replace (String.prefix "#" (String "#" s)) with true by (destruct s; reflexivity).
  cbn [String.length]. rewrite Nat.sub_succ, Nat.sub_0_r. cbn [substring]. apply substring_all.
Qed.

Lemma ToInt32_small (v : Z) : (0 <= v < 2 ^ 31)%Z -> ToInt32 (num_of_Z v) = v.
Proof.
  intros Hv. unfold ToInt32, num_of_Z, num_of_Q, fin. rewrite Qtrunc_Z.
  change (2 ^ 31)%Z with 2147483648%Z in *. change (2 ^ 32)%Z with 4294967296%Z.
  rewrite Z.mod_small by lia.
  destruct (2147483648 <=? v)%Z eqn:E; [apply Z.leb_le in E; lia | reflexivity].
Qed.

Lemma rgb_split (r g b : Z) :
  byte r -> byte g -> byte b ->
  Z.land (Z.shiftr (r * 65536 + g * 256 + b) 16) 255 = r
  /\ Z.land (Z.shiftr (r * 65536 + g * 256 + b) 8) 255 = g
  /\ Z.land (r * 65536 + g * 256 + b) 255 = b.
Proof.
  unfold byte. intros Hr Hg Hb.
  change 255%Z with (Z.ones 8). rewrite !Z.land_ones, !Z.shiftr_div_pow2 by lia.
  change (2 ^ 8)%Z with 256%Z. change (2 ^ 16)%Z with 65536%Z.
  repeat split.
  - assert (E : ((r * 65536 + g * 256 + b) / 65536 = r)%Z)
      by (symmetry; apply (Z.div_unique _ _ _ (g * 256 + b)); lia).
    rewrite E. apply Z.mod_small. lia.
  - assert (E : ((r * 65536 + g * 256 + b) / 256 = r * 256 + g)%Z)
      by (symmetry; apply (Z.div_unique _ _ _ b); lia).
    rewrite E. symmetry. apply (Z.mod_unique _ _ r); lia.
  - symmetry. apply (Z.mod_unique _ _ (r * 256 + g)); lia.
Qed.

Lemma hexToRGB_encoded (r g b : Z) :
  byte r -> byte g -> byte b -> hexToRGB (rgb_text r g b) = [r; g; b].
Proof.
  intros Hr Hg Hb.
  destruct (byte_text r Hr) as (r1 & r2 & Er & Hr1 & Hr2).
  destruct (byte_text g Hg) as (g1 & g2 & Eg & Hg1 & Hg2).
  destruct (byte_text b Hb) as (b1 & b2 & Eb & Hb1 & Hb2).
  unfold rgb_text. cbn [map String.concat]. rewrite Er, Eg, Eb. cbn [String.append].
  unfold hexToRGB. rewrite strip_prefix_hash.
  rewrite (parseInt16_digits r1 r2 _ _ _ Hr1 Hr2).
  cbn [hex_digits]. rewrite Hg1. cbn [hex_digits default_to]. rewrite Hg2.
  cbn [hex_digits default_to]. rewrite Hb1. cbn [hex_digits default_to]. rewrite Hb2.
  cbn [hex_digits default_to].
  unfold byte in Hr, Hg, Hb.
  match goal with |- context [num_of_Z ?v] =>
    replace v with (r * 65536 + g * 256 + b)%Z
      by (rewrite (Z.div_mod r 16), (Z.div_mod g 16), (Z.div_mod b 16) at 1 by lia; lia)
  end.
  rewrite ToInt32_small by (change (2 ^ 31)%Z with 2147483648%Z; lia).
  destruct (rgb_split r g b Hr Hg Hb) as (E1 & E2 & E3).
  rewrite E1, E2, E3. reflexivity.
Qed.

(** X14.  Reading back a color written as [#rrggbb] gives its three
    components: [hexToRGB] undoes the encoding that [interpolateColor]
    writes. *)
Theorem hexToRGB_rgb_text (r g b : Z) :
  byte r -> byte g -> byte b -> hexToRGB (rgb_text r g b) = [r; g; b].
Proof. exact (hexToRGB_encoded r g b). Qed.

Lemma hexToRGB_rgb_text_witness : hexToRGB (rgb_text 255 128 0) = [255; 128; 0]%Z.
Proof. apply hexToRGB_rgb_text; unfold byte; lia. Defined.

(** The text that [interpolateColor] writes. *)
Lemma interpolateColor_text (color1 color2 : string) (factor : num)
  (r1 g1 b1 r2 g2 b2 : Z) :
  hexToRGB color1 = [r1; g1; b1] -> hexToRGB color2 = [r2; g2; b2] ->
  interpolateColor color1 color2 (Some factor)
  = rounded_text (channel factor r1 r2) (channel factor g1 g2) (channel factor b1 b2).
Proof.
  intros H1 H2. unfold interpolateColor. rewrite H1, H2. reflexivity.
Qed.

Lemma Math_round_int (a : num) (z : Z) : has_value a (inject_Z z) -> Math_round a = Rint z.
Proof.
  destruct a as [| |q zq]; try contradiction. cbn [has_value Math_round]. intros H.
  f_equal. apply Qfloor_unique; rewrite H; lra.
Qed.

(** With an integer factor the component is computed exactly. *)
Lemma channel_int (factor : num) (k s e : Z) :
  has_value factor (inject_Z k) -> (0 <= k <= 1)%Z -> byte s -> byte e ->
  channel factor s e = Rint (s + k * (e - s)).
Proof.
  unfold byte. intros Hf Hk Hs He. unfold channel. apply Math_round_int.
  assert (B : (- 2 ^ 53 <= -255)%Z /\ (510 <= 2 ^ 53)%Z) by (split; vm_compute; discriminate).
  apply num_add_int; [apply has_value_of_Z| |nia].
  apply num_mul_int; [exact Hf| |nia].
  apply num_sub_int; [apply has_value_of_Z | apply has_value_of_Z | lia].
Qed.

(** With a factor from 0 to 1 the rounded component lies between the two
    ends, whatever the rounding of the product and of the sum. *)
Lemma channel_between (f : Q) (zf : bool) (s e : Z) :
  0 <= f -> f <= 1 -> byte s -> byte e ->
  exists c, channel (Fin f zf) s e = Rint c /\ (Z.min s e <= c <= Z.max s e)%Z.
Proof.
  unfold byte. intros H0 H1 Hs He. unfold channel.
  assert (B : (- 2 ^ 53 <= -255)%Z /\ (510 <= 2 ^ 53)%Z) by (split; vm_compute; discriminate).
  pose proof (num_sub_int (num_of_Z e) (num_of_Z s) e s
                (has_value_of_Z e) (has_value_of_Z s) ltac:(lia)) as Hd.
  destruct (num_of_Z e - num_of_Z s)%num as [| |qd zd]; try contradiction.
  cbn [has_value] in Hd. rewrite inject_Z_sub in Hd.
  assert (Ls : inject_Z 0 <= inject_Z s /\ inject_Z s <= inject_Z 255)
    by (rewrite <- !Zle_Qle; lia).
  assert (Le : inject_Z 0 <= inject_Z e /\ inject_Z e <= inject_Z 255)
    by (rewrite <- !Zle_Qle; lia).
  change (inject_Z 0) with 0 in Ls, Le. change (inject_Z 255) with 255 in Ls, Le.
  (* the product *)
  destruct (num_mul_round f qd zf zd) as [z1 E1]. rewrite E1.
  destruct (round64_bounds (f * qd) z1 (Z.min 0 (e - s)) (Z.max 0 (e - s)))
    as (vm & zm & Em & Hm1 & Hm2); try lia.
  { destruct (Z_le_gt_dec 0 (e - s)) as [L|L].
    - rewrite Z.min_l by lia. change (inject_Z 0) with 0.
      assert (L' : inject_Z s <= inject_Z e) by (rewrite <- Zle_Qle; lia). nra.
    - rewrite Z.min_r, inject_Z_sub by lia.
      assert (L' : inject_Z e <= inject_Z s) by (rewrite <- Zle_Qle; lia). nra. }
  { destruct (Z_le_gt_dec 0 (e - s)) as [L|L].
    - rewrite Z.max_r, inject_Z_sub by lia.
      assert (L' : inject_Z s <= inject_Z e) by (rewrite <- Zle_Qle; lia). nra.
    - rewrite Z.max_l by lia. change (inject_Z 0) with 0.
      assert (L' : inject_Z e <= inject_Z s) by (rewrite <- Zle_Qle; lia). nra. }
  rewrite Em.
  (* the sum *)
  unfold num_of_Z, num_of_Q, fin.
  destruct (num_add_round (inject_Z s) vm
              (if Qeq_bool (inject_Z s) 0 then false else Qneg_bool (inject_Z s)) zm)
    as [z2 E2].
  rewrite E2.
  assert (Hsum : inject_Z (Z.min s e) <= inject_Z s + vm
                 /\ inject_Z s + vm <= inject_Z (Z.max s e)).
  { destruct (Z_le_gt_dec 0 (e - s)) as [L|L].
    - rewrite Z.min_l, Z.max_r in * by lia. rewrite inject_Z_sub in Hm2.
      change (inject_Z 0) with 0 in Hm1. split; lra.
    - rewrite Z.min_r, Z.max_l in * by lia. rewrite inject_Z_sub in Hm1.
      change (inject_Z 0) with 0 in Hm2. split; lra. }
  destruct (round64_bounds (inject_Z s + vm) z2 (Z.min s e) (Z.max s e))
    as (vs & zs & Es & Hs1 & Hs2); try lia; try tauto.
  rewrite Es. cbn [Math_round]. eexists. split; [reflexivity|]. split.
  - rewrite <- (Qfloor_Z (Z.min s e)). apply Qfloor_resp_le. lra.
  - pose proof (Qfloor_le (vs + (1 # 2))) as F.
    assert (L : inject_Z (Qfloor (vs + (1 # 2))) < inject_Z (Z.max s e + 1)).
    { rewrite inject_Z_plus. change (inject_Z 1) with 1. lra. }
    rewrite <- Zlt_Qlt in L. lia.
Qed.

(** X15.  With a factor from 0 to 1, [interpolateColor] writes a color
    [#rrggbb] that reads back as three components, each between the two
    components it is mixed from, whatever the rounding of the arithmetic. *)
Theorem interpolateColor_decodes (color1 color2 : string) (f : Q) (zf : bool) :
  0 <= f -> f <= 1 ->
  exists r1 g1 b1 r2 g2 b2 r g b,
    hexToRGB color1 = [r1; g1; b1] /\ hexToRGB color2 = [r2; g2; b2]
    /\ interpolateColor color1 color2 (Some (Fin f zf)) = rgb_text r g b
    /\ hexToRGB (interpolateColor color1 color2 (Some (Fin f zf))) = [r; g; b]
    /\ (Z.min r1 r2 <= r <= Z.max r1 r2)%Z
    /\ (Z.min g1 g2 <= g <= Z.max g1 g2)%Z
    /\ (Z.min b1 b2 <= b <= Z.max b1 b2)%Z.
Proof.
  intros H0 H1.
  destruct (proj1 (hexToRGB_bytes_shape color1)) as (r1 & g1 & b1 & E1 & Hr1 & Hg1 & Hb1).
  destruct (proj1 (hexToRGB_bytes_shape color2)) as (r2 & g2 & b2 & E2 & Hr2 & Hg2 & Hb2).
  destruct (channel_between f zf r1 r2 H0 H1 Hr1 Hr2) as (r & Er & Mr).
  destruct (channel_between f zf g1 g2 H0 H1 Hg1 Hg2) as (g & Eg & Mg).
  destruct (channel_between f zf b1 b2 H0 H1 Hb1 Hb2) as (b & Eb & Mb).
  exists r1, g1, b1, r2, g2, b2, r, g, b. split; [exact E1|]. split; [exact E2|].
  assert (Et : interpolateColor color1 color2 (Some (Fin f zf)) = rgb_text r g b).
  { rewrite (interpolateColor_text _ _ _ _ _ _ _ _ _ E1 E2), Er, Eg, Eb. reflexivity. }
  split; [exact Et|]. split; [|auto].
  rewrite Et. unfold byte in *. apply hexToRGB_encoded; unfold byte; lia.
Qed.

Lemma interpolateColor_decodes_witness :
  exists r g b,
    hexToRGB (interpolateColor "#000000" "#000005" (Some (binary64 (3 # 10)))) = [r; g; b]
    /\ (0 <= b <= 5)%Z.
Proof.
  destruct (interpolateColor_decodes "#000000" "#000005" (5404319552844595 # 18014398509481984)
              false)
    as (r1 & g1 & b1 & r2 & g2 & b2 & r & g & b & E1 & E2 & _ & E3 & _ & _ & Mb);
    [discriminate | discriminate |].
  vm_compute in E1, E2. injection E1 as <- <- <-. injection E2 as <- <- <-.
  exists r, g, b. split; [exact E3 | exact Mb].
Defined.

(** The products are rounded before the components are: three tenths of
    the way from 0 to 5 is 1.5 in binary64, which rounds to 2. *)
Example interpolateColor_rounded :
  interpolateColor "#000000" "#000005" (Some (binary64 (3 # 10))) = "#000002".
Proof. vm_compute. reflexivity. Qed.

(** X16.  A factor of 0 gives back the first color and a factor of 1 the
    second, when that color is written as [#rrggbb] in lower case. *)
Theorem interpolateColor_ends (r g b : Z) (other : string) :
  byte r -> byte g -> byte b ->
  interpolateColor (rgb_text r g b) other (Some zero) = rgb_text r g b
  /\ interpolateColor other (rgb_text r g b) (Some one) = rgb_text r g b.
Proof.
  intros Hr Hg Hb.
  pose proof (hexToRGB_encoded r g b Hr Hg Hb) as E.
  destruct (proj1 (hexToRGB_bytes_shape other)) as (r2 & g2 & b2 & E2 & Hr2 & Hg2 & Hb2).
  split.
  - rewrite (interpolateColor_text _ _ _ _ _ _ _ _ _ E E2).
    rewrite !(channel_int zero 0) by (try apply has_value_of_Z; try assumption; lia).
    rewrite !Z.mul_0_l, !Z.add_0_r. reflexivity.
  - rewrite (interpolateColor_text _ _ _ _ _ _ _ _ _ E2 E).
    rewrite !(channel_int one 1) by (try apply has_value_of_Z; try assumption; lia).
    replace (r2 + 1 * (r - r2))%Z with r by lia.
    replace (g2 + 1 * (g - g2))%Z with g by lia.
    replace (b2 + 1 * (b - b2))%Z with b by lia.
    reflexivity.
Qed.

Lemma interpolateColor_ends_witness :
  interpolateColor (rgb_text 255 128 0) "#123456" (Some zero) = rgb_text 255 128 0.
Proof. apply (interpolateColor_ends 255 128 0 "#123456"); unfold byte; lia. Defined.

(** Examples: the midpoint of black and white, and a factor beyond 1, for
    which the components leave the range of a byte. *)
Lemma interpolateColor_midpoint : interpolateColor "#000000" "#FFFFFF" None = "#808080".
Proof. vm_compute. reflexivity. Qed.

Lemma interpolateColor_beyond :
  interpolateColor "#808080" "#ffffff" (Some (num_of_Z 2)) = "#17e17e17e".
Proof. vm_compute. reflexivity. Qed.

(** ** More about matching *)

(** A full run is a run of deep matches, pair by pair. *)
Lemma run_length_full (nodes : list element) :
  forall siblings,
    run_length siblings nodes = List.length nodes <->
    Forall2 (fun c s => nodeMatches c s = true)
      (firstn (List.length nodes) (map snd siblings)) nodes.
Proof.
  induction nodes as [|n nodes IH]; intros siblings; cbn [List.length].
  - destruct siblings as [|[h c] siblings]; cbn; split; auto.
  - destruct siblings as [|[h c] siblings]; cbn [run_length map snd firstn].
    + split; [discriminate | intros H; inversion H].
    + destruct (nodeMatches c n) eqn:E.
      * split.
        -- intros H. injection H as H. constructor; [exact E | apply IH; exact H].
        -- intros H. inversion H; subst. f_equal. apply IH. assumption.
      * split; [discriminate | intros H; inversion H; congruence].
Qed.

(** The test that ends the scan: the last subtree node reached is the
    subtree's last child exactly when the run is full. *)
Lemma sequential_full (subtree : element) (siblings : list (path * element)) :
  (let '(potentialMatch, lastMatch) := sequential siblings (children subtree) 0 [] None in
   if option_nat_eqb lastMatch (lastChild_index subtree) then [potentialMatch] else [])
  = if Nat.eqb (run_length siblings (children subtree)) (List.length (children subtree))
    then [map fst (firstn (List.length (children subtree)) siblings)]
    else [].
Proof.
  rewrite sequential_run. cbn [app]. unfold lastChild_index.
  pose proof (run_length_le (children subtree) siblings) as Hle.
  destruct (run_length siblings (children subtree)) as [|k] eqn:Er;
    destruct (List.length (children subtree)) as [|n] eqn:En; cbn [option_nat_eqb Nat.eqb];
    try reflexivity; try lia.
  cbn [Nat.add]. destruct (Nat.eqb k n) eqn:E; [|reflexivity].
  apply Nat.eqb_eq in E. subst. reflexivity.
Qed.

(** What the first loop of [traverse] reports. *)
Lemma In_match_children (subtree : element) (m : list path) :
  forall siblings,
    In m (match_children subtree siblings) <->
    exists k h c,
      nth_error siblings k = Some (h, c)
      /\ ((nodeMatches c subtree = true /\ m = [h])
          \/ (run_length (skipn k siblings) (children subtree)
              = List.length (children subtree)
              /\ m = map fst (firstn (List.length (children subtree)) (skipn k siblings)))).
Proof.
  induction siblings as [|[h c] rest IH].
  - cbn. split; [contradiction|]. intros (k & h & c & H & _). destruct k; discriminate.
  - cbn [match_children]. rewrite sequential_full, !in_app_iff, IH. split.
    + intros [H|[H|H]].
      * exists 0%nat, h, c. split; [reflexivity|]. left.
        destruct (nodeMatches c subtree); [|contradiction].
        destruct H as [<-|[]]. auto.
      * exists 0%nat, h, c. split; [reflexivity|]. right. cbn [skipn].
        destruct (Nat.eqb _ _) eqn:E; [|contradiction].
        apply Nat.eqb_eq in E. destruct H as [<-|[]]. auto.
      * destruct H as (k & h' & c' & Hk & H). exists (S k), h', c'. auto.
    + intros (k & h' & c' & Hk & H). destruct k as [|k].
      * cbn [nth_error] in Hk. injection Hk as <- <-. cbn [skipn] in H.
        destruct H as [[Hd ->]|[Hr ->]].
        -- left. rewrite Hd. left. reflexivity.
        -- right. left. rewrite Hr, Nat.eqb_refl. left. reflexivity.
      * right. right. exists k, h', c'. auto.
Qed.

Lemma map_seq_from {A : Type} (f : nat -> A) (n : nat) :
  forall k, map f (seq k n) = map (fun j => f (k + j)%nat) (seq 0 n).
Proof.
  induction n as [|n IH]; intros k; [reflexivity|].
  cbn [seq map]. rewrite Nat.add_0_r. f_equal.
  rewrite IH, <- seq_shift, map_map. apply map_ext. intros j. f_equal. lia.
Qed.

(** Children with their handles, from index [i0] on. *)
Section Handles.

Variable prefix : path.

Abbreviation handle := (child_handle prefix).

Lemma handles_nth (cs : list element) :
  forall i0 k,
    nth_error (combine (map handle (seq i0 (List.length cs))) cs) k
    = option_map (fun c => (handle (i0 + k), c)) (nth_error cs k).
Proof.
  induction cs as [|c cs IH]; intros i0 k; cbn [List.length seq map combine].
  - destruct k; reflexivity.
  - destruct k as [|k]; cbn [nth_error option_map].
    + rewrite Nat.add_0_r. reflexivity.
    + rewrite IH. replace (S i0 + k)%nat with (i0 + S k)%nat by lia. reflexivity.
Qed.

Lemma handles_skipn (cs : list element) :
  forall i0 k,
    skipn k (combine (map handle (seq i0 (List.length cs))) cs)
    = combine (map handle (seq (i0 + k) (List.length (skipn k cs)))) (skipn k cs).
Proof.
  induction cs as [|c cs IH]; intros i0 k; cbn [List.length seq map combine].
  - destruct k; reflexivity.
  - destruct k as [|k]; cbn [skipn].
    + rewrite Nat.add_0_r. reflexivity.
    + rewrite IH. replace (S i0 + k)%nat with (i0 + S k)%nat by lia. reflexivity.
Qed.

Lemma handles_firstn (cs : list element) :
  forall i0 n,
    (n <= List.length cs)%nat ->
    map fst (firstn n (combine (map handle (seq i0 (List.length cs))) cs))
    = map handle (seq i0 n).
Proof.
  induction cs as [|c cs IH]; intros i0 n Hn; cbn [List.length] in Hn.
  - replace n with 0%nat by lia. reflexivity.
  - destruct n as [|n]; [reflexivity|].
    cbn [List.length seq map combine firstn fst]. f_equal. apply IH. lia.
Qed.

Lemma with_handles_nth (cs : list element) (k : nat) :
  nth_error (with_handles prefix cs) k
  = option_map (fun c => (prefix ++ [k], c)) (nth_error cs k).
Proof. exact (handles_nth cs 0 k). Qed.

Lemma with_handles_skipn_snd (cs : list element) (k : nat) :
  map snd (skipn k (with_handles prefix cs)) = skipn k cs.
Proof.
  change (with_handles prefix cs) with (combine (map handle (seq 0 (List.length cs))) cs).
  rewrite (handles_skipn cs 0 k).
  apply map_snd_combine. rewrite length_map, length_seq. reflexivity.
Qed.

Lemma with_handles_run (cs : list element) (k n : nat) :
  (k + n <= List.length cs)%nat ->
  map fst (firstn n (skipn k (with_handles prefix cs)))
  = map (fun j => prefix ++ [(k + j)%nat]) (seq 0 n).
Proof.
  intros H.
  change (with_handles prefix cs) with (combine (map handle (seq 0 (List.length cs))) cs).
  rewrite (handles_skipn cs 0 k).
  rewrite handles_firstn by (rewrite length_skipn; lia).
  cbn [Nat.add]. apply (map_seq_from handle).
Qed.

End Handles.

Lemma In_traverse_children (f : path -> element -> list (list path)) (prefix : path)
  (m : list path) (cs : list element) :
  forall i0,
    In m (traverse_children f prefix i0 cs) <->
    exists j c, nth_error cs j = Some c /\ In m (f (prefix ++ [(i0 + j)%nat]) c).
Proof.
  induction cs as [|c cs IH]; intros i0; cbn [traverse_children].
  - split; [contradiction|]. intros (j & c & H & _). destruct j; discriminate.
  - rewrite in_app_iff, IH. split.
    + intros [H|(j & c' & Hj & H)].
      * exists 0%nat, c. rewrite Nat.add_0_r. auto.
      * exists (S j), c'. replace (i0 + S j)%nat with (S i0 + j)%nat by lia. auto.
    + intros (j & c' & Hj & H). destruct j as [|j].
      * cbn in Hj. injection Hj as <-. rewrite Nat.add_0_r in H. auto.
      * right. exists j, c'. replace (S i0 + j)%nat with (i0 + S j)%nat by lia. auto.
Qed.

(** What the first loop reports for the children of one element. *)
Lemma In_match_level (subtree : element) (prefix : path) (cs : list element) (m : list path) :
  In m (match_children subtree (with_handles prefix cs)) <->
  exists k,
    (k < List.length cs)%nat
    /\ ((exists c, nth_error cs k = Some c /\ nodeMatches c subtree = true
                   /\ m = [prefix ++ [k]])
        \/ (Forall2 (fun c s => nodeMatches c s = true)
              (firstn (List.length (children subtree)) (skipn k cs)) (children subtree)
            /\ m = map (fun j => prefix ++ [(k + j)%nat])
                     (seq 0 (List.length (children subtree))))).
Proof.
  rewrite In_match_children. split.
  - intros (k & h & c & Hk & H). rewrite with_handles_nth in Hk.
    destruct (nth_error cs k) as [c'|] eqn:Ec; [|discriminate].
    cbn in Hk. injection Hk as <- <-.
    assert (Hlt : (k < List.length cs)%nat) by (apply nth_error_Some; congruence).
    exists k. split; [exact Hlt|].
    destruct H as [[Hd ->]|[Hr ->]]; [left; eauto|right].
    apply run_length_full in Hr. rewrite with_handles_skipn_snd in Hr.
    split; [exact Hr|].
    apply with_handles_run.
    apply Forall2_length in Hr. rewrite length_firstn, length_skipn in Hr. lia.
  - intros (k & Hlt & H).
    destruct (nth_error cs k) as [c|] eqn:Ec; [|apply nth_error_None in Ec; lia].
    exists k, (prefix ++ [k]), c. split; [rewrite with_handles_nth, Ec; reflexivity|].
    destruct H as [(c' & Hc' & Hd & ->)|[Hr ->]].
    + left. split; [congruence | reflexivity].
    + right. split.
      * apply run_length_full. rewrite with_handles_skipn_snd. exact Hr.
      * symmetry. apply with_handles_run.
        apply Forall2_length in Hr. rewrite length_firstn, length_skipn in Hr. lia.
Qed.

(** The matcher reports exactly the matches of the pattern. *)
Lemma In_traverse (subtree : element) (m : list path) (node : element) :
  forall prefix, In m (traverse subtree prefix node) <-> is_match subtree prefix node m.
Proof.
  induction node as [t a s cs IH] using element_induction. intros prefix.
  cbn [traverse]. rewrite in_app_iff, In_match_level, In_traverse_children.
  rewrite Forall_forall in IH. unfold is_match. split.
  - intros [(k & Hlt & H)|(i & c & Hi & H)].
    + exists [], (Element t a s cs), k. cbn [get children app]. auto.
    + apply (IH c (nth_error_In _ _ Hi)) in H.
      destruct H as (r & parent & k & Hget & Hlt & H).
      exists (i :: r), parent, k. cbn [get children]. rewrite Hi.
      split; [exact Hget|]. split; [exact Hlt|].
      cbn [Nat.add] in H. rewrite <- !app_assoc in H. cbn [app] in H.
      destruct H as [(c' & Hc' & Hd & ->)|[Hr ->]]; [left; eauto|right].
      split; [exact Hr|]. apply map_ext. intros j. rewrite <- app_assoc. reflexivity.
  - intros (r & parent & k & Hget & Hlt & H). destruct r as [|i r].
    + cbn [get] in Hget. injection Hget as <-. cbn [children app] in *. left. eauto.
    + cbn [get children] in Hget.
      destruct (nth_error cs i) as [c|] eqn:Hi; [|discriminate].
      right. exists i, c. split; [exact Hi|]. cbn [Nat.add].
      apply (IH c (nth_error_In _ _ Hi)).
      exists r, parent, k. split; [exact Hget|]. split; [exact Hlt|].
      rewrite <- !app_assoc. cbn [app].
      destruct H as [(c' & Hc' & Hd & ->)|[Hr ->]]; [left; eauto|right].
      split; [exact Hr|]. apply map_ext. intros j. rewrite <- app_assoc. reflexivity.
Qed.

(** X17.  [findSubtreeMatches] reports exactly the matches of the pattern
    in the tree: below any element of the tree, every child that
    deep-matches the pattern, and every run of consecutive children, as
    many as the pattern has, that deep-match the pattern's children in
    order. *)
Theorem findSubtreeMatches_exact (rootHandle : path) (root subtree : element) :
  exists matches,
    findSubtreeMatches rootHandle (Some root) (Some subtree) = Ok matches
    /\ forall m, In m matches <-> is_match subtree rootHandle root m.
Proof.
  eexists. split; [reflexivity|]. intros m. apply In_traverse.
Qed.

(** ** More about recolouring *)

(** Two trees that hold the same at every handle are the same tree. *)
Lemma own_at_ext (a : element) :
  forall b, (forall q, own_at a q = own_at b q) -> a = b.
Proof.
  induction a as [t at_ s cs IH] using element_induction.
  intros [t' at' s' cs'] H.
  pose proof (H []) as H0. cbn in H0. injection H0 as -> -> ->.
  f_equal.
  assert (Hc : forall i q,
            match nth_error cs i with Some c => own_at c q | None => None end
            = match nth_error cs' i with Some c => own_at c q | None => None end).
  { intros i q. specialize (H (i :: q)). unfold own_at in *. cbn [get children] in H.
    destruct (nth_error cs i), (nth_error cs' i); exact H. }
  clear H. revert cs' Hc.
  induction IH as [|c cs Hc_ _ IHcs]; intros [|c' cs'] Hc.
  - reflexivity.
  - specialize (Hc 0%nat []). discriminate Hc.
  - specialize (Hc 0%nat []). discriminate Hc.
  - f_equal.
    + apply Hc_. intros q. exact (Hc 0%nat q).
    + apply IHcs. intros i q. exact (Hc (S i) q).
Qed.



Section Declarations.

Context {runtime : Runtime}.

(** What the declaration of a property is after the property was set. *)
Lemma declare_empty (name : string) (l : list (string * string)) :
  lookup name (declare name "" l) = None.
Proof. unfold declare. cbn [String.eqb]. rewrite lookup_unassign, String.eqb_refl. reflexivity. Qed.

Lemma declare_parsed (name value parsed : string) (l : list (string * string)) :
  value <> "" -> css_value name value = Some parsed ->
  lookup name (declare name value l) = Some parsed.
Proof.
  intros Hne Hp. unfold declare. apply String.eqb_neq in Hne. rewrite Hne, Hp.
  rewrite lookup_assign, String.eqb_refl. reflexivity.
Qed.

Lemma declare_ignored (name value : string) (l : list (string * string)) :
  value <> "" -> css_value name value = None -> declare name value l = l.
Proof.
  intros Hne Hp. unfold declare. apply String.eqb_neq in Hne. rewrite Hne, Hp. reflexivity.
Qed.



(** Text that is not a paint changes nothing. *)
Lemma fill_nodes_ignored (color : string) (nodes : list path) (e : element) :
  color <> "" -> css_value "fill" color = None -> fill_nodes color nodes e = e.
Proof.
  intros H1 H2. apply own_at_ext. intros q. rewrite own_at_fill_nodes.
  destruct (mem_path q nodes); [|reflexivity].
  destruct (own_at e q) as [[[t a] st]|]; [|reflexivity].
  cbn [option_map filled]. rewrite declare_ignored by assumption. reflexivity.
Qed.

End Declarations.

Lemma fill_nodes_app {runtime : Runtime} (color : string) (l1 l2 : list path) (e : element) :
  fill_nodes color (l1 ++ l2) e = fill_nodes color l2 (fill_nodes color l1 e).
Proof. unfold fill_nodes. apply fold_left_app. Qed.

Lemma fill_all {runtime : Runtime} (color : string) (matches : list (list path)) :
  forall e,
    fold_left (fun e matchedNodes => fill_nodes color matchedNodes e) matches e
    = fill_nodes color (List.concat matches) e.
Proof.
  induction matches as [|m matches IH]; intros e; cbn [fold_left List.concat]; [reflexivity|].
  rewrite IH, fill_nodes_app. reflexivity.
Qed.

(** *** The tree without its styles *)

Lemma unstyle_children (e : element) : children (unstyle e) = map unstyle (children e).
Proof. destruct e. reflexivity. Qed.

Lemma unstyle_tagName (e : element) : tagName (unstyle e) = tagName e.
Proof. destruct e. reflexivity. Qed.

Lemma unstyle_getAttribute (n : string) (e : element) :
  getAttribute n (unstyle e) = getAttribute n e.
Proof. destruct e. reflexivity. Qed.

Lemma get_unstyle (p : path) : forall e, get (unstyle e) p = option_map unstyle (get e p).
Proof.
  induction p as [|i p IH]; intros e; [reflexivity|].
  cbn [get]. rewrite unstyle_children, nth_error_map.
  destruct (nth_error (children e) i); cbn [option_map]; [apply IH | reflexivity].
Qed.

Lemma map_update_nth {A B : Type} (g : A -> B) (f : A -> A) (l : list A) :
  forall i, (forall a, g (f a) = g a) -> map g (update_nth i f l) = map g l.
Proof.
  induction l as [|a l IH]; intros [|i] H; cbn; try reflexivity.
  - rewrite H. reflexivity.
  - rewrite IH by exact H. reflexivity.
Qed.

Lemma unstyle_update_at (f : element -> element) (p : path) :
  (forall x, unstyle (f x) = unstyle x) ->
  forall e, unstyle (update_at p f e) = unstyle e.
Proof.
  intros Hf. induction p as [|i p IH]; intros e; [apply Hf|].
  destruct e as [t a s cs]. cbn [update_at unstyle]. f_equal.
  apply map_update_nth. exact IH.
Qed.

Lemma unstyle_fill_nodes {runtime : Runtime} (color : string) (nodes : list path) :
  forall e, unstyle (fill_nodes color nodes e) = unstyle e.
Proof.
  unfold fill_nodes. induction nodes as [|p nodes IH]; intros e; cbn [fold_left]; [reflexivity|].
  rewrite IH. apply unstyle_update_at. intros [t a s cs]. reflexivity.
Qed.

Lemma unstyle_hasAttribute (n : string) (e : element) :
  hasAttribute n (unstyle e) = hasAttribute n e.
Proof. unfold hasAttribute. rewrite unstyle_getAttribute. reflexivity. Qed.

(** Deep matching does not look at styles. *)
Lemma nodeMatches_unstyle (a : element) :
  forall s, nodeMatches (unstyle a) s = nodeMatches a s.
Proof.
  induction a as [t at_ st cs IH] using element_induction. intros s.
  rewrite !nodeMatches_unfold, unstyle_tagName, !unstyle_getAttribute, unstyle_hasAttribute,
    unstyle_children.
  f_equal. cbn [children]. generalize (children s) as l2.
  induction IH as [|c cs Hc _ IHcs]; intros [|c2 l2]; cbn [map pairwise]; try reflexivity.
  rewrite Hc, IHcs. reflexivity.
Qed.

Lemma sequential_unstyle (nodes : list element) :
  forall siblings index potentialMatch lastMatch,
    sequential (map unstyle_sibling siblings) nodes index potentialMatch lastMatch
    = sequential siblings nodes index potentialMatch lastMatch.
Proof.
  induction nodes as [|n nodes IH]; intros [|[h c] siblings] index pm lm;
    cbn [map unstyle_sibling sequential fst snd]; try reflexivity.
  rewrite nodeMatches_unstyle, IH. reflexivity.
Qed.

Lemma match_children_unstyle (subtree : element) (siblings : list (path * element)) :
  match_children subtree (map unstyle_sibling siblings) = match_children subtree siblings.
Proof.
  induction siblings as [|[h c] siblings IH]; [reflexivity|].
  cbn [map match_children]. rewrite IH.
  change (unstyle_sibling (h, c) :: map unstyle_sibling siblings)
    with (map unstyle_sibling ((h, c) :: siblings)).
  rewrite sequential_unstyle. cbn [unstyle_sibling fst snd].
  rewrite nodeMatches_unstyle. reflexivity.
Qed.

Lemma with_handles_unstyle (prefix : path) (cs : list element) :
  with_handles prefix (map unstyle cs) = map unstyle_sibling (with_handles prefix cs).
Proof.
  unfold with_handles. rewrite length_map.
  generalize (map (fun i => prefix ++ [i]) (seq 0 (List.length cs))) as hs.
  induction cs as [|c cs IH]; intros [|h hs]; cbn; try reflexivity.
  rewrite IH. reflexivity.
Qed.

(** The matcher does not look at styles. *)
Lemma traverse_unstyle (subtree : element) (node : element) :
  forall prefix, traverse subtree prefix (unstyle node) = traverse subtree prefix node.
Proof.
  induction node as [t a s cs IH] using element_induction. intros prefix.
  cbn [unstyle traverse].
  rewrite with_handles_unstyle, match_children_unstyle. f_equal.
  generalize 0%nat as i.
  induction IH as [|c cs Hc _ IHcs]; intros i; cbn [map traverse_children]; [reflexivity|].
  rewrite Hc, IHcs. reflexivity.
Qed.

Lemma paths_unstyle (e : element) : paths (unstyle e) = paths e.
Proof.
  induction e as [t a s cs IH] using element_induction.
  cbn [unstyle paths]. f_equal. generalize 0%nat as i.
  induction IH as [|c cs Hc _ IHcs]; intros i; cbn [map child_paths]; [reflexivity|].
  rewrite Hc, IHcs. reflexivity.
Qed.

Lemma matches_unstyle (s : selector) (e : element) : matches s (unstyle e) = matches s e.
Proof.
  induction s as [n|i|n v|ty at_|s1 IH1 s2 IH2]; cbn [matches];
    rewrite ?unstyle_tagName, ?unstyle_getAttribute, ?unstyle_hasAttribute; try reflexivity.
  rewrite IH1, IH2. reflexivity.
Qed.

Lemma querySelector_unstyle (s : selector) (e : element) :
  querySelector s (unstyle e) = querySelector s e.
Proof.
  unfold querySelector, querySelectorAll, descendants. rewrite paths_unstyle. f_equal.
  apply filter_ext. intros q. unfold matches_at. rewrite get_unstyle.
  destruct (get e q); cbn [option_map]; [apply matches_unstyle | reflexivity].
Qed.

Section Recolouring.

Context {runtime : Runtime}.

Variable tex2svg : string -> element.

(** Which nodes match depends on the label's tree without its styles. *)
Lemma getMatchesByTex_unstyle (a b : TeX) (tex : string) :
  unstyle (rendered a) = unstyle (rendered b) ->
  getMatchesByTex tex2svg a tex = getMatchesByTex tex2svg b tex.
Proof.
  intros H. unfold getMatchesByTex.
  destruct (flattenSVG (tex2svg tex)) as [matchRendered|e]; cbn [bind]; [|reflexivity].
  rewrite <- (querySelector_unstyle math_node (rendered a)),
          <- (querySelector_unstyle math_node (rendered b)), H.
  destruct (querySelector math_node (unstyle (rendered b))) as [p|]; cbn [subtree_at].
  - pose proof (get_unstyle p (rendered a)) as Ha.
    pose proof (get_unstyle p (rendered b)) as Hb.
    rewrite H in Ha. rewrite Hb in Ha. clear Hb.
    destruct (get (rendered a) p) as [ra|], (get (rendered b) p) as [rb|];
      cbn [option_map] in Ha; try discriminate; [|reflexivity].
    injection Ha as Ha.
    destruct (subtree_at matchRendered (querySelector math_node matchRendered)) as [sub|];
      cbn [findSubtreeMatches].
    + rewrite <- (traverse_unstyle sub ra), <- (traverse_unstyle sub rb), Ha. reflexivity.
    + assert (Hc : map unstyle (children ra) = map unstyle (children rb))
        by (rewrite <- !unstyle_children, Ha; reflexivity).
      destruct (children ra), (children rb); try discriminate; reflexivity.
  - reflexivity.
Qed.

(** X18.  [setColorAll] runs the fill setter on every node of every match
    and on nothing else: the tree keeps its shape, and an element that is
    in no match keeps what it holds.  On the nodes of the matches the
    declaration of [fill] becomes what the CSS parser makes of a colour it
    accepts, and is removed by the empty string; text that is not a paint
    leaves the label as it was. *)
Theorem setColorAll_recolors (this : TeX) (tex color : string) (matches : list (list path)) :
  getMatchesByTex tex2svg this tex = Ok matches ->
  exists this',
    setColorAll tex2svg this tex color = (this', Returned)
    /\ paths (rendered this') = paths (rendered this)
    /\ (forall q,
          own_at (rendered this') q =
            if mem_path q (List.concat matches)
            then option_map (filled color) (own_at (rendered this) q)
            else own_at (rendered this) q)
    /\ (forall q el' paint,
          In q (List.concat matches) -> get (rendered this') q = Some el' ->
          color <> "" -> css_value "fill" color = Some paint ->
          lookup "fill" (style el') = Some paint)
    /\ (forall q el',
          In q (List.concat matches) -> get (rendered this') q = Some el' ->
          color = "" -> lookup "fill" (style el') = None)
    /\ (color <> "" -> css_value "fill" color = None -> this' = this).
Proof.
  intros Hm. unfold setColorAll. rewrite Hm. eexists. split; [reflexivity|].
  cbn [rendered with_rendered]. rewrite fill_all.
  assert (Hown := own_at_fill_nodes color (List.concat matches) (rendered this)).
  assert (Hstyle : forall q el',
            In q (List.concat matches) ->
            get (fill_nodes color (List.concat matches) (rendered this)) q = Some el' ->
            exists st, style el' = declare "fill" color st).
  { intros q el' Hin Hget. specialize (Hown q).
    apply mem_path_In in Hin. rewrite Hin in Hown.
    unfold own_at in Hown at 1. rewrite Hget in Hown. cbn [option_map] in Hown.
    destruct (own_at (rendered this) q) as [[[t a] st]|]; [|discriminate Hown].
    cbn [option_map filled] in Hown. injection Hown as _ _ Hs. exists st. exact Hs. }
  split; [apply paths_fill_nodes|]. split; [exact Hown|].
  split; [|split].
  - intros q el' paint Hin Hget Hne Hp.
    destruct (Hstyle q el' Hin Hget) as [st ->]. apply declare_parsed; assumption.
  - intros q el' Hin Hget ->.
    destruct (Hstyle q el' Hin Hget) as [st ->]. apply declare_empty.
  - intros Hne Hp. rewrite fill_nodes_ignored by assumption. apply with_rendered_same.
Qed.

(** X19.  Recolouring does not change what matches: after [setColor] or
    [setColorAll], [getMatchesByTex] answers every query as before. *)
Theorem recolouring_keeps_matches (this : TeX) (tex color : string) (index : num)
  (tex' : string) :
  getMatchesByTex tex2svg (fst (setColor tex2svg this tex color index)) tex'
  = getMatchesByTex tex2svg this tex'
  /\ getMatchesByTex tex2svg (fst (setColorAll tex2svg this tex color)) tex'
     = getMatchesByTex tex2svg this tex'.
Proof.
  split; apply getMatchesByTex_unstyle.
  - unfold setColor. destruct (getMatchesByTex tex2svg this tex) as [matches|e]; [|reflexivity].
    cbv zeta.
    destruct (Nat.eqb (List.length matches) 0); [reflexivity|].
    destruct ((index <? zero)%num
              || (num_of_Z (Z.of_nat (List.length matches)) <=? index)%num); [reflexivity|].
    destruct (element_at matches index); [|reflexivity].
    cbn [fst rendered with_rendered]. apply unstyle_fill_nodes.
  - unfold setColorAll. destruct (getMatchesByTex tex2svg this tex) as [matches|e]; [|reflexivity].
    cbn [fst rendered with_rendered]. rewrite fill_all. apply unstyle_fill_nodes.
Qed.


End Recolouring.

Lemma setColorAll_recolors_witness :
  exists this',
    setColorAll glyph_engine (label_of "xyx") "x" "red" = (this', Returned)
    /\ paths (rendered this') = paths (rendered (label_of "xyx"))
    /\ forall q el',
         In q [[0; 0; 0]; [0; 0; 2]]%nat -> get (rendered this') q = Some el' ->
         lookup "fill" (style el') = Some "red".
Proof.
  destruct (setColorAll_recolors glyph_engine (label_of "xyx") "x" "red"
              [[[0; 0; 0]]; [[0; 0; 2]]]%nat)
    as (this' & H1 & H2 & _ & H3 & _).
  - vm_compute. reflexivity.
  - exists this'. split; [exact H1|]. split; [exact H2|].
    intros q el' Hin Hget. apply (H3 q el' "red" Hin Hget); [discriminate | reflexivity].
Defined.


(** ** createInlineStyledSvg *)

Lemma fold_left_invariant {A B : Type} (P : A -> Prop) (f : A -> B -> A) (l : list B) :
  (forall a b, In b l -> P a -> P (f a b)) ->
  forall a, P a -> P (fold_left f l a).
Proof.
  induction l as [|b l IH]; intros Hstep a Ha; cbn [fold_left]; [exact Ha|].
  apply IH.
  - intros a' b' Hin. apply Hstep. right. exact Hin.
  - apply Hstep; [left; reflexivity | exact Ha].
Qed.

Lemma removeProperty_children (n : string) (e : element) :
  children (removeProperty n e) = children e.
Proof. destruct e. reflexivity. Qed.

Lemma map_fst_assign (n v : string) (l : list (string * string)) :
  lookup n l <> None -> map fst (assign n v l) = map fst l.
Proof.
  induction l as [|[k w] l IH]; cbn [lookup assign]; [contradiction|].
  destruct (String.eqb k n); cbn [map fst]; [reflexivity|].
  intros H. rewrite IH by exact H. reflexivity.
Qed.

(** What an in-place edit keeps of the edited element, it keeps of the
    tree: [h] observes what an element holds apart from its children. *)
Lemma observed_update_at {A : Type}
  (h : string * list (string * string) * list (string * string) -> A)
  (f : element -> element) (p : path) (e : element) :
  (forall x, children (f x) = children x) ->
  (forall x, get e p = Some x -> h (own (f x)) = h (own x)) ->
  forall q, option_map h (own_at (update_at p f e) q) = option_map h (own_at e q).
Proof.
  intros Hc Hobs q. rewrite own_at_update_at by exact Hc.
  destruct (path_eqb p q) eqn:Epq; [|reflexivity].
  apply path_eqb_eq in Epq. subst q. unfold own_at.
  destruct (get e p) as [x|]; cbn [option_map]; [|reflexivity].
  rewrite Hobs; reflexivity.
Qed.

Section Inlining.

Context {runtime : Runtime}.

Variable target : ExportTarget.

(** What every edit of [copyComputedStyles] keeps, it keeps. *)
Lemma copyComputedStyles_invariant (P : element -> Prop) (doc : element) (p : path) :
  (forall c n v, In n styleAttributes -> (exists w, attr_at n c p = Some (Some w)) ->
     P c -> P (update_at p (setAttribute n v) c)) ->
  (forall c n v, P c -> P (update_at p (setProperty n v) c)) ->
  (forall c n, P c -> P (update_at p (removeProperty n) c)) ->
  (target <> BROWSER -> forall c, P c -> P (update_at p (removeAttribute "vector-effect") c)) ->
  (target = FIGMA -> forall c (f : element -> string),
     P c -> P (update_at p (fun el => setAttribute "transform" (f el) el) c)) ->
  P doc -> P (copyComputedStyles target doc p).
Proof.
  intros Hset Hprop Hunprop Hrem Htrans Hdoc.
  unfold copyComputedStyles. cbv zeta.
  match goal with
  | |- context [fold_left ?step styleAttributes doc] =>
      assert (H1 : P (fold_left step styleAttributes doc));
      [| generalize dependent (fold_left step styleAttributes doc); intros doc1 H1]
  end.
  { apply (fold_left_invariant P); [|exact Hdoc].
    intros c n Hn Hc. cbv beta.
    destruct (attr_at n c p) as [[w|]|] eqn:Ea.
    - apply Hset; [exact Hn | exists w; exact Ea | exact Hc].
    - destruct (negb _); [apply Hprop|]; exact Hc.
    - destruct (negb _); [apply Hprop|]; exact Hc. }
  match goal with
  | |- context [if ?c then ?t else doc1] =>
      assert (H2 : P (if c then t else doc1));
      [| generalize dependent (if c then t else doc1); intros doc2 H2]
  end.
  { destruct (match target with ILLUSTRATOR | FIGMA => true | BROWSER => false end) eqn:Et;
      cbn [andb]; [|exact H1].
    destruct (String.eqb _ _); [|exact H1].
    apply Hunprop, Hrem; [intros ->; discriminate|]. apply Hprop. exact H1. }
  destruct (match target with FIGMA => true | _ => false end) eqn:Et; cbn [andb]; [|exact H2].
  destruct (match get doc2 p with Some el => _ | None => false end); [|exact H2].
  apply (Htrans ltac:(destruct target; try discriminate; reflexivity) doc2
           (fun el => (or_default (getAttribute "transform" el) "" ++ " scale(1.3333333333333333)")%string)).
  exact H2.
Qed.

Lemma paths_copyComputedStyles (doc : element) (p : path) :
  paths (copyComputedStyles target doc p) = paths doc.
Proof.
  apply (copyComputedStyles_invariant (fun c => paths c = paths doc)); try reflexivity.
  - intros c n v _ _ Hc. rewrite paths_update_at; [exact Hc|].
    intros x; apply setAttribute_children.
  - intros c n v Hc. rewrite paths_update_at; [exact Hc|].
    intros x; apply setProperty_children.
  - intros c n Hc. rewrite paths_update_at; [exact Hc|].
    intros x; apply removeProperty_children.
  - intros _ c Hc. rewrite paths_update_at; [exact Hc|].
    intros x; apply removeAttribute_children.
  - intros _ c f Hc. rewrite paths_update_at; [exact Hc|].
    intros x; apply setAttribute_children.
Qed.

Section Observed.

Variable A : Type.
Variable h : string * list (string * string) * list (string * string) -> A.

Hypothesis h_setAttribute : forall x n v,
  In n styleAttributes -> getAttribute n x <> None -> h (own (setAttribute n v x)) = h (own x).
Hypothesis h_style : forall x x',
  tagName x' = tagName x -> attributes x' = attributes x -> h (own x') = h (own x).
Hypothesis h_removeAttribute : target <> BROWSER ->
  forall x, h (own (removeAttribute "vector-effect" x)) = h (own x).
Hypothesis h_transform : target = FIGMA ->
  forall x v, h (own (setAttribute "transform" v x)) = h (own x).

Lemma h_setProperty (n v : string) (x : element) : h (own (setProperty n v x)) = h (own x).
Proof. apply h_style; destruct x; reflexivity. Qed.

Lemma h_removeProperty (n : string) (x : element) : h (own (removeProperty n x)) = h (own x).
Proof. apply h_style; destruct x; reflexivity. Qed.

Lemma copyComputedStyles_observed (doc : element) (p q : path) :
  option_map h (own_at (copyComputedStyles target doc p) q) = option_map h (own_at doc q).
Proof.
  apply (copyComputedStyles_invariant
           (fun c => option_map h (own_at c q) = option_map h (own_at doc q)));
    try reflexivity.
  - intros c n v Hn [w Ea] Hc.
    rewrite observed_update_at; [exact Hc | intros x; apply setAttribute_children |].
    intros x Hx. apply h_setAttribute; [exact Hn|].
    unfold attr_at in Ea. rewrite Hx in Ea. cbn in Ea. congruence.
  - intros c n v Hc.
    rewrite observed_update_at; [exact Hc | intros x; apply setProperty_children |].
    intros x _. apply h_setProperty.
  - intros c n Hc.
    rewrite observed_update_at; [exact Hc | intros x; apply removeProperty_children |].
    intros x _. apply h_removeProperty.
  - intros Ht c Hc.
    rewrite observed_update_at; [exact Hc | intros x; apply removeAttribute_children |].
    intros x _. apply h_removeAttribute. exact Ht.
  - intros Ht c f Hc.
    rewrite observed_update_at; [exact Hc | intros x; apply setAttribute_children |].
    intros x _. apply h_transform. exact Ht.
Qed.

Lemma createInlineStyledSvg_observed (d : element) (q : path) :
  option_map h (own_at (createInlineStyledSvg d target) q) = option_map h (own_at d q).
Proof.
  unfold createInlineStyledSvg.
  apply (fold_left_invariant
           (fun c => option_map h (own_at c q) = option_map h (own_at d q)));
    [|reflexivity].
  intros c p _ Hc. rewrite copyComputedStyles_observed. exact Hc.
Qed.

End Observed.

Lemma paths_createInlineStyledSvg (d : element) :
  paths (createInlineStyledSvg d target) = paths d.
Proof.
  unfold createInlineStyledSvg.
  apply (fold_left_invariant (fun c => paths c = paths d)); [|reflexivity].
  intros c p _ Hc. rewrite paths_copyComputedStyles. exact Hc.
Qed.

(** X21.  Inlining the computed styles keeps the document: the copy has
    the same elements in the same places under the same names, and every
    attribute other than the presentation attributes, [transform] and
    [style] (which receives the inlined declarations) is as it was, for
    every export target and whatever the style sheets say. *)
Theorem createInlineStyledSvg_keeps_document (d : element) :
  paths (createInlineStyledSvg d target) = paths d
  /\ forall q,
       tag_at (createInlineStyledSvg d target) q = tag_at d q
       /\ forall n, ~ In n styleAttributes -> n <> "transform" -> n <> "style" ->
            attr_at n (createInlineStyledSvg d target) q = attr_at n d q.
Proof.
  split; [apply paths_createInlineStyledSvg|]. intros q. split.
  - rewrite !tag_at_own. apply createInlineStyledSvg_observed.
    + intros x n v _ _. cbn. rewrite setAttribute_tagName. reflexivity.
    + intros x x' Ht _. cbn. exact Ht.
    + intros _ x. cbn. apply removeAttribute_tagName.
    + intros _ x v. cbn. apply setAttribute_tagName.
  - intros n Hn Ht _. rewrite !attr_at_own. apply createInlineStyledSvg_observed.
    + intros x m v Hm _. cbn [own fst snd]. fold (getAttribute n (setAttribute m v x)).
      rewrite getAttribute_setAttribute.
      destruct (String.eqb m n) eqn:E; [|reflexivity].
      apply String.eqb_eq in E. subst. contradiction.
    + intros x x' _ Ha. cbn [own fst snd]. rewrite Ha. reflexivity.
    + intros _ x. cbn [own fst snd]. fold (getAttribute n (removeAttribute "vector-effect" x)).
      rewrite getAttribute_removeAttribute.
      destruct (String.eqb "vector-effect" n) eqn:E; [|reflexivity].
      apply String.eqb_eq in E. subst. exfalso. apply Hn. cbn. tauto.
    + intros _ x v. cbn [own fst snd]. fold (getAttribute n (setAttribute "transform" v x)).
      rewrite getAttribute_setAttribute.
      destruct (String.eqb "transform" n) eqn:E; [|reflexivity].
      apply String.eqb_eq in E. subst. contradiction.
Qed.

End Inlining.

(** X22.  For the browser target inlining adds no attribute other than
    [style] and removes none: every element keeps the names of its
    attributes other than [style], in their order. *)
Theorem createInlineStyledSvg_browser_names {runtime : Runtime} (d : element) (q : path) :
  option_map attribute_names (get (createInlineStyledSvg d BROWSER) q)
  = option_map attribute_names (get d q).
Proof.
  pose proof (createInlineStyledSvg_observed BROWSER (list string)
                (fun o => filter (fun n => negb (String.eqb n "style")) (map fst (snd (fst o)))))
    as H.
  specialize (H ltac:(intros x n v _ Hx; destruct x as [t a s cs]; cbn;
                      rewrite map_fst_assign by exact Hx; reflexivity)).
  specialize (H ltac:(intros x x' _ Ha; cbn; rewrite Ha; reflexivity)).
  specialize (H ltac:(intros Hne; contradiction) ltac:(intros Hne; discriminate) d q).
  unfold own_at in H.
  destruct (get (createInlineStyledSvg d BROWSER) q), (get d q); exact H.
Qed.

(** ** embedMarkers: references that are empty, and references that dangle *)

Lemma descendants_complete (e : element) (q : path) :
  q <> [] -> get e q <> None -> In q (descendants e).
Proof.
  intros Hq Hget. pose proof (paths_complete q e Hget) as H.
  destruct e as [t a s cs]. cbn [paths] in H. destruct H as [H|H]; [congruence|].
  exact H.
Qed.

Lemma absent_querySelector (id : string) (e : element) :
  querySelector (ById id) e = None -> absent id e.
Proof.
  intros Hq q Hne. destruct (matches_at (ById id) e q) eqn:E; [exfalso | reflexivity].
  unfold matches_at in E. destruct (get e q) as [el|] eqn:Hget; [|discriminate].
  pose proof (querySelectorAll_complete (ById id) e q el Hne Hget E) as Hin.
  unfold querySelector in Hq. destruct (querySelectorAll (ById id) e); [contradiction|].
  discriminate Hq.
Qed.

Lemma absent_not_found (id : string) (e : element) (m : path) :
  absent id e -> querySelector (ById id) e <> Some m.
Proof.
  intros Ha Hq.
  destruct (querySelector_descendant _ _ _ Hq) as [Hm _].
  destruct (querySelector_get _ _ _ Hq) as (el & Hel & Hmatch).
  specialize (Ha m Hm). unfold matches_at in Ha. rewrite Hel in Ha. congruence.
Qed.

Lemma absent_update_at (id : string) (f : element -> element) (p : path) (e : element) :
  (forall x, children (f x) = children x) ->
  (forall x, getAttribute "id" (f x) = getAttribute "id" x) ->
  absent id e -> absent id (update_at p f e).
Proof.
  intros Hc Hid Ha q Hq. specialize (Ha q Hq).
  rewrite matches_at_id in *. rewrite attr_at_own in *.
  rewrite (observed_update_at (fun o => lookup "id" (snd (fst o))) f p e Hc); [exact Ha|].
  intros x _. apply Hid.
Qed.

Lemma absent_appendChild (id : string) (glyph e : element) :
  absent id e ->
  (forall r, matches_at (ById id) glyph r = false) ->
  absent id (appendChild glyph e).
Proof.
  intros Ha Hg q Hq.
  destruct (matches_at (ById id) (appendChild glyph e) q) eqn:E; [exfalso | reflexivity].
  assert (Hget : get (appendChild glyph e) q <> None).
  { unfold matches_at in E. destruct (get (appendChild glyph e) q); [discriminate|].
    discriminate E. }
  pose proof (descendants_complete _ q Hq Hget) as Hin.
  rewrite descendants_appendChild in Hin. apply in_app_or in Hin.
  destruct Hin as [Hin|Hin].
  - apply descendants_valid in Hin. destruct Hin as [_ Hold].
    unfold matches_at in E. rewrite (get_appendChild glyph e q Hq Hold) in E.
    specialize (Ha q Hq). unfold matches_at in Ha. congruence.
  - apply in_map_iff in Hin. destruct Hin as (r & <- & _).
    unfold matches_at in E.
    change (List.length (children e) :: r) with ([List.length (children e)] ++ r) in E.
    rewrite get_app, get_appendChild_new in E.
    specialize (Hg r). unfold matches_at in Hg. congruence.
Qed.

Lemma own_at_get (a b : element) (q r : path) (x : element) :
  own_at a q = own_at b r -> get a q = Some x ->
  exists y, get b r = Some y /\ tagName y = tagName x /\ attributes y = attributes x.
Proof.
  unfold own_at. intros H Hx. rewrite Hx in H.
  destruct (get b r) as [y|]; [|discriminate].
  exists y. split; [reflexivity|]. cbn in H. injection H as H1 H2 _. auto.
Qed.

Section MarkerEdges.

Context {runtime : Runtime}.

Variable trimPixels : float.

(** What the [switch] of [processMarker] can come to. *)
Lemma marker_geometry_cases (el : element) (pos : string) :
  marker_geometry trimPixels el pos = Throw TypeError
  \/ (marker_geometry trimPixels el pos = Ok None
      /\ tagName el <> "line" /\ tagName el <> "path")
  \/ exists x y angle g,
       geometry_edit g
       /\ marker_geometry trimPixels el pos = Ok (Some (x, y, angle, g el)).
Proof.
  unfold marker_geometry.
  destruct (String.eqb (toLowerCase (tagName el)) "line") eqn:E1.
  - right. right.
    destruct (line_anchor el (String.eqb pos "marker-end")) as [[x0 y0] an].
    unfold trimLine.
    destruct (String.eqb pos "marker-end"); cbv beta iota zeta;
      lazymatch goal with
      | |- context [Ok (Some (_, _, _, setAttribute ?a ?v2 (setAttribute ?b ?v1 el)))] =>
          exists (Some x0), (Some y0), an, (fun e => setAttribute a v2 (setAttribute b v1 e))
      end;
      (split; [|reflexivity]);
      repeat (apply geometry_edit_set; [cbn; tauto|]); apply geometry_edit_id.
  - destruct (String.eqb (toLowerCase (tagName el)) "path") eqn:E2.
    + destruct (path_anchor el (String.eqb pos "marker-end")) as [[x0 y0] an].
      unfold trimPath.
      destruct (getAttribute "d" el) as [dv|] eqn:Ed.
      * right. right.
        destruct (String.eqb pos "marker-end"); cbn [bind];
          lazymatch goal with
          | |- context [Ok (Some (_, _, _, setAttribute ?a ?v1 el))] =>
              exists x0, y0, an, (fun e => setAttribute a v1 e)
          end;
          (split; [|reflexivity]);
          (apply geometry_edit_set; [cbn; tauto|]); apply geometry_edit_id.
      * left. destruct (String.eqb pos "marker-end"); reflexivity.
    + right. left. split; [reflexivity|]. split; intros Ht; rewrite Ht in *; discriminate.
Qed.

(** What one call of [processMarker] can come to. *)
Lemma processMarker_cases (pos : string) (c : element) (p : path) (el : element) :
  get c p = Some el ->
  processMarker trimPixels pos c p = Throw TypeError
  \/ (processMarker trimPixels pos c p = Throw SyntaxError
      /\ exists url, getAttribute pos el = Some url /\ url <> ""
                     /\ is_ident (marker_id url) = false)
  \/ (processMarker trimPixels pos c p = Ok c
      /\ (nonempty (getAttribute pos el) = false
          \/ (tagName el <> "line" /\ tagName el <> "path")))
  \/ exists url g m marker content v,
       getAttribute pos el = Some url /\ url <> ""
       /\ geometry_edit g
       /\ querySelector (ById (marker_id url)) c = Some m
       /\ get (update_at p g c) m = Some marker
       /\ firstChild marker = Some content
       /\ processMarker trimPixels pos c p
          = Ok (update_at p (removeAttribute pos)
                  (appendChild (setAttribute "transform" v content) (update_at p g c))).
Proof.
  intros Hget. unfold processMarker. rewrite Hget.
  destruct (nonempty (getAttribute pos el)) eqn:Hne; cbn [negb];
    [|right; right; left; split; [reflexivity | left; reflexivity]].
  destruct (getAttribute pos el) as [url|] eqn:Hurl; [|discriminate].
  assert (Hurl0 : url <> "").
  { intros ->. discriminate Hne. }
  assert (Hor : or_default (Some url) "" = url).
  { cbn. destruct (String.eqb url "") eqn:E; [|reflexivity].
    apply String.eqb_eq in E. contradiction. }
  rewrite Hor.
  change (parse_selector ("#" ++ marker_id url))
    with (if is_ident (marker_id url) then Ok (ById (marker_id url)) else Throw SyntaxError).
  destruct (is_ident (marker_id url)) eqn:Hid; cbn [bind];
    [|right; left; split; [reflexivity | exists url; auto]].
  destruct (marker_geometry_cases el pos) as [Hg|[(Hg & Htag)|(x & y & angle & g & Hg & Hgeo)]].
  - left. rewrite Hg. reflexivity.
  - right. right. left. rewrite Hg. cbn [bind]. split; [reflexivity | right; exact Htag].
  - rewrite Hgeo. cbn [bind]. rewrite (replace_at_edit g p c el Hget).
    destruct (querySelector (ById (marker_id url)) c) as [m|] eqn:Hq; [|left; reflexivity].
    destruct (get (update_at p g c) m) as [marker|] eqn:Hm; [|left; reflexivity].
    destruct (firstChild marker) as [content|] eqn:Hf; [|left; reflexivity].
    right. right. right.
    exists url, g, m, marker, content, (glyph_transform x y angle marker pos).
    split; [reflexivity|]. split; [exact Hurl0|]. split; [exact Hg|].
    split; [exact Hq|]. split; [exact Hm|]. split; [exact Hf | reflexivity].
Qed.

(** X23.  [embedMarkers] returns the drawing as it is when no line and no
    path carries a marker reference other than the empty one; references on
    other shapes are not looked at. *)
Theorem embedMarkers_nothing_to_embed (d : element) :
  (forall pos p el, marker_position pos ->
     In p (querySelectorAll (marked pos) d) -> get d p = Some el ->
     getAttribute pos el = Some "") ->
  embedMarkers_with trimPixels d = Ok d.
Proof.
  intros H.
  assert (Hpass : forall pos l, marker_position pos ->
            (forall p, In p l -> In p (querySelectorAll (marked pos) d)) ->
            foldM (processMarker trimPixels pos) l d = Ok d).
  { intros pos l Hpos. induction l as [|p l IH]; intros Hl; [reflexivity|].
    cbn [foldM]. unfold processMarker at 1.
    destruct (get d p) as [el|] eqn:Hget; cbn [bind].
    - rewrite (H pos p el Hpos (Hl p (or_introl eq_refl)) Hget). cbn [nonempty String.eqb negb bind].
      apply IH. intros q Hq. apply Hl. right. exact Hq.
    - apply IH. intros q Hq. apply Hl. right. exact Hq. }
  unfold embedMarkers_with.
  rewrite (Hpass "marker-end"); [| left; reflexivity | auto]. cbn [bind].
  apply Hpass; [right; reflexivity | auto].
Qed.

(** One step of embedding brings no new identifier into the document. *)
Lemma absent_step (id pos : string) (g : element -> element) (c : element) (p m : path)
  (marker content : element) (v : string) :
  geometry_edit g -> marker_position pos -> absent id c -> m <> [] ->
  get (update_at p g c) m = Some marker -> firstChild marker = Some content ->
  absent id
    (update_at p (removeAttribute pos)
       (appendChild (setAttribute "transform" v content) (update_at p g c))).
Proof.
  intros Hg Hpos Ha Hm Hmarker Hfirst.
  assert (Hupd : absent id (update_at p g c)).
  { apply absent_update_at; [intros x; apply Hg | | exact Ha].
    intros x. apply Hg. cbn. intuition discriminate. }
  assert (Hcontent : get (update_at p g c) (m ++ [0%nat]) = Some content).
  { rewrite get_app, Hmarker, <- firstChild_get. exact Hfirst. }
  apply absent_update_at.
  - intros x. apply removeAttribute_children.
  - intros x. rewrite getAttribute_removeAttribute.
    replace (String.eqb pos "id") with false by (destruct Hpos; subst; reflexivity).
    reflexivity.
  - apply absent_appendChild; [exact Hupd|].
    intros [|j r].
    + assert (H0 : matches_at (ById id) (update_at p g c) (m ++ [0%nat]) = false).
      { apply Hupd. destruct m; discriminate. }
      unfold matches_at in *. rewrite Hcontent in H0. cbn [get matches] in *.
      rewrite getAttribute_setAttribute. exact H0.
    + assert (H0 : matches_at (ById id) (update_at p g c) ((m ++ [0%nat]) ++ j :: r) = false).
      { apply Hupd. destruct m; discriminate. }
      unfold matches_at in *. rewrite get_app, Hcontent in H0.
      cbn [get] in *. rewrite setAttribute_children. exact H0.
Qed.

(** One pass over the marked elements of a document in which no element
    carries [id]: either it throws a TypeError, or no line and no path of
    the pass referred to [id], and the document still has no element that
    carries it. *)
Lemma pass_dangling (id pos : string) :
  marker_position pos ->
  forall l c,
    NoDup l ->
    (forall q, In q l -> q <> [] /\ get c q <> None) ->
    absent id c ->
    (forall q el url, In q l -> get c q = Some el ->
       getAttribute pos el = Some url -> url <> "" -> is_ident (marker_id url) = true) ->
    foldM (processMarker trimPixels pos) l c = Throw TypeError
    \/ exists c',
         foldM (processMarker trimPixels pos) l c = Ok c'
         /\ absent id c'
         /\ (forall q, q <> [] -> get c q <> None -> own_at c' q <> None)
         /\ (forall q n, q <> [] -> get c q <> None -> ~ In n geometry_names -> n <> pos ->
               tag_at c' q = tag_at c q /\ attr_at n c' q = attr_at n c q)
         /\ (forall q el url, In q l -> get c q = Some el ->
               tagName el = "line" \/ tagName el = "path" ->
               getAttribute pos el = Some url -> url <> "" -> marker_id url <> id).
Proof.
  intros Hpos. induction l as [|p l IH]; intros c Hnd Hl Ha Hident.
  - right. exists c. split; [reflexivity|]. split; [exact Ha|]. split.
    + intros q _ Hget. unfold own_at. destruct (get c q); [discriminate | contradiction].
    + split; [auto|]. intros q el url [].
  - inversion Hnd as [|p' l' Hnotin Hnd']; subst.
    destruct (Hl p (or_introl eq_refl)) as [Hp Hgetp].
    destruct (get c p) as [el|] eqn:Hel; [clear Hgetp | contradiction].
    cbn [foldM].
    destruct (processMarker_cases pos c p el Hel)
      as [Hr|[(Hr & url & Hurl & Hne & Hid)|[(Hr & Hwhy)|
          (url & g & m & marker & content & v & Hurl & Hne & Hg & Hq & Hm & Hf & Hr)]]];
      rewrite Hr; cbn [bind].
    + left. reflexivity.
    + rewrite (Hident p el url (or_introl eq_refl) Hel Hurl Hne) in Hid. discriminate.
    + destruct (IH c Hnd') as [Ht|(c' & Hfold & Ha' & Hown & Hkeep & Hno)]; auto.
      { intros q Hq. apply Hl. right. exact Hq. }
      { intros q x u Hq. apply Hident. right. exact Hq. }
      right. exists c'. split; [exact Hfold|]. split; [exact Ha'|].
      split; [exact Hown|]. split; [exact Hkeep|].
      intros q x u [<-|Hq] Hx Htag Hu Hu0.
      * rewrite Hel in Hx. injection Hx as <-.
        destruct Hwhy as [Hwhy|[H1 H2]]; [|destruct Htag; contradiction].
        rewrite Hu in Hwhy. cbn in Hwhy.
        destruct (String.eqb u "") eqn:E; [|discriminate].
        apply String.eqb_eq in E. contradiction.
      * apply (Hno q x u Hq Hx Htag Hu Hu0).
    + set (c1 := update_at p (removeAttribute pos)
                   (appendChild (setAttribute "transform" v content) (update_at p g c))) in *.
      assert (Hm0 : m <> []) by (apply (querySelector_descendant _ _ _ Hq)).
      assert (Hother : forall q, In q l -> own_at c1 q = own_at c q).
      { intros q Hq'. destruct (Hl q (or_intror Hq')) as [Hq0 Hgetq].
        subst c1. rewrite step_own_at by assumption.
        destruct (path_eqb p q) eqn:E; [|reflexivity].
        apply path_eqb_eq in E. subst q. contradiction. }
      assert (Hvalid : forall q, q <> [] -> get c q <> None -> own_at c1 q <> None).
      { intros q Hq0 Hgetq. subst c1. rewrite step_own_at by assumption.
        unfold own_at. destruct (get c q); [|contradiction].
        destruct (path_eqb p q); discriminate. }
      assert (Hvalid' : forall q, q <> [] -> get c q <> None -> get c1 q <> None).
      { intros q Hq0 Hgetq. specialize (Hvalid q Hq0 Hgetq). unfold own_at in Hvalid.
        destruct (get c1 q); [discriminate | contradiction]. }
      destruct (IH c1 Hnd') as [Ht|(c' & Hfold & Ha' & Hown & Hkeep & Hno)].
      { intros q Hq'. destruct (Hl q (or_intror Hq')) as [Hq0 Hgetq]. auto. }
      { subst c1. apply (absent_step id pos g c p m marker content v); assumption. }
      { intros q x u Hq' Hx Hu Hu0.
        destruct (own_at_get c1 c q q x (Hother q Hq') Hx) as (y & Hy & _ & Hattr).
        apply (Hident q y u (or_intror Hq') Hy); [|exact Hu0].
        unfold getAttribute in *. rewrite Hattr. exact Hu. }
      { left. exact Ht. }
      right. exists c'. split; [exact Hfold|]. split; [exact Ha'|]. split; [|split].
      * intros q Hq0 Hgetq. apply Hown; auto.
      * intros q n Hq0 Hgetq Hn Hnpos.
        destruct (Hkeep q n Hq0 (Hvalid' q Hq0 Hgetq) Hn Hnpos) as [K1 K2].
        rewrite K1, K2. subst c1. split.
        -- apply step_tag_at; assumption.
        -- rewrite step_attr_at by assumption.
           replace (String.eqb n pos) with false by (symmetry; apply String.eqb_neq; exact Hnpos).
           rewrite andb_false_r. reflexivity.
      * intros q x u [<-|Hq'] Hx Htag Hu Hu0.
        -- rewrite Hel in Hx. injection Hx as <-.
           rewrite Hurl in Hu. injection Hu as <-.
           intros <-. exact (absent_not_found _ c m Ha Hq).
        -- assert (Hsym : own_at c q = own_at c1 q) by (symmetry; apply Hother; exact Hq').
           destruct (own_at_get c c1 q q x Hsym Hx) as (y & Hy & Hytag & Hyattr).
           apply (Hno q y u Hq' Hy).
           ++ rewrite Hytag. exact Htag.
           ++ unfold getAttribute in *. rewrite Hyattr. exact Hu.
           ++ exact Hu0.
Qed.

(** X24.  A dangling reference makes [embedMarkers] throw: when the
    non-empty marker references on lines and paths hold plain identifiers
    and one of them, at either end, names an identifier that no element of
    the drawing carries, the call throws a TypeError. *)
Theorem embedMarkers_dangling (d : element) (pos : string) (p : path) (el : element)
  (url : string) :
  marker_position pos ->
  (forall pos' q x u, marker_position pos' ->
     In q (querySelectorAll (marked pos') d) -> get d q = Some x ->
     getAttribute pos' x = Some u -> u <> "" -> is_ident (marker_id u) = true) ->
  In p (querySelectorAll (marked pos) d) ->
  get d p = Some el ->
  getAttribute pos el = Some url ->
  url <> "" ->
  querySelector (ById (marker_id url)) d = None ->
  embedMarkers_with trimPixels d = Throw TypeError.
Proof.
  intros Hpos Hident Hin Hel Hurl Hne Hnone.
  pose proof (absent_querySelector _ d Hnone) as Ha.
  assert (Htag : tagName el = "line" \/ tagName el = "path").
  { apply querySelectorAll_In in Hin. destruct Hin as (_ & x & Hx & Hmatch).
    rewrite Hel in Hx. injection Hx as <-. apply marked_matches in Hmatch. tauto. }
  assert (Hvalid : forall pos' q, In q (querySelectorAll (marked pos') d) ->
            q <> [] /\ get d q <> None).
  { intros pos' q Hq. apply querySelectorAll_In in Hq.
    destruct Hq as (Hq0 & x & Hx & _). split; [exact Hq0 | congruence]. }
  unfold embedMarkers_with.
  destruct (pass_dangling (marker_id url) "marker-end" (or_introl eq_refl)
              (querySelectorAll (marked "marker-end") d) d)
    as [Ht|(c1 & Hfold & Ha1 & Hown1 & Hkeep1 & Hno1)].
  { apply querySelectorAll_NoDup. }
  { apply Hvalid. }
  { exact Ha. }
  { intros q x u Hq. apply (Hident "marker-end"); [left; reflexivity | exact Hq]. }
  { rewrite Ht. reflexivity. }
  rewrite Hfold. cbn [bind].
  destruct Hpos as [->| ->].
  { exfalso. exact (Hno1 p el url Hin Hel Htag Hurl Hne eq_refl). }
  assert (Hsame : forall q, In q (querySelectorAll (marked "marker-start") d) ->
            tag_at c1 q = tag_at d q /\ attr_at "marker-start" c1 q = attr_at "marker-start" d q).
  { intros q Hq. destruct (Hvalid _ q Hq) as [Hq0 Hgetq].
    apply Hkeep1; try assumption; [cbn; intuition discriminate | discriminate]. }
  destruct (pass_dangling (marker_id url) "marker-start" (or_intror eq_refl)
              (querySelectorAll (marked "marker-start") d) c1)
    as [Ht|(c2 & Hfold2 & _ & _ & _ & Hno2)].
  { apply querySelectorAll_NoDup. }
  { intros q Hq. destruct (Hvalid _ q Hq) as [Hq0 Hgetq]. split; [exact Hq0|].
    specialize (Hown1 q Hq0 Hgetq). unfold own_at in Hown1.
    destruct (get c1 q); [discriminate | contradiction]. }
  { exact Ha1. }
  { intros q x u Hq Hx Hu Hu0. destruct (Hsame q Hq) as [_ Hattr].
    unfold attr_at in Hattr. rewrite Hx in Hattr.
    destruct (get d q) as [y|] eqn:Hy; [|discriminate]. cbn in Hattr.
    injection Hattr as Hattr.
    apply (Hident "marker-start" q y u); auto; [right; reflexivity | congruence]. }
  { exact Ht. }
  exfalso. destruct (Hsame p Hin) as [Ht Hattr].
  unfold tag_at, attr_at in Ht, Hattr. rewrite Hel in Ht, Hattr.
  destruct (get c1 p) as [el1|] eqn:Hel1; [|discriminate]. cbn in Ht, Hattr.
  injection Ht as Ht. injection Hattr as Hattr.
  apply (Hno2 p el1 url Hin Hel1);
    [rewrite Ht; exact Htag | congruence | exact Hne | reflexivity].
Qed.

End MarkerEdges.

Lemma embedMarkers_nothing_to_embed_witness :
  embedMarkers_with (literal 4) unmarked_drawing = Ok unmarked_drawing.
Proof.
  apply (embedMarkers_nothing_to_embed (literal 4) unmarked_drawing).
  intros pos p el [-> | ->] Hin Hget; vm_compute in Hin; [|contradiction].
  destruct Hin as [<-|[]]. vm_compute in Hget. injection Hget as <-. reflexivity.
Defined.

Lemma embedMarkers_dangling_witness :
  embedMarkers_with (literal 4) dangling_drawing = Throw TypeError.
Proof.
  apply (embedMarkers_dangling (literal 4) dangling_drawing "marker-start" [0%nat]
           (Element "line"
              [("x1", "0"); ("y1", "0"); ("x2", "10"); ("y2", "0");
               ("marker-start", "url(#arrow)")] [] [])
           "url(#arrow)").
  - right. reflexivity.
  - intros pos' q x u [-> | ->] Hin Hget Hu _; vm_compute in Hin; [contradiction|].
    destruct Hin as [<-|[]]. vm_compute in Hget. injection Hget as <-.
    vm_compute in Hu. injection Hu as <-. reflexivity.
  - vm_compute. left. reflexivity.
  - reflexivity.
  - reflexivity.
  - discriminate.
  - reflexivity.
Defined.

(** ** factorial, called through the module *)

Lemma le_fact (n : nat) : (n <= fact n)%nat.
Proof.
  induction n as [|n IH]; [cbn; lia|].
  change (fact (S n)) with (S n * fact n)%nat. pose proof (lt_O_fact n). nia.
Qed.

Lemma factorial_value (n : nat) :
  forall k a, (n <= k)%nat -> has_value a (inject_Z (Z.of_nat n)) ->
    (Z.of_nat (fact n) <= 2 ^ 53)%Z ->
    exists r, factorial (Some (namespace k)) a = Ok r
              /\ has_value r (inject_Z (Z.of_nat (fact n))).
Proof.
  induction n as [|n IH]; intros k a Hk Ha Hb.
  - destruct a as [| |p z]; try contradiction; cbn [has_value] in Ha.
    exists one. split; [|cbn; reflexivity].
    unfold factorial. change one with (Fin (inject_Z 1) false). rewrite num_lt_fin.
    replace (Qle_bool (inject_Z 1) p) with false; [reflexivity|].
    symmetry. apply not_true_iff_false. rewrite Qle_bool_iff, Ha. cbn. intros H.
    apply Qle_not_lt in H. apply H. reflexivity.
  - destruct k as [|k]; [lia|].
    assert (Hfact : (Z.of_nat (fact (S n)) = Z.of_nat (S n) * Z.of_nat (fact n))%Z)
      by (change (fact (S n)) with (S n * fact n)%nat; lia).
    pose proof (le_fact (S n)) as Hle. pose proof (lt_O_fact n) as Hpos.
    assert (Hlt : (a <? one)%num = false).
    { destruct a as [| |p z]; try contradiction; cbn [has_value] in Ha.
      change one with (Fin (inject_Z 1) false). rewrite num_lt_fin.
      apply negb_false_iff, Qle_bool_iff. rewrite Ha. rewrite <- Zle_Qle. lia. }
    unfold factorial at 1. rewrite Hlt.
    cbn [namespace member_factorial].
    destruct (IH k (a - one)%num) as (r & Hr & Hv); [lia | |nia|].
    { replace (Z.of_nat n) with (Z.of_nat (S n) - 1)%Z by lia.
      apply num_sub_int; [exact Ha | apply has_value_of_Z | lia]. }
    rewrite Hr. cbn [bind].
    exists (a * r)%num. split; [reflexivity|].
    rewrite Hfact. apply num_mul_int; [exact Ha | exact Hv | nia].
Qed.

(** X25.  Called through the module, [factorial] of a natural number [n]
    is [n!], once the call stack allows [n] nested calls, for every [n!]
    within the integers that binary64 counts exactly (up to [2^53]). *)
Theorem factorial_through_module (n k : nat) :
  (n <= k)%nat -> (Z.of_nat (fact n) <= 2 ^ 53)%Z ->
  exists r, factorial (Some (namespace k)) (num_of_Z (Z.of_nat n)) = Ok r
            /\ has_value r (inject_Z (Z.of_nat (fact n))).
Proof. intros Hk Hb. apply factorial_value; [exact Hk | apply has_value_of_Z | exact Hb]. Qed.

Lemma factorial_through_module_witness :
  exists r, factorial (Some (namespace 5)) (num_of_Z 5) = Ok r /\ has_value r 120.
Proof. apply (factorial_through_module 5 5); [lia | cbn; lia]. Defined.

(** X26.  [factorial] does not stop on NaN or on Infinity: whatever the
    depth of the call stack, the call through the module ends in the stack
    overflow. *)
Theorem factorial_endless (k : nat) :
  factorial (Some (namespace k)) NaN = Throw (Error "Maximum call stack size exceeded")
  /\ factorial (Some (namespace k)) (Inf false)
     = Throw (Error "Maximum call stack size exceeded").
Proof.
  induction k as [|k [IH1 IH2]]; [split; reflexivity|].
  split.
  - unfold factorial at 1. cbn [num_lt num_le negb namespace member_factorial].
    change (NaN - one)%num with NaN. rewrite IH1. reflexivity.
  - unfold factorial at 1. cbn [num_lt num_le negb namespace member_factorial].
    change (Inf false - one)%num with (Inf false). rewrite IH2. reflexivity.
Qed.

(** ** pointWhereTwoLinesIntersect on two vertical lines *)

Lemma div_zero_nonfinite (a : num) (z : bool) : isFinite (a / Fin 0 z)%num = false.
Proof.
  destruct a as [| |p zp]; try reflexivity.
  unfold num_div. change (Qeq_bool 0 0) with true. cbv iota.
  destruct (Qeq_bool p 0); reflexivity.
Qed.

Lemma mul_nonfinite (a b : num) : isFinite a = false -> isFinite (a * b)%num = false.
Proof.
  destruct a as [| |p zp]; try discriminate; intros _; destruct b as [| |q zq];
    try reflexivity.
  unfold num_mul. destruct (Qeq_bool q 0); reflexivity.
Qed.

Lemma num_add_fin_nonfinite (p : Q) (z : bool) (b : num) :
  isFinite b = false -> isFinite (Fin p z + b)%num = false.
Proof. destruct b; [reflexivity | reflexivity | discriminate]. Qed.

(** X27.  Two vertical lines have no intersection to return: for finite
    points with [p1.x = p2.x], [p3.x = p4.x] and neither pair at one height,
    the point returned has the abscissa of [p1] and an ordinate that is NaN
    or infinite. *)
Theorem intersect_both_vertical (p1 p2 p3 p4 : Point) (x1 y1 x2 y2 x3 y3 x4 y4 : Q) :
  coords p1 = Some (x1, y1) -> coords p2 = Some (x2, y2) ->
  coords p3 = Some (x3, y3) -> coords p4 = Some (x4, y4) ->
  x1 == x2 -> ~ y1 == y2 -> x3 == x4 -> ~ y3 == y4 ->
  let p := pointWhereTwoLinesIntersect p1 p2 p3 p4 in
  x p = x p1 /\ isFinite (y p) = false.
Proof.
  destruct p1 as [[| |a1 s1] [| |b1 t1]], p2 as [[| |a2 s2] [| |b2 t2]]; try discriminate.
  destruct p3 as [[| |a3 s3] [| |b3 t3]], p4 as [[| |a4 s4] [| |b4 t4]]; try discriminate.
  unfold coords; cbn [x y value].
  intros H1 H2 H3 H4 Hx12 Hy12 Hx34 Hy34.
  injection H1 as -> ->. injection H2 as -> ->. injection H3 as -> ->. injection H4 as -> ->.
  unfold pointWhereTwoLinesIntersect; cbv zeta; cbn [x y].
  destruct (num_sub_same x2 x1 s2 s1) as [u2 E2]; [lra|]. rewrite !E2.
  destruct (num_sub_same x4 x3 s4 s3) as [u4 E4]; [lra|]. rewrite !E4.
  rewrite (div_zero_nonfinite (Fin y2 t2 - Fin y1 t1)%num u2). cbn [negb x y].
  split; [reflexivity|].
  apply num_add_fin_nonfinite, mul_nonfinite, div_zero_nonfinite.
Qed.

Lemma intersect_both_vertical_witness :
  let p := pointWhereTwoLinesIntersect
             (mkPoint zero zero) (mkPoint zero one)
             (mkPoint (num_of_Z 3) zero) (mkPoint (num_of_Z 3) one) in
  x p = zero /\ isFinite (y p) = false.
Proof.
  apply (intersect_both_vertical
           (mkPoint zero zero) (mkPoint zero one)
           (mkPoint (num_of_Z 3) zero) (mkPoint (num_of_Z 3) one)
           0 0 0 1 3 0 3 1); try reflexivity; cbn; intros H; discriminate H.
Defined.

(** With the abscissas apart the ordinate is an infinity times a non-zero
    difference; on one and the same vertical line it is an infinity times
    zero, NaN. *)
Example intersect_same_vertical :
  pointWhereTwoLinesIntersect (mkPoint zero zero) (mkPoint zero one)
    (mkPoint zero (num_of_Z 2)) (mkPoint zero (num_of_Z 3))
  = mkPoint zero NaN.
Proof. vm_compute. reflexivity. Qed.

(** ** What getMatchesByTex hands out *)

(** The handles of a match lead to children of one element of the tree. *)
Lemma is_match_handles (subtree : element) (prefix : path) (root : element) (m : list path)
  (q : path) :
  is_match subtree prefix root m -> In q m ->
  exists r, q = prefix ++ r /\ r <> [] /\ get root r <> None.
Proof.
  intros (r & parent & k & Hget & Hlt & H) Hq.
  destruct H as [(c & Hc & _ & ->)|[Hrun ->]].
  - destruct Hq as [<-|[]]. exists (r ++ [k]). split; [reflexivity|]. split.
    + destruct r; discriminate.
    + rewrite get_app, Hget, get_child, Hc. discriminate.
  - apply in_map_iff in Hq. destruct Hq as (j & <- & Hj). apply in_seq in Hj.
    exists (r ++ [(k + j)%nat]). split; [reflexivity|]. split.
    + destruct r; discriminate.
    + apply Forall2_length in Hrun. rewrite length_firstn, length_skipn in Hrun.
      rewrite get_app, Hget, get_child.
      apply nth_error_Some. lia.
Qed.

Section MatchedHandles.

Variable tex2svg : string -> element.

(** X28.  Whatever [getMatchesByTex] returns is part of the label: every
    node of every match is an element of the rendered tree, below the
    element that carries [data-mml-node="math"]. *)
Theorem getMatchesByTex_in_label (this : TeX) (tex : string) (matches : list (list path)) :
  getMatchesByTex tex2svg this tex = Ok matches ->
  forall m q, In m matches -> In q m ->
    get (rendered this) q <> None
    /\ exists p r,
         querySelector math_node (rendered this) = Some p /\ q = p ++ r /\ r <> [].
Proof.
  unfold getMatchesByTex. intros H m q Hm Hq.
  destruct (flattenSVG (tex2svg tex)) as [matchRendered|e]; cbn [bind] in H; [|discriminate].
  destruct (querySelector math_node (rendered this)) as [p|] eqn:Hp; cbn [subtree_at] in H;
    [|discriminate].
  destruct (querySelector_get _ _ _ Hp) as (root & Hroot & _). rewrite Hroot in H.
  destruct (subtree_at matchRendered (querySelector math_node matchRendered)) as [sub|];
    cbn [findSubtreeMatches] in H.
  - injection H as <-. apply In_traverse in Hm.
    destruct (is_match_handles sub p root m q Hm Hq) as (r & -> & Hr & Hget).
    split; [rewrite get_app, Hroot; exact Hget|].
    exists p, r. auto.
  - destruct (children root); [|discriminate]. injection H as <-. contradiction.
Qed.

End MatchedHandles.

Lemma getMatchesByTex_in_label_witness :
  get (rendered (label_of "xyx")) [0; 0; 2]%nat <> None
  /\ exists p r,
       querySelector math_node (rendered (label_of "xyx")) = Some p
       /\ [0; 0; 2]%nat = p ++ r /\ r <> [].
Proof.
  apply (getMatchesByTex_in_label glyph_engine (label_of "xyx") "x"
           [[[0; 0; 0]]; [[0; 0; 2]]]%nat eq_refl [[0; 0; 2]]%nat [0; 0; 2]%nat).
  - right. left. reflexivity.
  - left. reflexivity.
Defined.
